(** * parallel_graph: a thread pool summing the weights of a graph

    Shallow embedding of [src/os_threadpool.c] (the task queue and the worker
    pool) and [src/parallel.c] (the graph traversal and the driver), as an
    interleaving state machine: every thread carries a program counter that
    names the next statement of the C function it is in, the shared memory is
    one record, and a schedule picks which thread runs its next statement.
    Lock acquisition blocks (the step is not enabled) while another thread
    holds the lock. *)

From Stdlib Require Import ZArith Lia.
From stdpp Require Import base tactics option relations list.

Local Open Scope Z_scope.
Local Open Scope nat_scope.

(** ** Data model *)

(** Modelled from the spec: [os_graph.h] is not among the sources.  The spec
    gives every node an integer weight and a sequence of neighbour indices, and
    every node a visitation status; [parallel.c] calls the weight [info], the
    neighbour array [neighbours] (its length is [num_neighbours]) and the
    middle status [PROCESSING] (the spec's CLAIMED). *)
Inductive visit_status : Set := NOT_VISITED | PROCESSING | DONE.

Record os_node_t : Set := { info : Z; neighbours : list nat }.

Definition num_neighbours (n : os_node_t) : nat := length (neighbours n).

Global Instance visit_status_eq_dec : EqDecision visit_status.
Proof. solve_decision. Defined.

(** [int] is 32 bits wide, two's complement: the value an addition leaves in
    an [int] variable. *)
Definition wrap_int (z : Z) : Z := ((z + 2 ^ 31) mod 2 ^ 32 - 2 ^ 31)%Z.

(** The values an [int] can hold. *)
Definition in_int_range (z : Z) : Prop := (- 2 ^ 31 ≤ z < 2 ^ 31)%Z.

(** The threads of the process: the driver and the pool's workers, the latter
    named by their index in [tp->threads]. *)
Inductive thread_id : Set := Main | Worker (i : nat).

Global Instance thread_id_eq_dec : EqDecision thread_id.
Proof. solve_decision. Defined.

(** [parallel.c]: [graph_task_args_t]. *)
Record graph_task_args_t : Set := { idx : nat }.

(** The function pointers a task carries.  [execute] is the only action and
    [free] the only argument destructor the program ever stores. *)
Inductive action_fn : Set := execute_fn.
Inductive destroy_fn : Set := free_fn.

(** Modelled from the spec: [os_threadpool.h] is not among the sources.  A
    task is an action, an argument owned by the task, and an optional
    argument destructor; [create_task] fills exactly these three fields. *)
Record os_task_t : Set := {
  action : action_fn;
  argument : graph_task_args_t;
  destroy_arg : option destroy_fn
}.

Definition create_task (a : action_fn) (arg : graph_task_args_t)
    (d : option destroy_fn) : os_task_t :=
  {| action := a; argument := arg; destroy_arg := d |}.

Definition task_idx (t : os_task_t) : nat := idx (argument t).

(** Modelled from the spec: the pool owns the FIFO sequence of pending tasks
    ([head]), the tasks-ever-submitted counter ([tasks_added]), one mutex and
    one condition variable.  A mutex is its holder, a condition variable the
    threads blocked on it.  The counter's width is fixed by the missing header;
    it is kept unbounded here (a run submits at most one task per node). *)
Record os_threadpool_t : Set := {
  head : list os_task_t;
  tasks_added : nat;
  mutex : option thread_id;
  cond : list thread_id
}.

(** Modelled from the spec: [os_list.h] is not among the sources; the queue is
    a sequence whose insertion order is its removal order. *)
Definition list_add_tail (q : list os_task_t) (t : os_task_t) : list os_task_t :=
  q ++ [t].

Definition list_empty (q : list os_task_t) : bool :=
  match q with [] => true | _ :: _ => false end.

Definition queue_is_empty (p : os_threadpool_t) : bool := list_empty (head p).

(** [pthread_cond_signal] unblocks one of the waiting threads, which one is
    the scheduler's choice [pick]; [pthread_cond_broadcast] unblocks all. *)
Definition cond_signal (pick : nat) (w : list thread_id) : list thread_id :=
  delete (if decide (pick < length w) then pick else 0) w.

Definition cond_broadcast (w : list thread_id) : list thread_id := [].

(** Instrumentation, written but never read by the program: the tasks made
    by [create_task], the tasks linked into the queue and the nodes whose
    weight was added to [sum], each in the order it happened; the number of
    calls of a task's argument destructor and of [free] on a task. *)
Record history : Set := {
  created : list os_task_t;
  enqueued : list os_task_t;
  added : list nat;
  args_destroyed : nat;
  tasks_freed : nat
}.

(** The memory all threads share.  [graph->nodes] is never written after the
    graph is built and is a parameter below; [graph->visited], [sum], the
    graph mutex and the pool are here. *)
Record shared : Set := {
  tp : os_threadpool_t;
  visited : list visit_status;
  sum : Z;
  graph_mutex : option thread_id;
  log : history
}.

Definition set_head (q : list os_task_t) (p : os_threadpool_t) : os_threadpool_t :=
  {| head := q; tasks_added := tasks_added p; mutex := mutex p; cond := cond p |}.
Definition set_tasks_added (n : nat) (p : os_threadpool_t) : os_threadpool_t :=
  {| head := head p; tasks_added := n; mutex := mutex p; cond := cond p |}.
Definition set_mutex (m : option thread_id) (p : os_threadpool_t) : os_threadpool_t :=
  {| head := head p; tasks_added := tasks_added p; mutex := m; cond := cond p |}.
Definition set_cond (w : list thread_id) (p : os_threadpool_t) : os_threadpool_t :=
  {| head := head p; tasks_added := tasks_added p; mutex := mutex p; cond := w |}.

Definition log_created (t : os_task_t) (h : history) : history :=
  {| created := created h ++ [t]; enqueued := enqueued h; added := added h;
     args_destroyed := args_destroyed h; tasks_freed := tasks_freed h |}.
Definition log_enqueued (t : os_task_t) (h : history) : history :=
  {| created := created h; enqueued := enqueued h ++ [t]; added := added h;
     args_destroyed := args_destroyed h; tasks_freed := tasks_freed h |}.
Definition log_added (v : nat) (h : history) : history :=
  {| created := created h; enqueued := enqueued h; added := added h ++ [v];
     args_destroyed := args_destroyed h; tasks_freed := tasks_freed h |}.
Definition log_arg_destroyed (h : history) : history :=
  {| created := created h; enqueued := enqueued h; added := added h;
     args_destroyed := S (args_destroyed h); tasks_freed := tasks_freed h |}.
Definition log_task_freed (h : history) : history :=
  {| created := created h; enqueued := enqueued h; added := added h;
     args_destroyed := args_destroyed h; tasks_freed := S (tasks_freed h) |}.

Definition set_tp (p : os_threadpool_t) (sh : shared) : shared :=
  {| tp := p; visited := visited sh; sum := sum sh; graph_mutex := graph_mutex sh;
     log := log sh |}.
Definition set_visited (v : list visit_status) (sh : shared) : shared :=
  {| tp := tp sh; visited := v; sum := sum sh; graph_mutex := graph_mutex sh;
     log := log sh |}.
Definition set_sum (z : Z) (sh : shared) : shared :=
  {| tp := tp sh; visited := visited sh; sum := z; graph_mutex := graph_mutex sh;
     log := log sh |}.
Definition set_graph_mutex (m : option thread_id) (sh : shared) : shared :=
  {| tp := tp sh; visited := visited sh; sum := sum sh; graph_mutex := m;
     log := log sh |}.
Definition set_log (h : history) (sh : shared) : shared :=
  {| tp := tp sh; visited := visited sh; sum := sum sh; graph_mutex := graph_mutex sh;
     log := h |}.

(** ** Program counters

    One constructor per statement boundary at which another thread can be
    scheduled; the constructors of a type follow the statements of the C
    function they belong to. *)

(** [enqueue_task]: before the lock; holding the lock, before
    [list_add_tail]/[atomic_fetch_add]/[pthread_cond_signal]; before the
    unlock. *)
Inductive enq_pc : Set := EnqLock | EnqAdd | EnqUnlock.

(** [dequeue_task]: before the lock; at the [while] test; inside
    [pthread_cond_wait]; at the [if (!queue_is_empty(tp))]; before
    [t = list_entry(...); list_del(&t->list)]; before the unlock with the
    value of [t]. *)
Inductive deq_pc : Set :=
  | DeqLock | DeqCheck | DeqWait | DeqTake | DeqPop
  | DeqUnlock (t : option os_task_t).

(** [execute]: before the lock; at the [if (visited[idx] == PROCESSING)];
    before [sum += node->info; visited[idx] = DONE]; at the loop test of
    iteration [i] together with its [if]; before
    [visited[neighbours[i]] = PROCESSING] and the making of the new task;
    inside [enqueue_task] for that task; before the unlock. *)
Inductive exec_pc : Set :=
  | ExecLock | ExecTest | ExecAdd
  | ExecLoop (i : nat) | ExecClaim (i : nat)
  | ExecEnq (i : nat) (nt : os_task_t) (e : enq_pc)
  | ExecUnlock.

(** [thread_loop_function]; [NotCreated] is a slot of [tp->threads] before its
    [pthread_create]. *)
Inductive worker_pc : Set :=
  | NotCreated
  | LoopDeq (d : deq_pc)
  | LoopAction (t : os_task_t) (x : exec_pc)
  | LoopDestroy (t : os_task_t)
  | LoopExit.

(** [process_node]. *)
Inductive seed_pc : Set :=
  | SeedLock | SeedClaim | SeedEnq (t : os_task_t) (e : enq_pc) | SeedUnlock.

(** [wait_for_completion]. *)
Inductive wait_pc : Set :=
  | WaitLock | WaitBroadcast | WaitUnlock | WaitJoin (i : nat).

(** [main], from [create_threadpool]'s thread-creation loop on. *)
Inductive main_pc : Set :=
  | MainCreate (i : nat)
  | MainSeed (p : seed_pc)
  | MainWait (w : wait_pc)
  | MainDestroy
  | MainPrint
  | MainExit.

Record state : Set := {
  mem : shared;
  main : main_pc;
  workers : list worker_pc;
  output : option Z
}.

Record label : Set := { who : thread_id; pick : nat }.

(** ** The functions of [os_threadpool.c] *)

(** [destroy_task]: call the argument destructor if there is one, then free
    the task. *)
Definition destroy_task (t : os_task_t) (h : history) : history :=
  let h1 := match destroy_arg t with
            | Some free_fn => log_arg_destroyed h
            | None => h
            end in
  log_task_freed h1.

(** The statements [enqueue_task] runs while it holds the queue mutex. *)
Definition enqueue_locked (pick : nat) (t : os_task_t) (p : os_threadpool_t)
    : os_threadpool_t :=
  let p1 := set_head (list_add_tail (head p) t) p in
  let p2 := set_tasks_added (S (tasks_added p1)) p1 in
  set_cond (cond_signal pick (cond p2)) p2.

(** One statement of [enqueue_task]; the second component is [None] once the
    function has returned. *)
Definition step_enqueue_task (me : thread_id) (pick : nat) (t : os_task_t)
    (sh : shared) (e : enq_pc) : option (shared * option enq_pc) :=
  match e with
  | EnqLock =>
      match mutex (tp sh) with
      | None => Some (set_tp (set_mutex (Some me) (tp sh)) sh, Some EnqAdd)
      | Some _ => None
      end
  | EnqAdd =>
      Some (set_log (log_enqueued t (log sh)) (set_tp (enqueue_locked pick t (tp sh)) sh),
            Some EnqUnlock)
  | EnqUnlock => Some (set_tp (set_mutex None (tp sh)) sh, None)
  end.

(** The condition of the [while] in [dequeue_task]. *)
Definition dequeue_must_wait (p : os_threadpool_t) : bool :=
  queue_is_empty p && bool_decide (tasks_added p = 0).

(** The body of the [if (!queue_is_empty(tp))] of [dequeue_task]: the task at
    [tp->head.next], unlinked.  On an empty list [head.next] is the list head
    itself, not a task: no behaviour. *)
Definition dequeue_locked (p : os_threadpool_t) : option (os_task_t * os_threadpool_t) :=
  match head p with
  | [] => None
  | t :: q => Some (t, set_head q p)
  end.

(** One statement of [dequeue_task]; [inr r] is the return of [r].
    [pthread_cond_wait] releases the mutex and blocks; it returns once a
    signal or broadcast has taken the thread off the condition variable and
    the mutex is free again.  Wake-ups without a signal are not modelled. *)
Definition step_dequeue_task (me : thread_id) (sh : shared) (d : deq_pc)
    : option (shared * (deq_pc + option os_task_t)) :=
  match d with
  | DeqLock =>
      match mutex (tp sh) with
      | None => Some (set_tp (set_mutex (Some me) (tp sh)) sh, inl DeqCheck)
      | Some _ => None
      end
  | DeqCheck =>
      if dequeue_must_wait (tp sh)
      then Some (set_tp (set_mutex None (set_cond (cond (tp sh) ++ [me]) (tp sh))) sh,
                 inl DeqWait)
      else Some (sh, inl DeqTake)
  | DeqWait =>
      if decide (me ∈ cond (tp sh)) then None
      else match mutex (tp sh) with
           | None => Some (set_tp (set_mutex (Some me) (tp sh)) sh, inl DeqCheck)
           | Some _ => None
           end
  | DeqTake =>
      Some (sh, inl (if queue_is_empty (tp sh) then DeqUnlock None else DeqPop))
  | DeqPop =>
      '(t, p) ← dequeue_locked (tp sh);
      Some (set_tp p sh, inl (DeqUnlock (Some t)))
  | DeqUnlock r => Some (set_tp (set_mutex None (tp sh)) sh, inr r)
  end.

(** [destroy_threadpool]: every task still in the queue is unlinked and
    destroyed. *)
Definition destroy_threadpool (sh : shared) : shared :=
  set_log (foldl (fun h t => destroy_task t h) (log sh) (head (tp sh)))
    (set_tp (set_head [] (tp sh)) sh).

(** One statement of [wait_for_completion]; [pthread_join] returns once the
    joined thread has left [thread_loop_function]. *)
Definition step_wait_for_completion (num_threads : nat) (me : thread_id)
    (ws : list worker_pc) (sh : shared) (w : wait_pc)
    : option (shared * option wait_pc) :=
  match w with
  | WaitLock =>
      match mutex (tp sh) with
      | None => Some (set_tp (set_mutex (Some me) (tp sh)) sh, Some WaitBroadcast)
      | Some _ => None
      end
  | WaitBroadcast =>
      Some (set_tp (set_cond (cond_broadcast (cond (tp sh))) (tp sh)) sh, Some WaitUnlock)
  | WaitUnlock => Some (set_tp (set_mutex None (tp sh)) sh, Some (WaitJoin 0))
  | WaitJoin i =>
      if decide (i < num_threads)
      then match ws !! i with
           | Some LoopExit => Some (sh, Some (WaitJoin (S i)))
           | _ => None
           end
      else Some (sh, None)
  end.

(** A call that runs to its return with no other thread scheduled in
    between: [None] when the call blocks, has no behaviour, or needs more than
    [fuel] statements. *)
Fixpoint run_enqueue_task (fuel : nat) (me : thread_id) (pick : nat) (t : os_task_t)
    (sh : shared) (e : enq_pc) : option shared :=
  match fuel with
  | 0 => None
  | S fuel' =>
      '(sh', e') ← step_enqueue_task me pick t sh e;
      match e' with
      | Some e'' => run_enqueue_task fuel' me pick t sh' e''
      | None => Some sh'
      end
  end.

Fixpoint run_dequeue_task (fuel : nat) (me : thread_id) (sh : shared) (d : deq_pc)
    : option (shared * option os_task_t) :=
  match fuel with
  | 0 => None
  | S fuel' =>
      '(sh', r) ← step_dequeue_task me sh d;
      match r with
      | inl d' => run_dequeue_task fuel' me sh' d'
      | inr t => Some (sh', t)
      end
  end.

(** The queue seen through its two operations, as one consumer sees it: the
    critical section of [enqueue_task], and the [if (!queue_is_empty(tp))] of
    [dequeue_task] with its body.  [queue_run] lists the tasks the dequeues
    return, in the order they return them. *)
Inductive queue_op : Set := Enqueue (t : os_task_t) | Dequeue.

Definition is_enqueue (o : queue_op) : Prop :=
  match o with Enqueue _ => True | Dequeue => False end.

Definition enqueued_by (ops : list queue_op) : list os_task_t :=
  ops ≫= fun o => match o with Enqueue t => [t] | Dequeue => [] end.

Fixpoint queue_run (pick : nat) (ops : list queue_op) (p : os_threadpool_t)
    : list os_task_t :=
  match ops with
  | [] => []
  | Enqueue t :: ops' => queue_run pick ops' (enqueue_locked pick t p)
  | Dequeue :: ops' =>
      if queue_is_empty p then queue_run pick ops' p
      else match dequeue_locked p with
           | Some (t, p') => t :: queue_run pick ops' p'
           | None => queue_run pick ops' p
           end
  end.

(** ** The functions of [parallel.c] *)

Section Program.

(** [graph->nodes], and the value of the macro [NUM_THREADS]. *)
Variable nodes : list os_node_t.
Variable NUM_THREADS : nat.

(** One statement of [execute]; an index outside [graph->nodes] or
    [graph->visited] has no behaviour in C and no step here.  [node] is read
    once, right after the lock; [graph->nodes] never changes, so the later
    statements find the same node. *)
Definition step_execute (me : thread_id) (pick : nat) (arg : graph_task_args_t)
    (sh : shared) (x : exec_pc) : option (shared * option exec_pc) :=
  match x with
  | ExecLock =>
      match graph_mutex sh with
      | None => Some (set_graph_mutex (Some me) sh, Some ExecTest)
      | Some _ => None
      end
  | ExecTest =>
      _ ← nodes !! idx arg;
      v ← visited sh !! idx arg;
      Some (sh, Some (if decide (v = PROCESSING) then ExecAdd else ExecUnlock))
  | ExecAdd =>
      node ← nodes !! idx arg;
      _ ← visited sh !! idx arg;
      Some (set_log (log_added (idx arg) (log sh))
              (set_visited (<[idx arg := DONE]> (visited sh))
                 (set_sum (wrap_int (sum sh + info node)) sh)),
            Some (ExecLoop 0))
  | ExecLoop i =>
      node ← nodes !! idx arg;
      match neighbours node !! i with
      | None => Some (sh, Some ExecUnlock)
      | Some nb =>
          v ← visited sh !! nb;
          Some (sh, Some (if decide (v = NOT_VISITED) then ExecClaim i else ExecLoop (S i)))
      end
  | ExecClaim i =>
      node ← nodes !! idx arg;
      nb ← neighbours node !! i;
      _ ← visited sh !! nb;
      let nt := create_task execute_fn {| idx := nb |} (Some free_fn) in
      Some (set_log (log_created nt (log sh))
              (set_visited (<[nb := PROCESSING]> (visited sh)) sh),
            Some (ExecEnq i nt EnqLock))
  | ExecEnq i nt e =>
      '(sh', e') ← step_enqueue_task me pick nt sh e;
      Some (sh', Some (match e' with Some e'' => ExecEnq i nt e'' | None => ExecLoop (S i) end))
  | ExecUnlock => Some (set_graph_mutex None sh, None)
  end.

(** One statement of [process_node]. *)
Definition step_process_node (me : thread_id) (pick : nat) (i : nat)
    (sh : shared) (p : seed_pc) : option (shared * option seed_pc) :=
  match p with
  | SeedLock =>
      match graph_mutex sh with
      | None => Some (set_graph_mutex (Some me) sh, Some SeedClaim)
      | Some _ => None
      end
  | SeedClaim =>
      _ ← visited sh !! i;
      let t := create_task execute_fn {| idx := i |} (Some free_fn) in
      Some (set_log (log_created t (log sh))
              (set_visited (<[i := PROCESSING]> (visited sh)) sh),
            Some (SeedEnq t EnqLock))
  | SeedEnq t e =>
      '(sh', e') ← step_enqueue_task me pick t sh e;
      Some (sh', Some (match e' with Some e'' => SeedEnq t e'' | None => SeedUnlock end))
  | SeedUnlock => Some (set_graph_mutex None sh, None)
  end.

Fixpoint run_execute (fuel : nat) (me : thread_id) (pick : nat)
    (arg : graph_task_args_t) (sh : shared) (x : exec_pc) : option shared :=
  match fuel with
  | 0 => None
  | S fuel' =>
      '(sh', x') ← step_execute me pick arg sh x;
      match x' with
      | Some x'' => run_execute fuel' me pick arg sh' x''
      | None => Some sh'
      end
  end.

Fixpoint run_process_node (fuel : nat) (me : thread_id) (pick : nat) (i : nat)
    (sh : shared) (p : seed_pc) : option shared :=
  match fuel with
  | 0 => None
  | S fuel' =>
      '(sh', p') ← step_process_node me pick i sh p;
      match p' with
      | Some p'' => run_process_node fuel' me pick i sh' p''
      | None => Some sh'
      end
  end.

(** One statement of [thread_loop_function] run by worker [i]. *)
Definition step_worker (i : nat) (pick : nat) (sh : shared) (pc : worker_pc)
    : option (shared * worker_pc) :=
  match pc with
  | NotCreated => None
  | LoopDeq d =>
      '(sh', r) ← step_dequeue_task (Worker i) sh d;
      Some (sh', match r with
                 | inl d' => LoopDeq d'
                 | inr None => LoopExit
                 | inr (Some t) => LoopAction t ExecLock
                 end)
  | LoopAction t x =>
      match action t with
      | execute_fn =>
          '(sh', x') ← step_execute (Worker i) pick (argument t) sh x;
          Some (sh', match x' with Some x'' => LoopAction t x'' | None => LoopDestroy t end)
      end
  | LoopDestroy t => Some (set_log (destroy_task t (log sh)) sh, LoopDeq DeqLock)
  | LoopExit => None
  end.

(** One statement of [main]: the thread-creation loop of [create_threadpool],
    [process_node(0)], [wait_for_completion], [destroy_threadpool], [printf].
    A failed allocation or thread creation ends the process through [DIE] and
    is not modelled: every [malloc] succeeds, that of an empty thread array
    included, and so does every [pthread_create]. *)
Definition step_main (pick : nat) (s : state) : option state :=
  match main s with
  | MainCreate i =>
      if decide (i < NUM_THREADS)
      then Some {| mem := mem s; main := MainCreate (S i);
                   workers := <[i := LoopDeq DeqLock]> (workers s); output := output s |}
      else Some {| mem := mem s; main := MainSeed SeedLock;
                   workers := workers s; output := output s |}
  | MainSeed p =>
      '(sh', p') ← step_process_node Main pick 0 (mem s) p;
      Some {| mem := sh';
              main := match p' with Some p'' => MainSeed p'' | None => MainWait WaitLock end;
              workers := workers s; output := output s |}
  | MainWait w =>
      '(sh', w') ← step_wait_for_completion NUM_THREADS Main (workers s) (mem s) w;
      Some {| mem := sh';
              main := match w' with Some w'' => MainWait w'' | None => MainDestroy end;
              workers := workers s; output := output s |}
  | MainDestroy =>
      Some {| mem := destroy_threadpool (mem s); main := MainPrint;
              workers := workers s; output := output s |}
  | MainPrint =>
      Some {| mem := mem s; main := MainExit;
              workers := workers s; output := Some (sum (mem s)) |}
  | MainExit => None
  end.

(** The scheduler runs the next statement of thread [who l]; [None] when that
    thread is blocked, finished or not yet created. *)
Definition step (l : label) (s : state) : option state :=
  match who l with
  | Main => step_main (pick l) s
  | Worker i =>
      pc ← workers s !! i;
      '(sh', pc') ← step_worker i (pick l) (mem s) pc;
      Some {| mem := sh'; main := main s;
              workers := <[i := pc']> (workers s); output := output s |}
  end.

Fixpoint run (sched : list label) (s : state) : option state :=
  match sched with
  | [] => Some s
  | l :: sched' => s' ← step l s; run sched' s'
  end.

(** The memory when [main] enters [create_threadpool]'s loop: the graph is
    built and unvisited, [sum] is a zero-initialised static, the pool is
    initialised and no thread exists yet. *)
Definition init_shared : shared :=
  {| tp := {| head := []; tasks_added := 0; mutex := None; cond := [] |};
     visited := replicate (length nodes) NOT_VISITED;
     sum := 0%Z; graph_mutex := None;
     log := {| created := []; enqueued := []; added := [];
               args_destroyed := 0; tasks_freed := 0 |} |}.

Definition init : state :=
  {| mem := init_shared; main := MainCreate 0;
     workers := replicate NUM_THREADS NotCreated; output := None |}.

End Program.

(** ** Specification vocabulary *)

(** The graph: an edge leads from a node to each of its neighbours; a node is
    reachable when a path of edges leads to it. *)
Definition edge (nodes : list os_node_t) (u v : nat) : Prop :=
  ∃ n, nodes !! u = Some n ∧ v ∈ neighbours n.

Definition reachable (nodes : list os_node_t) (u v : nat) : Prop :=
  rtc (edge nodes) u v.

(** What the graph constructor promises: every neighbour index names a node. *)
Definition graph_wf (nodes : list os_node_t) : Prop :=
  Forall (fun n => Forall (fun nb => nb < length nodes) (neighbours n)) nodes.

Definition weight (nodes : list os_node_t) (v : nat) : Z :=
  from_option info 0%Z (nodes !! v).

(** The unbounded sum of the weights of a list of nodes. *)
Definition sum_weights (nodes : list os_node_t) (l : list nat) : Z :=
  foldr (fun v a => (weight nodes v + a)%Z) 0%Z l.

(** [main] has returned. *)
Definition terminal (s : state) : Prop := main s = MainExit.

(** ** Example inputs

    The graphs of the spec's end-to-end scenarios, a graph whose weights do
    not fit an [int] together, and schedules that run one thread at a time
    until it blocks or returns. *)
Definition star_graph : list os_node_t :=
  [ {| info := 5; neighbours := [1; 2; 3] |}; {| info := 1; neighbours := [0] |};
    {| info := 2; neighbours := [0] |}; {| info := 3; neighbours := [0] |} ].

Definition isolated_node : list os_node_t := [ {| info := 7; neighbours := [] |} ].

Definition cycle_graph : list os_node_t :=
  [ {| info := 1; neighbours := [1] |}; {| info := 2; neighbours := [0] |} ].

Definition overflow_graph : list os_node_t :=
  [ {| info := 2147483647; neighbours := [1] |}; {| info := 1; neighbours := [] |} ].

(** Thread [t] runs its next [k] statements. *)
Definition sched_of (t : thread_id) (k : nat) : list label :=
  replicate k {| who := t; pick := 0 |}.

(** With four workers: [main] runs up to its first [pthread_join], worker 0
    serves the whole queue in [k] statements and leaves, the other workers
    find the queue empty and leave, [main] joins, destroys and prints. *)
Definition sequential_4 (k : nat) : list label :=
  sched_of Main 14 ++ sched_of (Worker 0) k ++ sched_of (Worker 1) 4 ++
  sched_of (Worker 2) 4 ++ sched_of (Worker 3) 4 ++ sched_of Main 7.

(** With no worker, [main] is the only thread: the seed task is still in the
    queue when [destroy_threadpool] runs. *)
Definition main_alone : list label := sched_of Main 13.

(** With one worker that reaches [pthread_cond_wait] before the seed task
    exists: the state in which [enqueue_task] has signalled it and released
    the queue mutex. *)
Definition woken_worker : list label :=
  sched_of Main 2 ++ sched_of (Worker 0) 2 ++ sched_of Main 5.

(** ** Invariants of the runs of [main] *)

(** Who holds a mutex, read off the program counters. *)
Definition holds_q (pc : worker_pc) : bool :=
  match pc with
  | LoopDeq (DeqCheck | DeqTake | DeqPop | DeqUnlock _) => true
  | LoopAction _ (ExecEnq _ _ (EnqAdd | EnqUnlock)) => true
  | _ => false
  end.

Definition holds_q_main (m : main_pc) : bool :=
  match m with
  | MainSeed (SeedEnq _ (EnqAdd | EnqUnlock)) => true
  | MainWait (WaitBroadcast | WaitUnlock) => true
  | _ => false
  end.

Definition holds_g (pc : worker_pc) : bool :=
  match pc with
  | LoopAction _ ExecLock => false
  | LoopAction _ _ => true
  | _ => false
  end.

Definition holds_g_main (m : main_pc) : bool :=
  match m with
  | MainSeed SeedLock => false
  | MainSeed _ => true
  | _ => false
  end.

Definition holder (fm : main_pc → bool) (fw : worker_pc → bool) (s : state)
    (t : thread_id) : bool :=
  match t with
  | Main => fm (main s)
  | Worker i => from_option fw false (workers s !! i)
  end.

(** A thread inside the critical section of an [enqueue_task] called from
    [execute] or [process_node]. *)
Definition enqueuing (pc : worker_pc) : bool :=
  match pc with
  | LoopAction _ (ExecEnq _ _ (EnqAdd | EnqUnlock)) => true
  | _ => false
  end.

Definition enqueuing_main (m : main_pc) : bool :=
  match m with
  | MainSeed (SeedEnq _ (EnqAdd | EnqUnlock)) => true
  | _ => false
  end.

Definition lock_ok (m : option thread_id) (hold : thread_id → bool) : Prop :=
  ∀ t, m = Some t ↔ hold t = true.

(** [main] has not yet claimed the start node. *)
Definition before_claim (m : main_pc) : bool :=
  match m with
  | MainCreate _ | MainSeed (SeedLock | SeedClaim) => true
  | _ => false
  end.

(** [main] has not yet linked the seed task into the queue. *)
Definition before_seed (m : main_pc) : bool :=
  match m with
  | MainCreate _ | MainSeed (SeedLock | SeedClaim | SeedEnq _ (EnqLock | EnqAdd)) => true
  | _ => false
  end.

(** [main] is past the broadcast of [wait_for_completion]. *)
Definition after_broadcast (m : main_pc) : bool :=
  match m with
  | MainWait (WaitUnlock | WaitJoin _) | MainDestroy | MainPrint | MainExit => true
  | _ => false
  end.

(** [main] is past the joins. *)
Definition after_join (m : main_pc) : bool :=
  match m with
  | MainDestroy | MainPrint | MainExit => true
  | _ => false
  end.

(** A worker that has not seen a task yet: not created, or in its first
    [dequeue_task] at or before the wait. *)
Definition idle (pc : worker_pc) : bool :=
  match pc with
  | NotCreated | LoopDeq (DeqLock | DeqCheck | DeqWait) => true
  | _ => false
  end.

(** What a worker's program counter says about the memory: the node of the
    task being executed is PROCESSING right after the test and DONE inside the
    loop, the neighbour about to be claimed is NOT_VISITED, the task being
    enqueued is the one made for the neighbour, and the queue is not empty
    when the head is about to be unlinked. *)
Definition worker_ok (nodes : list os_node_t) (sh : shared) (pc : worker_pc) : Prop :=
  match pc with
  | LoopDeq DeqPop => head (tp sh) ≠ []
  | LoopAction t ExecAdd => visited sh !! task_idx t = Some PROCESSING
  | LoopAction t (ExecLoop _) => visited sh !! task_idx t = Some DONE
  | LoopAction t (ExecClaim i) =>
      visited sh !! task_idx t = Some DONE ∧
      ∃ n nb, nodes !! task_idx t = Some n ∧ neighbours n !! i = Some nb ∧
              visited sh !! nb = Some NOT_VISITED
  | LoopAction t (ExecEnq i nt e) =>
      visited sh !! task_idx t = Some DONE ∧
      ∃ n, nodes !! task_idx t = Some n ∧ neighbours n !! i = Some (task_idx nt)
  | _ => True
  end.

(** The task a thread has made and not yet linked into the queue. *)
Definition new_task (pc : worker_pc) : list os_task_t :=
  match pc with
  | LoopAction _ (ExecEnq _ nt (EnqLock | EnqAdd)) => [nt]
  | _ => []
  end.

Definition new_task_main (m : main_pc) : list os_task_t :=
  match m with
  | MainSeed (SeedEnq t (EnqLock | EnqAdd)) => [t]
  | _ => []
  end.

Definition held_new (s : state) : list os_task_t :=
  new_task_main (main s) ++ (workers s ≫= new_task).

(** The tasks a worker owns that still await the test of [execute]. *)
Definition pend_task (pc : worker_pc) : list os_task_t :=
  match pc with
  | LoopDeq (DeqUnlock (Some t)) => [t]
  | LoopAction t (ExecLock | ExecTest | ExecAdd) => [t]
  | LoopAction _ (ExecEnq _ nt (EnqLock | EnqAdd)) => [nt]
  | _ => []
  end.

(** The tasks that exist and whose node has not been summed yet: queued, or
    owned by a thread. *)
Definition pending (s : state) : list os_task_t :=
  head (tp (mem s)) ++ new_task_main (main s) ++ (workers s ≫= pend_task).

(** The tasks a worker owns: created or dequeued and not yet destroyed. *)
Definition alive_task (pc : worker_pc) : list os_task_t :=
  match pc with
  | LoopDeq (DeqUnlock (Some t)) => [t]
  | LoopAction t x => t :: new_task pc
  | LoopDestroy t => [t]
  | _ => []
  end.

Definition alive (s : state) : list os_task_t :=
  head (tp (mem s)) ++ new_task_main (main s) ++ (workers s ≫= alive_task).

(** Worker [pc] is inside the loop of [execute] for node [v] and has not
    yet dealt with neighbour number [j]. *)
Definition in_loop (v j : nat) (pc : worker_pc) : Prop :=
  match pc with
  | LoopAction t (ExecLoop i | ExecClaim i) => task_idx t = v ∧ i ≤ j
  | LoopAction t (ExecEnq i _ _) => task_idx t = v ∧ S i ≤ j
  | _ => False
  end.

(** A worker that will look at the queue again before it exits. *)
Definition active (pc : worker_pc) : bool :=
  match pc with
  | NotCreated | LoopDeq (DeqUnlock None) | LoopExit => false
  | _ => true
  end.

(** Node [v] exists and has left NOT_VISITED. *)
Definition visited_at (vis : list visit_status) (v : nat) : Prop :=
  ∃ st, vis !! v = Some st ∧ st ≠ NOT_VISITED.

(** ** A bound on the length of every run

    Every statement executed uses up part of a budget: what is left for a
    state is the statements its threads can still execute before they need a
    new task, plus the price of a whole task for each task in the queue and
    for each node still NOT_VISITED. *)
Definition max_degree (nodes : list os_node_t) : nat :=
  max_list (num_neighbours <$> nodes).

Definition task_cost (D : nat) : nat := 16 + 5 * D.

Definition enq_cost (D : nat) (e : enq_pc) : nat :=
  match e with
  | EnqLock => 3 + task_cost D
  | EnqAdd => 2 + task_cost D
  | EnqUnlock => 1
  end.

Definition exec_cost (D : nat) (x : exec_pc) : nat :=
  match x with
  | ExecLock => 15 + 5 * D
  | ExecTest => 14 + 5 * D
  | ExecAdd => 13 + 5 * D
  | ExecLoop i => 12 + 5 * (D - i)
  | ExecClaim i => 11 + 5 * (D - i)
  | ExecEnq i _ e => 12 + 5 * (D - S i) + enq_cost D e
  | ExecUnlock => 8
  end.

Definition worker_cost (D : nat) (tasks_added : nat) (pc : worker_pc) : nat :=
  match pc with
  | NotCreated | LoopExit => 0
  | LoopDeq DeqLock => if decide (tasks_added = 0) then 6 else 4
  | LoopDeq DeqCheck => if decide (tasks_added = 0) then 5 else 3
  | LoopDeq DeqWait => 4
  | LoopDeq DeqTake => 2
  | LoopDeq DeqPop => 1
  | LoopDeq (DeqUnlock None) => 1
  | LoopDeq (DeqUnlock (Some _)) => 16 + 5 * D
  | LoopAction _ x => exec_cost D x
  | LoopDestroy _ => 7
  end.

Definition main_cost (D : nat) (n : nat) (m : main_pc) : nat :=
  match m with
  | MainCreate i => 13 + n + 7 * (n - i)
  | MainSeed SeedLock => 12 + n
  | MainSeed SeedClaim => 11 + n
  | MainSeed (SeedEnq _ e) => 7 + n + enq_cost D e
  | MainSeed SeedUnlock => 7 + n
  | MainWait WaitLock => 6 + n
  | MainWait WaitBroadcast => 5 + n
  | MainWait WaitUnlock => 4 + n
  | MainWait (WaitJoin i) => 3 + (n - i)
  | MainDestroy => 2
  | MainPrint => 1
  | MainExit => 0
  end.

Definition count_unvisited (vis : list visit_status) : nat :=
  length (filter (fun st => st = NOT_VISITED) vis).

Definition measure (nodes : list os_node_t) (n : nat) (s : state) : nat :=
  let D := max_degree nodes in
  main_cost D n (main s)
  + sum_list (worker_cost D (tasks_added (tp (mem s))) <$> workers s)
  + task_cost D * length (head (tp (mem s)))
  + task_cost D * count_unvisited (visited (mem s)).

(** The statements a thread must not be blocked on: a lock some thread
    holds, or the condition variable. *)
Definition wants_q (pc : worker_pc) : bool :=
  match pc with
  | LoopDeq (DeqLock | DeqWait) | LoopAction _ (ExecEnq _ _ EnqLock) => true
  | _ => false
  end.

Definition wants_g (pc : worker_pc) : bool :=
  match pc with
  | LoopAction _ ExecLock => true
  | _ => false
  end.

Definition wants_q_main (m : main_pc) : bool :=
  match m with
  | MainSeed (SeedEnq _ EnqLock) | MainWait WaitLock => true
  | _ => false
  end.

Definition wants_g_main (m : main_pc) : bool :=
  match m with
  | MainSeed SeedLock => true
  | _ => false
  end.

Section Invariants.

Variable nodes : list os_node_t.
Variable NUM_THREADS : nat.

Record inv (s : state) : Prop := {
  inv_workers : length (workers s) = NUM_THREADS;
  inv_visited : length (visited (mem s)) = length nodes;
  inv_create : ∀ i, main s = MainCreate i →
      i ≤ NUM_THREADS ∧ ∀ j pc, workers s !! j = Some pc → (pc = NotCreated ↔ i ≤ j);
  inv_created : (∀ i, main s ≠ MainCreate i) → Forall (fun pc => pc ≠ NotCreated) (workers s);
  inv_q : lock_ok (mutex (tp (mem s))) (holder holds_q_main holds_q s);
  inv_g : lock_ok (graph_mutex (mem s)) (holder holds_g_main holds_g s);
  inv_joined : ∀ i, main s = MainWait (WaitJoin i) →
      ∀ j, j < i → workers s !! j = Some LoopExit;
  inv_after_join : after_join (main s) = true → Forall (fun pc => pc = LoopExit) (workers s);
  inv_before_claim : before_claim (main s) = true →
      visited (mem s) = replicate (length nodes) NOT_VISITED ∧
      sum (mem s) = 0%Z ∧
      created (log (mem s)) = [] ∧ enqueued (log (mem s)) = [] ∧ added (log (mem s)) = [];
  inv_before_seed : before_seed (main s) = true →
      tasks_added (tp (mem s)) = 0 ∧ head (tp (mem s)) = [] ∧
      Forall (fun pc => idle pc = true) (workers s);
  inv_seeded : before_seed (main s) = false → 0 < tasks_added (tp (mem s));
  inv_after_broadcast : after_broadcast (main s) = true → cond (tp (mem s)) = [];
  inv_waiting : tasks_added (tp (mem s)) = 0 →
      ∀ i, workers s !! i = Some (LoopDeq DeqWait) → Worker i ∈ cond (tp (mem s));
  inv_worker_ok : Forall (worker_ok nodes (mem s)) (workers s)
}.

(** The history and the graph: every weight is added once, when its node
    becomes DONE; a task is made once per node, when the node leaves
    NOT_VISITED; the neighbours of a DONE node have all been claimed, except
    those its own [execute] has not reached yet; only nodes reachable from
    node 0 are ever claimed. *)
Record inv_graph (s : state) : Prop := {
  ig_added_nodup : NoDup (added (log (mem s)));
  ig_added : ∀ v, v ∈ added (log (mem s)) ↔ visited (mem s) !! v = Some DONE;
  ig_sum : sum (mem s) = wrap_int (sum_weights nodes (added (log (mem s))));
  ig_created_nodup : NoDup (task_idx <$> created (log (mem s)));
  ig_created : ∀ v, v ∈ task_idx <$> created (log (mem s)) ↔ visited_at (visited (mem s)) v;
  ig_enqueued : created (log (mem s)) ≡ₚ enqueued (log (mem s)) ++ held_new s;
  ig_closed : ∀ v n j nb,
      visited (mem s) !! v = Some DONE → nodes !! v = Some n → neighbours n !! j = Some nb →
      visited_at (visited (mem s)) nb ∨ ∃ k pc, workers s !! k = Some pc ∧ in_loop v j pc;
  ig_reach : ∀ v, visited_at (visited (mem s)) v → reachable nodes 0 v;
  ig_start : before_claim (main s) = false → visited_at (visited (mem s)) 0
}.

(** Every task made is destroyed at most once and only after it was made:
    the tasks not yet destroyed are those in the queue or owned by a
    thread, each has its argument destructor and names a node. *)
Record inv_alive (s : state) : Prop := {
  ia_count : length (created (log (mem s))) = args_destroyed (log (mem s)) + length (alive s);
  ia_freed : tasks_freed (log (mem s)) = args_destroyed (log (mem s));
  ia_tasks : Forall (fun t => destroy_arg t = Some free_fn ∧ task_idx t < length nodes) (alive s);
  ia_drained : main s = MainPrint ∨ main s = MainExit → head (tp (mem s)) = [];
  ia_output : main s = MainExit → output s = Some (sum (mem s))
}.

(** The tasks of [l] name distinct nodes, and these are exactly the nodes in
    PROCESSING. *)
Definition pend_ok (vis : list visit_status) (l : list os_task_t) : Prop :=
  NoDup (task_idx <$> l) ∧ ∀ v, v ∈ task_idx <$> l ↔ vis !! v = Some PROCESSING.

(** With at least one worker: a non-empty queue always has a worker that
    will come back for it, and the nodes in PROCESSING are exactly the nodes
    of the pending tasks, one task each. *)
Record inv_pending (s : state) : Prop := {
  ip_live : head (tp (mem s)) ≠ [] → ∃ k pc, workers s !! k = Some pc ∧ active pc = true;
  ip_pending : pend_ok (visited (mem s)) (pending s)
}.

End Invariants.

(** ** Further vocabulary *)

(** The threads blocked on the condition variable are workers inside
    [pthread_cond_wait], each listed once. *)
Definition cond_ok (s : state) : Prop :=
  NoDup (cond (tp (mem s))) ∧
  ∀ t, t ∈ cond (tp (mem s)) → ∃ i, t = Worker i ∧ workers s !! i = Some (LoopDeq DeqWait).

(** A graph with a node that no path from node 0 leads to. *)
Definition detached_graph : list os_node_t :=
  [ {| info := 1; neighbours := [1] |}; {| info := 2; neighbours := [0] |};
    {| info := 5; neighbours := [2] |} ].

(** The task [execute] makes for a neighbour it claims. *)
Definition task_for (nb : nat) : os_task_t :=
  create_task execute_fn {| idx := nb |} (Some free_fn).

(** What the [for] loop of [execute] does to the statuses when no other
    thread runs meanwhile: going through the neighbours in order, each one
    found NOT_VISITED is set to PROCESSING.  The first component lists the
    neighbours claimed, in the order of their claim. *)
Fixpoint claim_neighbours (nbs : list nat) (vis : list visit_status)
    : list nat * list visit_status :=
  match nbs with
  | [] => ([], vis)
  | nb :: rest =>
      if decide (vis !! nb = Some NOT_VISITED)
      then let '(c, vis') := claim_neighbours rest (<[nb := PROCESSING]> vis) in
           (nb :: c, vis')
      else claim_neighbours rest vis
  end.

(** [wait_for_completion] run to its return with no other thread scheduled
    in between; [None] when it blocks or needs more than [fuel] statements. *)
Fixpoint run_wait_for_completion (fuel : nat) (num_threads : nat) (me : thread_id)
    (ws : list worker_pc) (sh : shared) (w : wait_pc) : option shared :=
  match fuel with
  | 0 => None
  | S fuel' =>
      '(sh', w') ← step_wait_for_completion num_threads me ws sh w;
      match w' with
      | Some w'' => run_wait_for_completion fuel' num_threads me ws sh' w''
      | None => Some sh'
      end
  end.

(** * Proofs *)

Set Warnings "-clear-no-such-hyp".

(** ** The invariant [inv] holds in every state a run reaches *)

(* Unfolds the statement functions in [H] and splits on every test. *)
Ltac step_unfold H :=
  unfold step_main, step_worker, step_process_node, step_wait_for_completion,
    step_execute, step_dequeue_task, step_enqueue_task, dequeue_locked in H;
  simpl in H;
  repeat (first [ progress simplify_option_eq | case_match ]).

(* H : step nodes n l s = Some s', with s and l variables *)
Ltac step_cases H :=
  lazymatch type of H with
  | step _ _ ?l ?s = Some _ =>
      let p := fresh "p" in let vis := fresh "vis" in let sm := fresh "sm" in
      let gm := fresh "gm" in let lg := fresh "lg" in let m := fresh "m" in
      let ws := fresh "ws" in let out := fresh "out" in
      let i := fresh "i" in let pk := fresh "pk" in
      let pc := fresh "pc" in let Hpc := fresh "Hpc" in
      destruct s as [[p vis sm gm lg] m ws out]; destruct l as [[|i] pk];
      unfold step in H; simpl in H;
      [ destruct m as [?|[| |? [| |]|]|[| | |?]| | |]; step_unfold H
      | apply bind_Some in H as (pc & Hpc & H);
        destruct pc as [|[| | | | |?]|? [| | |?|?|? ? [| |]|]|?|]; step_unfold H ]
  end.

(** A mutex stays described by the program counters when one thread moves
    and either keeps the mutex as it was, takes the free mutex, or gives up
    the mutex it holds. *)
Lemma lock_ok_step (m m' : option thread_id) (hold hold' : thread_id → bool) (me : thread_id) :
  lock_ok m hold →
  (∀ t, t ≠ me → hold' t = hold t) →
  (m' = m ∧ hold' me = hold me) ∨
  (m = None ∧ m' = Some me ∧ hold' me = true) ∨
  (hold me = true ∧ m' = None ∧ hold' me = false) →
  lock_ok m' hold'.
Proof.
  intros Hok Hoth Hme t. destruct (decide (t = me)) as [->|Hne].
  - destruct Hme as [[-> ->]|[(-> & -> & ->)|(Hh & -> & ->)]]; [apply Hok|done|done].
  - rewrite (Hoth t Hne). destruct Hme as [[-> _]|[(Hm & -> & _)|(Hh & -> & _)]].
    + apply Hok.
    + rewrite <- (Hok t), Hm. split; [congruence|done].
    + apply Hok in Hh. rewrite <- (Hok t), Hh. split; [done|congruence].
Qed.

(** Mutual exclusion: two holders are the same thread. *)
Lemma lock_ok_excl m hold t1 t2 :
  lock_ok m hold → hold t1 = true → hold t2 = true → t1 = t2.
Proof. intros H H1%H H2%H. congruence. Qed.

(** A step of one thread leaves the holder status of the others alone. *)
Lemma holder_main_ne fm fw s s' t :
  t ≠ Main → workers s' = workers s → holder fm fw s' t = holder fm fw s t.
Proof. destruct t; simpl; [done|]. by intros _ ->. Qed.

Lemma holder_worker_ne fm fw s s' i pc' t :
  t ≠ Worker i → main s' = main s → workers s' = <[i:=pc']> (workers s) →
  holder fm fw s' t = holder fm fw s t.
Proof.
  destruct t as [|j]; simpl; [by intros _ ->|]. intros Hne _ ->.
  rewrite list_lookup_insert_ne; [done|congruence].
Qed.

Lemma holder_worker_eq fm fw s' ws i pc pc' :
  ws !! i = Some pc → workers s' = <[i:=pc']> ws →
  holder fm fw s' (Worker i) = fw pc'.
Proof.
  simpl. intros Hpc ->. rewrite list_lookup_insert_eq; [done|]. by eapply lookup_lt_Some.
Qed.

(** [pthread_create] touches no mutex. *)
Lemma lock_ok_create m fm fw sh m1 m2 ws out i :
  fm m2 = fm m1 → fw (LoopDeq DeqLock) = false → fw NotCreated = false →
  (∀ pc, ws !! i = Some pc → pc = NotCreated) →
  lock_ok m (holder fm fw {| mem := sh; main := m1; workers := ws; output := out |}) →
  lock_ok m (holder fm fw {| mem := sh; main := m2;
                             workers := <[i:=LoopDeq DeqLock]> ws; output := out |}).
Proof.
  intros Hfm Hfw Hfw' Hnc Hok.
  eapply (lock_ok_step _ _ _ _ (Worker i)); [exact Hok| |left; split; [done|]]; simpl.
  - intros [|j] Hj; simpl; [done|]. rewrite list_lookup_insert_ne; [done|congruence].
  - destruct (ws !! i) as [pc|] eqn:Hpc.
    + rewrite list_lookup_insert_eq by (by eapply lookup_lt_Some).
      simpl. by rewrite (Hnc _ eq_refl), Hfw, Hfw'.
    + rewrite list_insert_ge; [by rewrite Hpc|]. by apply lookup_ge_None.
Qed.

(** The tests of [dequeue_task] spelled out. *)
Lemma dequeue_must_wait_true p :
  dequeue_must_wait p = true ↔ head p = [] ∧ tasks_added p = 0.
Proof.
  unfold dequeue_must_wait, queue_is_empty, list_empty.
  rewrite andb_true_iff, bool_decide_eq_true. destruct (head p); naive_solver.
Qed.

Lemma dequeue_must_wait_false p :
  dequeue_must_wait p = false ↔ head p ≠ [] ∨ 0 < tasks_added p.
Proof.
  unfold dequeue_must_wait, queue_is_empty, list_empty.
  rewrite andb_false_iff, bool_decide_eq_false.
  destruct (head p); [|naive_solver]. split; intros [?|?]; try done; right; lia.
Qed.

Lemma queue_is_empty_true p : queue_is_empty p = true ↔ head p = [].
Proof. unfold queue_is_empty, list_empty. by destruct (head p). Qed.

Lemma queue_is_empty_false p : queue_is_empty p = false ↔ head p ≠ [].
Proof. unfold queue_is_empty, list_empty. by destruct (head p). Qed.

(** The phases of [main] follow one another. *)
Lemma after_broadcast_seeded m : after_broadcast m = true → before_seed m = false.
Proof. by destruct m as [|[| |? [| |]|]|[| | |]| | |]. Qed.

Lemma after_join_broadcast m : after_join m = true → after_broadcast m = true.
Proof. by destruct m as [|[| |? [| |]|]|[| | |]| | |]. Qed.

Lemma before_claim_seed m : before_claim m = true → before_seed m = true.
Proof. by destruct m as [|[| |? [| |]|]|[| | |]| | |]. Qed.

(** What a worker knows about the memory survives the steps of the others:
    the queue is written under the queue mutex only, the statuses under the
    graph mutex only. *)
Lemma worker_ok_stable nodes sh sh' pc :
  worker_ok nodes sh pc →
  (holds_q pc = true → head (tp sh') = head (tp sh)) →
  (holds_g pc = true → visited sh' = visited sh) →
  worker_ok nodes sh' pc.
Proof.
  destruct pc as [|[| | | | |?]|? [| | |?|?|? ? [| |]|]|?|]; simpl; try done.
  all: intros Hok Hq Hg; rewrite ?Hq, ?Hg by done; done.
Qed.

(** Two workers, or [main] and a worker, never hold the same mutex. *)
Lemma excl_worker fm fw s m i j pci pcj :
  lock_ok m (holder fm fw s) →
  workers s !! i = Some pci → workers s !! j = Some pcj →
  fw pci = true → fw pcj = true → i = j.
Proof.
  intros Hok Hi Hj Hfi Hfj.
  assert (Worker i = Worker j) as [= ->]; [|done].
  eapply lock_ok_excl; [exact Hok|simpl..]; [by rewrite Hi|by rewrite Hj].
Qed.

Lemma excl_main fm fw s m j pcj :
  lock_ok m (holder fm fw s) →
  workers s !! j = Some pcj → fm (main s) = true → fw pcj = true → False.
Proof.
  intros Hok Hj Hm Hfj.
  assert (Main = Worker j) as [=].
  eapply lock_ok_excl; [exact Hok|simpl..]; [done|by rewrite Hj].
Qed.

(* Case analysis on the statement that [H] executes, with the fields of the
   invariant [Hinv] and the fact [worker_ok] of the running worker at hand. *)
Ltac inv_start Hinv H :=
  step_cases H;
  destruct Hinv as [inv_workers inv_visited inv_create inv_created inv_q inv_g inv_joined
                    inv_after_join inv_before_claim inv_before_seed inv_seeded
                    inv_after_broadcast inv_waiting inv_worker_ok];
  simpl in *;
  match goal with
  | Hl : length ?ws = ?n |- _ =>
      is_var n;
      let Hlen := fresh "Hlen" in
      assert (Hlen : length ws ≤ n ∧ n ≤ length ws) by (rewrite Hl; split; reflexivity);
      clear Hl
  end;
  try match goal with
  | Hpc : ?ws !! ?i = Some ?pc, Hok : Forall (worker_ok _ _) ?ws |- _ =>
      let Hw := fresh "Hw" in
      pose proof (proj1 (Forall_lookup _ _) Hok _ _ Hpc) as Hw; simpl in Hw;
      unfold task_idx in Hw
  end.

(* Re-establishes [lock_ok] after the step of the running thread. *)
Ltac lock_step Hlock :=
  first
  [ eapply (lock_ok_step _ _ _ _ Main);
    [ exact Hlock | intros ? ?; by apply holder_main_ne | simpl; auto ]
  | match goal with
    | Hpc : _ !! ?i = Some _ |- _ =>
        eapply (lock_ok_step _ _ _ _ (Worker i));
        [ exact Hlock
        | intros ? ?; eapply holder_worker_ne; [done|reflexivity|reflexivity]
        | erewrite holder_worker_eq by (exact Hpc || reflexivity); simpl; rewrite ?Hpc; simpl; auto ]
    end ].

(* Uses the hypotheses at hand on the implications of the invariant. *)
Ltac ih :=
  repeat match goal with
  | H : ?a = ?a → _ |- _ => specialize (H eq_refl)
  | H : ?P → _, H' : ?P |- _ =>
      lazymatch type of P with Prop => specialize (H H') end
  | H : _ ∧ _ |- _ => destruct H
  | H : dequeue_must_wait _ = true |- _ => apply dequeue_must_wait_true in H
  | H : dequeue_must_wait _ = false |- _ => apply dequeue_must_wait_false in H
  | H : queue_is_empty _ = true |- _ => apply queue_is_empty_true in H
  | H : queue_is_empty _ = false |- _ => apply queue_is_empty_false in H
  end.

(* Instantiates the [Forall] facts at the running worker. *)
Ltac forall_at :=
  repeat match goal with
  | Hpc : ?ws !! ?i = Some ?pc, HF : Forall ?P ?ws |- _ =>
      lazymatch P with
      | worker_ok _ _ => fail
      | _ => let Hf := fresh "Hf" in
             pose proof (proj1 (Forall_lookup _ _) HF _ _ Hpc) as Hf; simpl in Hf;
             revert HF
      end
  end; intros.

(* Closes a goal in which two threads hold one mutex. *)
Ltac excl :=
  exfalso;
  match goal with
  | Hq : lock_ok _ (holder _ ?fw _), Hi : ?ws !! ?i = Some _, Hj : ?ws !! ?j = Some _,
    Hf : ?fw _ = true, Hne : ?i ≠ ?j |- _ =>
      apply Hne; eapply (excl_worker _ _ _ _ _ _ _ _ Hq); [exact Hi|exact Hj|reflexivity|exact Hf]
  | Hq : lock_ok _ (holder _ ?fw _), Hj : ?ws !! ?j = Some _, Hf : ?fw _ = true |- _ =>
      eapply (excl_main _ _ _ _ _ _ Hq); [exact Hj|reflexivity|exact Hf]
  end.

(* [worker_ok] of a worker other than the running one. *)
Ltac others_ok IH :=
  eapply worker_ok_stable;
  [ eapply (proj1 (Forall_lookup _ _) IH); eassumption
  | intros ?; first [reflexivity | excl]
  | intros ?; first [reflexivity | excl] ].

Section InvariantProofs.
Variable nodes : list os_node_t.
Variable NUM_THREADS : nat.
Local Abbreviation inv := (inv nodes NUM_THREADS).
Local Abbreviation step := (step nodes NUM_THREADS).

(** Each group of fields of [inv] is preserved by every statement. *)
Lemma inv_len_step l s s' :
  inv s → step l s = Some s' →
  length (workers s') = NUM_THREADS ∧ length (visited (mem s')) = length nodes.
Proof.
  intros Hinv H. inv_start Hinv H.
  all: rewrite ?length_insert; split; [lia|done].
Qed.

Lemma inv_create_step l s s' :
  inv s → step l s = Some s' →
  (∀ i, main s' = MainCreate i →
      i ≤ NUM_THREADS ∧ ∀ j pc, workers s' !! j = Some pc → (pc = NotCreated ↔ i ≤ j)) ∧
  ((∀ i, main s' ≠ MainCreate i) → Forall (fun pc => pc ≠ NotCreated) (workers s')).
Proof.
  intros Hinv H. inv_start Hinv H.
  all: try (split; [by intros ? [=]|intros _; by apply inv_created]).
  all: try (split;
    [ intros k Hk; destruct (inv_create _ Hk) as [? Hnc]; split; [done|];
      intros j pc0 [(-> & <- & _)|[Hne Hj]]%list_lookup_insert_Some; [|by apply Hnc];
      apply Hnc in Hpc; split; [done|intros Hle; by apply Hpc in Hle]
    | intros Hm; apply Forall_insert; [by apply inv_created | done] ]).
  - destruct (inv_create _ eq_refl) as [Hk Hnc].
    split; [|intros Hm; by destruct (Hm (S i))].
    intros ? [= <-]. split; [lia|]. intros j pc [(-> & <- & _)|[Hne Hj]]%list_lookup_insert_Some.
    + split; [done|lia].
    + rewrite (Hnc _ _ Hj). lia.
  - destruct (inv_create _ eq_refl) as [Hk Hnc].
    split; [done|]. intros _. apply Forall_lookup. intros j pc Hj ->.
    pose proof (lookup_lt_Some _ _ _ Hj). apply Hnc in Hj. destruct Hj as [Hj _]. specialize (Hj eq_refl). lia.
Qed.

Lemma inv_q_step l s s' :
  inv s → step l s = Some s' → lock_ok (mutex (tp (mem s'))) (holder holds_q_main holds_q s').
Proof.
  intros Hinv H. inv_start Hinv H.
  all: try lock_step inv_q.
  destruct (inv_create _ eq_refl) as [_ Hnc].
  eapply lock_ok_create with (m1 := MainCreate _); [done|done|done| |eassumption].
  intros pc Hpc. by apply Hnc in Hpc as [_ ->].
Qed.

Lemma inv_g_step l s s' :
  inv s → step l s = Some s' → lock_ok (graph_mutex (mem s')) (holder holds_g_main holds_g s').
Proof.
  intros Hinv H. inv_start Hinv H.
  all: try lock_step inv_g.
  destruct (inv_create _ eq_refl) as [_ Hnc].
  eapply lock_ok_create with (m1 := MainCreate _); [done|done|done| |eassumption].
  intros pc Hpc. by apply Hnc in Hpc as [_ ->].
Qed.

Lemma inv_rest_step l s s' :
  inv s → step l s = Some s' →
  (∀ i, main s' = MainWait (WaitJoin i) → ∀ j, j < i → workers s' !! j = Some LoopExit) ∧
  (after_join (main s') = true → Forall (fun pc => pc = LoopExit) (workers s')) ∧
  (before_claim (main s') = true →
      visited (mem s') = replicate (length nodes) NOT_VISITED ∧
      sum (mem s') = 0%Z ∧
      created (log (mem s')) = [] ∧ enqueued (log (mem s')) = [] ∧ added (log (mem s')) = []) ∧
  (before_seed (main s') = true →
      tasks_added (tp (mem s')) = 0 ∧ head (tp (mem s')) = [] ∧
      Forall (fun pc => idle pc = true) (workers s')) ∧
  (before_seed (main s') = false → 0 < tasks_added (tp (mem s'))) ∧
  (after_broadcast (main s') = true → cond (tp (mem s')) = []) ∧
  (tasks_added (tp (mem s')) = 0 →
      ∀ i, workers s' !! i = Some (LoopDeq DeqWait) → Worker i ∈ cond (tp (mem s'))).
Proof.
  intros Hinv H. inv_start Hinv H.
  all: (split; [|split; [|split; [|split; [|split; [|split]]]]]).
  all: try done.
  all: intros; ih; forall_at.
  all: try done.
  all: try lia.
  all: try (repeat split; try done; try (apply Forall_insert; done)).
  all: try match goal with
       | Hc : cond ?p = [] |- cond_signal _ (cond ?p) = [] => by rewrite Hc
       | Hd : _ ∨ _ |- _ => destruct Hd; [done|lia]
       | Hb : after_broadcast _ = true |- _ =>
           apply after_broadcast_seeded in Hb; ih; lia
       | Hb : before_claim _ = true |- _ =>
           apply before_claim_seed in Hb; ih; forall_at; done
       | Hm : _ = MainWait (WaitJoin ?k), Hlt : ?j < ?k, Hpc : _ !! ?i = Some _
         |- <[?i:=_]> _ !! ?j = _ =>
           subst; pose proof (inv_joined _ eq_refl _ Hlt) as Hj;
           destruct (decide (i = j)) as [->|];
           [ rewrite Hj in Hpc; done | by rewrite list_lookup_insert_ne ]
       end.
  all: try match goal with
       | Hl : <[_:=_]> _ !! _ = Some (LoopDeq DeqWait) |- _ =>
           apply list_lookup_insert_Some in Hl as [(-> & ? & _)|[? ?]];
           [ try done; apply elem_of_app; right; by apply list_elem_of_singleton
           | try (apply elem_of_app; left); eauto ]
       end.
  - simplify_eq. lia.
  - simplify_eq. destruct (decide (j = i)) as [->|]; [done|]. apply (inv_joined _ eq_refl); lia.
  - apply Forall_lookup. intros j pc Hj. pose proof (lookup_lt_Some _ _ _ Hj).
    rewrite (inv_joined _ eq_refl j) in Hj by lia. congruence.
Qed.

Lemma inv_worker_ok_step l s s' :
  inv s → step l s = Some s' → Forall (worker_ok nodes (mem s')) (workers s').
Proof.
  intros Hinv H. inv_start Hinv H.
  all: try done.
  all: apply Forall_lookup; intros j pcj Hj.
  all: try (apply list_lookup_insert_Some in Hj as [(-> & <- & _)|[Hne Hj]]).
  all: try (others_ok inv_worker_ok).
  all: simpl in *; unfold task_idx in *; simpl in *.
  all: try done.
  - specialize (inv_after_join eq_refl).
    by rewrite (proj1 (Forall_lookup _ _) inv_after_join _ _ Hj).
  - by apply queue_is_empty_false.
  - apply list_lookup_insert_eq. by eapply lookup_lt_Some.
  - eauto 10.
  - destruct Hw as (Hd & n & nb & Hn & Hnb & Hv). simplify_eq. split; [|eauto].
    rewrite list_lookup_insert_ne; [done|]. intros ->. congruence.
  - by destruct Hw.
Qed.

(** [inv] is preserved by every statement, holds initially, and so holds in
    every state a run reaches. *)
Lemma inv_step l s s' : inv s → step l s = Some s' → inv s'.
Proof.
  intros Hinv H.
  destruct (inv_len_step _ _ _ Hinv H) as [? ?].
  destruct (inv_create_step _ _ _ Hinv H) as [? ?].
  destruct (inv_rest_step _ _ _ Hinv H) as (? & ? & ? & ? & ? & ? & ?).
  split; try done.
  - by eapply inv_q_step.
  - by eapply inv_g_step.
  - by eapply inv_worker_ok_step.
Qed.

Lemma inv_init : inv (init nodes NUM_THREADS).
Proof.
  split; simpl; try done.
  - apply length_replicate.
  - apply length_replicate.
  - intros i [= <-]. split; [lia|]. intros j pc [-> _]%lookup_replicate. split; [lia|done].
  - intros Hm. by destruct (Hm 0).
  - intros [|i]; simpl; [done|]. split; [done|].
    destruct (replicate NUM_THREADS NotCreated !! i) as [pc|] eqn:Hpc; [|done].
    by apply lookup_replicate in Hpc as [-> _].
  - intros [|i]; simpl; [done|]. split; [done|].
    destruct (replicate NUM_THREADS NotCreated !! i) as [pc|] eqn:Hpc; [|done].
    by apply lookup_replicate in Hpc as [-> _].
  - intros _. repeat split; try done. apply Forall_replicate. done.
  - intros _ i [? _]%lookup_replicate. done.
  - apply Forall_replicate. done.
Qed.

Lemma inv_run sched s s' : inv s → run nodes NUM_THREADS sched s = Some s' → inv s'.
Proof.
  revert s. induction sched as [|l sched IH]; intros s Hinv H; simpl in H.
  - by simplify_eq.
  - apply bind_Some in H as (s1 & Hs & H). eapply IH; [|done]. by eapply inv_step.
Qed.
End InvariantProofs.

(** ** The history and the graph: [inv_graph] *)

(** Adding to a wrapped value and wrapping is wrapping the sum. *)
Lemma wrap_int_add_l a b : wrap_int (wrap_int a + b) = wrap_int (a + b).
Proof.
  unfold wrap_int. f_equal.
  replace ((a + 2 ^ 31) mod 2 ^ 32 - 2 ^ 31 + b + 2 ^ 31)%Z
    with ((a + 2 ^ 31) mod 2 ^ 32 + b)%Z by lia.
  rewrite Zplus_mod_idemp_l. f_equal. lia.
Qed.

Lemma sum_weights_snoc nodes l v :
  sum_weights nodes (l ++ [v]) = (sum_weights nodes l + weight nodes v)%Z.
Proof. unfold sum_weights. induction l as [|x l IH]; simpl; [lia|]. rewrite IH. lia. Qed.

(** Replacing one element of a list replaces its share of a [bind]. *)
Lemma bind_insert_perm {A B} (f : A → list B) (l : list A) i x :
  l !! i = Some x →
  ∃ R, l ≫= f ≡ₚ f x ++ R ∧ ∀ y, <[i:=y]> l ≫= f ≡ₚ f y ++ R.
Proof.
  intros Hi. exists ((take i l ≫= f) ++ (drop (S i) l ≫= f)). split.
  - rewrite <- (take_drop_middle l i x Hi) at 1.
    rewrite bind_app, bind_cons. by rewrite Permutation_app_swap_app.
  - intros y. rewrite insert_take_drop by (by eapply lookup_lt_Some).
    rewrite bind_app, bind_cons. by rewrite Permutation_app_swap_app.
Qed.

(** Destroying tasks does not touch the lists of the history. *)
Lemma destroy_tasks_log q h :
  created (foldl (fun h t => destroy_task t h) h q) = created h ∧
  enqueued (foldl (fun h t => destroy_task t h) h q) = enqueued h ∧
  added (foldl (fun h t => destroy_task t h) h q) = added h.
Proof.
  revert h. induction q as [|t q IH]; intros h; simpl; [done|].
  destruct (IH (destroy_task t h)) as (-> & -> & ->).
  unfold destroy_task. by destruct (destroy_arg t) as [[]|].
Qed.

(** Status updates, seen from another index. *)
Lemma lookup_insert_status (vis : list visit_status) i v st st' new :
  vis !! i = Some st → st ≠ st' → new ≠ st' →
  <[i:=new]> vis !! v = Some st' ↔ vis !! v = Some st'.
Proof.
  intros Hi Hst Hnew. destruct (decide (i = v)) as [->|Hne].
  - rewrite list_lookup_insert_eq by (by eapply lookup_lt_Some). rewrite Hi.
    split; intros [=]; congruence.
  - by rewrite list_lookup_insert_ne.
Qed.

Lemma visited_at_update vis i st new v :
  vis !! i = Some st → st ≠ NOT_VISITED → new ≠ NOT_VISITED →
  visited_at (<[i:=new]> vis) v ↔ visited_at vis v.
Proof.
  intros Hi Hst Hnew. unfold visited_at.
  destruct (decide (i = v)) as [->|Hne].
  - rewrite list_lookup_insert_eq by (by eapply lookup_lt_Some). rewrite Hi. naive_solver.
  - by rewrite list_lookup_insert_ne.
Qed.

Lemma visited_at_claim vis i new v :
  vis !! i = Some NOT_VISITED → new ≠ NOT_VISITED →
  visited_at (<[i:=new]> vis) v ↔ v = i ∨ visited_at vis v.
Proof.
  intros Hi Hnew. unfold visited_at.
  destruct (decide (i = v)) as [->|Hne].
  - rewrite list_lookup_insert_eq by (by eapply lookup_lt_Some). rewrite Hi. naive_solver.
  - rewrite list_lookup_insert_ne by done. naive_solver.
Qed.

Lemma visited_at_mono vis i new v :
  new ≠ NOT_VISITED → visited_at vis v → visited_at (<[i:=new]> vis) v.
Proof.
  intros Hnew (st & Hv & Hst). unfold visited_at.
  destruct (decide (i = v)) as [->|Hne].
  - rewrite list_lookup_insert_eq by (by eapply lookup_lt_Some). eauto.
  - rewrite list_lookup_insert_ne by done. eauto.
Qed.

(** A DONE node keeps its pending neighbours covered when a worker moves. *)
Lemma closed_worker_step (nodes : list os_node_t) (vis vis' : list visit_status)
    (ws : list worker_pc) i pc pc' :
  (∀ v n j nb,
      vis !! v = Some DONE → nodes !! v = Some n → neighbours n !! j = Some nb →
      visited_at vis nb ∨ ∃ k pck, ws !! k = Some pck ∧ in_loop v j pck) →
  ws !! i = Some pc →
  (∀ v, vis' !! v = Some DONE → vis !! v = Some DONE ∨ ∀ j, in_loop v j pc') →
  (∀ nb, visited_at vis nb → visited_at vis' nb) →
  (∀ v n j nb, in_loop v j pc → nodes !! v = Some n → neighbours n !! j = Some nb →
      in_loop v j pc' ∨ visited_at vis' nb) →
  ∀ v n j nb,
      vis' !! v = Some DONE → nodes !! v = Some n → neighbours n !! j = Some nb →
      visited_at vis' nb ∨ ∃ k pck, <[i:=pc']> ws !! k = Some pck ∧ in_loop v j pck.
Proof.
  intros IH Hpc Hdone Hmono Hloop v n j nb Hv Hn Hnb.
  assert (i < length ws) by (by eapply lookup_lt_Some).
  destruct (Hdone v Hv) as [Hold|Hnew].
  - destruct (IH v n j nb Hold Hn Hnb) as [Hvis|(k & pck & Hk & Hin)]; [left; auto|].
    destruct (decide (k = i)) as [->|Hne].
    + rewrite Hpc in Hk. injection Hk as <-.
      destruct (Hloop v n j nb Hin Hn Hnb) as [Hin'|Hvis]; [|by left].
      right. exists i, pc'. by rewrite list_lookup_insert_eq.
    + right. exists k, pck. by rewrite list_lookup_insert_ne.
  - right. exists i, pc'. by rewrite list_lookup_insert_eq.
Qed.

Section GraphProofs.
Variable nodes : list os_node_t.
Variable NUM_THREADS : nat.
Local Abbreviation inv := (inv nodes NUM_THREADS).
Local Abbreviation inv_graph := (inv_graph nodes).
Local Abbreviation step := (step nodes NUM_THREADS).

(* As [inv_start], with the fields of [inv_graph] too. *)
Ltac inv_start2 Hinv Hg H :=
  inv_start Hinv H;
  destruct Hg as [ig_added_nodup ig_added ig_sum ig_created_nodup ig_created ig_enqueued
                  ig_closed ig_reach ig_start];
  simpl in *.

(** Each group of fields of [inv_graph] is preserved by every statement. *)
Lemma ig_added_step l s s' :
  inv s → inv_graph s → step l s = Some s' →
  NoDup (added (log (mem s'))) ∧
  (∀ v, v ∈ added (log (mem s')) ↔ visited (mem s') !! v = Some DONE) ∧
  sum (mem s') = wrap_int (sum_weights nodes (added (log (mem s')))).
Proof.
  intros Hinv Hg H. inv_start2 Hinv Hg H.
  all: try done.
  - specialize (inv_before_claim eq_refl) as (-> & _ & _ & _ & Ha). rewrite Ha in *.
    apply lookup_replicate in Heqo0 as [-> ?].
    repeat split; [done|..|done]; intros Hv; [by apply elem_of_nil in Hv|].
    destruct (decide (0 = v)) as [<-|Hne].
    + rewrite list_lookup_insert_eq in Hv by (rewrite length_replicate; lia). done.
    + rewrite list_lookup_insert_ne in Hv by done. by apply lookup_replicate in Hv as [? _].
  - by destruct (destroy_tasks_log (head p) lg) as (_ & _ & ->).
  - unfold task_idx in *. repeat split.
    + apply NoDup_app. split; [done|]. split; [|apply NoDup_singleton].
      intros v Hv ->%list_elem_of_singleton. apply ig_added in Hv. congruence.
    + intros [Hv| ->%list_elem_of_singleton]%elem_of_app.
      * apply ig_added in Hv. rewrite list_lookup_insert_ne; [done|]. intros <-. congruence.
      * apply list_lookup_insert_eq. by eapply lookup_lt_Some.
    + intros Hv. apply elem_of_app. destruct (decide (idx (argument t) = v)) as [<-|Hne].
      * right. by apply list_elem_of_singleton.
      * left. apply ig_added. by rewrite list_lookup_insert_ne in Hv.
    + rewrite ig_sum, wrap_int_add_l, sum_weights_snoc. unfold weight. by rewrite Heqo1.
  - destruct Hw as (_ & n & nb & ? & ? & Hnv). simplify_eq.
    split; [done|]. split; [|done]. intros v. rewrite ig_added. symmetry.
    by apply (lookup_insert_status _ _ _ NOT_VISITED).
Qed.

Lemma ig_created_step l s s' :
  inv s → inv_graph s → step l s = Some s' →
  NoDup (task_idx <$> created (log (mem s'))) ∧
  (∀ v, v ∈ task_idx <$> created (log (mem s')) ↔ visited_at (visited (mem s')) v) ∧
  created (log (mem s')) ≡ₚ enqueued (log (mem s')) ++ held_new s'.
Proof.
  intros Hinv Hg H. inv_start2 Hinv Hg H.
  all: unfold held_new in *; simpl in *.
  all: try match goal with
       | Hpc : ?ws !! ?i = Some ?pc |- _ =>
           let R := fresh "R" in let HR := fresh "HR" in let HR' := fresh "HR'" in
           destruct (bind_insert_perm new_task ws i _ Hpc) as (R & HR & HR');
           simpl in HR; rewrite HR in ig_enqueued; rewrite HR'; simpl; clear HR HR'
       end.
  all: try done.
  - split; [done|]. split; [done|]. rewrite ig_enqueued. f_equiv.
    destruct (ws !! i) as [pc|] eqn:Hpc.
    + destruct (bind_insert_perm new_task ws i _ Hpc) as (R & HR & HR').
      rewrite HR, HR'. destruct (inv_create _ eq_refl) as [_ Hnc].
      apply Hnc in Hpc as [_ Hpc]. by rewrite Hpc.
    + rewrite list_insert_ge; [done|]. by apply lookup_ge_None.
  - specialize (inv_before_claim eq_refl) as (Hvis & _ & Hc & He & _).
    rewrite Hc, He in *. subst vis. apply lookup_replicate in Heqo0 as [-> ?].
    simpl in *. apply Permutation_nil_l in ig_enqueued as <-.
    split; [apply NoDup_singleton|]. split; [|done].
    intros v. rewrite list_elem_of_singleton.
    rewrite visited_at_claim; [|by apply lookup_replicate|done].
    rewrite <- ig_created. simpl. rewrite elem_of_nil. naive_solver.
  - split; [done|]. split; [done|]. rewrite ig_enqueued. by rewrite <- (assoc_L (++)).
  - destruct (destroy_tasks_log (head p) lg) as (-> & -> & _). done.
  - split; [done|]. split; [|done]. intros v. rewrite ig_created.
    symmetry. by eapply visited_at_update.
  - destruct Hw as (_ & n & nb & ? & ? & Hnv). simplify_eq.
    rewrite fmap_app. simpl. unfold task_idx at 2 4. simpl. split; [|split].
    + apply NoDup_app. split; [done|]. split; [|apply NoDup_singleton].
      intros v Hv ->%list_elem_of_singleton. apply ig_created in Hv as (st & Hst & ?).
      simpl in Hst. congruence.
    + intros v. rewrite elem_of_app, list_elem_of_singleton, ig_created.
      rewrite visited_at_claim; [|done..]. naive_solver.
    + rewrite ig_enqueued. rewrite <- !(assoc_L (++)). do 2 f_equiv.
      symmetry. apply Permutation_cons_append.
  - split; [done|]. split; [done|]. rewrite ig_enqueued. rewrite <- !(assoc_L (++)). f_equiv.
    by rewrite (Permutation_app_swap_app [_]).
Qed.

Lemma ig_reach_step l s s' :
  inv s → inv_graph s → step l s = Some s' →
  (∀ v, visited_at (visited (mem s')) v → reachable nodes 0 v) ∧
  (before_claim (main s') = false → visited_at (visited (mem s')) 0).
Proof.
  intros Hinv Hg H. inv_start2 Hinv Hg H.
  all: try done.
  - specialize (inv_before_claim eq_refl) as (-> & _).
    apply lookup_replicate in Heqo0 as [-> ?]. split.
    + intros v [->|Hv]%visited_at_claim; [apply rtc_refl|by apply ig_reach| |done].
      by apply lookup_replicate.
    + intros _. apply visited_at_claim; [by apply lookup_replicate|done|by left].
  - split.
    + intros v Hv. apply ig_reach. eapply visited_at_update; [exact Hw|done| |exact Hv]; done.
    + intros Hm. apply visited_at_mono; [done|by apply ig_start].
  - destruct Hw as (Hd & n & nb & ? & ? & Hnv). simplify_eq. split.
    + intros v [->|Hv]%visited_at_claim; [|by apply ig_reach|done..].
      eapply rtc_r; [apply ig_reach; by eexists|].
      eexists. split; [eassumption|]. by eapply list_elem_of_lookup_2.
    + intros Hm. apply visited_at_mono; [done|by apply ig_start].
Qed.

Lemma ig_closed_step l s s' :
  inv s → inv_graph s → step l s = Some s' →
  ∀ v n j nb,
      visited (mem s') !! v = Some DONE → nodes !! v = Some n → neighbours n !! j = Some nb →
      visited_at (visited (mem s')) nb ∨ ∃ k pc, workers s' !! k = Some pc ∧ in_loop v j pc.
Proof.
  intros Hinv Hg H. inv_start2 Hinv Hg H.
  all: try done.
  all: try (eapply closed_worker_step; [exact ig_closed|exact Hpc|..]; simpl;
            [ intros ? ?; by left | by intros | intros ? ? ? ? ? ? ?; first [done|by left] ]).
  - intros v n j nb Hv Hn Hnb.
    destruct (ig_closed v n j nb Hv Hn Hnb) as [?|(k & pck & Hk & Hin)]; [by left|].
    right. exists k, pck. split; [|done]. rewrite list_lookup_insert_ne; [done|].
    intros <-. destruct (inv_create _ eq_refl) as [_ Hnc].
    apply Hnc in Hk as [_ Hk]. rewrite Hk in Hin by done. done.
  - specialize (inv_before_claim eq_refl) as (-> & _).
    intros v n j nb Hv. exfalso. destruct (decide (0 = v)) as [<-|Hne].
    + rewrite list_lookup_insert_eq in Hv; [done|]. by eapply lookup_lt_Some.
    + rewrite list_lookup_insert_ne in Hv by done. by apply lookup_replicate in Hv as [? _].
  - eapply closed_worker_step; [exact ig_closed|exact Hpc|..]; simpl.
    + intros v Hv. destruct (decide (idx (argument t) = v)) as [<-|Hne].
      * right. intros j. unfold task_idx. split; [done|lia].
      * left. by rewrite list_lookup_insert_ne in Hv.
    + intros nb. by apply visited_at_mono.
    + done.
  - eapply closed_worker_step; [exact ig_closed|exact Hpc|..]; simpl.
    + intros ? ?; by left.
    + by intros.
    + unfold task_idx. intros v n0 j nb [<- Hj] Hn Hnb. simplify_eq.
      destruct (decide (j = i0)) as [->|Hne]; [|left; split; [done|lia]].
      right. simplify_eq. by eexists.
  - eapply closed_worker_step; [exact ig_closed|exact Hpc|..]; simpl.
    + intros ? ?; by left.
    + by intros.
    + unfold task_idx. intros v n0 j nb [<- Hj] Hn Hnb. simplify_eq.
      apply lookup_ge_None in H0. apply lookup_lt_Some in Hnb. lia.
  - destruct Hw as (Hd & n & nb & ? & ? & Hnv). simplify_eq.
    eapply closed_worker_step; [exact ig_closed|exact Hpc|..]; simpl.
    + intros v Hv. left. by rewrite (lookup_insert_status _ _ _ NOT_VISITED DONE PROCESSING) in Hv.
    + intros nb'. by apply visited_at_mono.
    + unfold task_idx. intros v n0 j nb' [<- Hj] Hn Hnb. simplify_eq.
      destruct (decide (j = i0)) as [->|Hne]; [|left; split; [done|lia]].
      right. simplify_eq. apply visited_at_claim; [done|done|by left].
Qed.

(** [inv_graph] holds in every state a run reaches. *)
Lemma inv_graph_step l s s' :
  inv s → inv_graph s → step l s = Some s' → inv_graph s'.
Proof.
  intros Hinv Hg H.
  destruct (ig_added_step _ _ _ Hinv Hg H) as (? & ? & ?).
  destruct (ig_created_step _ _ _ Hinv Hg H) as (? & ? & ?).
  destruct (ig_reach_step _ _ _ Hinv Hg H) as (? & ?).
  split; try done. by eapply ig_closed_step.
Qed.

Lemma inv_graph_init : inv_graph (init nodes NUM_THREADS).
Proof.
  split; simpl; try done.
  - apply NoDup_nil_2.
  - intros v. split; [by intros ?%elem_of_nil|]. by intros [? _]%lookup_replicate.
  - apply NoDup_nil_2.
  - intros v. split; [by intros ?%elem_of_nil|]. intros (st & [-> _]%lookup_replicate & ?). done.
  - unfold held_new. simpl. induction NUM_THREADS; simpl; [done|]. done.
  - intros v n j nb [? _]%lookup_replicate. done.
  - intros v (st & [-> _]%lookup_replicate & ?). done.
Qed.

Lemma inv_graph_run sched s s' :
  inv s → inv_graph s → run nodes NUM_THREADS sched s = Some s' → inv_graph s'.
Proof.
  revert s. induction sched as [|l sched IH]; intros s Hinv Hg H; simpl in H.
  - by simplify_eq.
  - apply bind_Some in H as (s1 & Hs & H).
    eapply IH; [by eapply inv_step|by eapply inv_graph_step|done].
Qed.
End GraphProofs.

(** ** Task ownership: [inv_alive] *)

(** Destroying [q] calls the destructor and [free] once per task. *)
Lemma destroy_tasks_count q h :
  Forall (fun t => destroy_arg t = Some free_fn) q →
  args_destroyed (foldl (fun h t => destroy_task t h) h q) = args_destroyed h + length q ∧
  tasks_freed (foldl (fun h t => destroy_task t h) h q) = tasks_freed h + length q.
Proof.
  revert h. induction q as [|t q IH]; intros h Hq; simpl; [lia|].
  apply Forall_cons in Hq as [Ht Hq]. destruct (IH (destroy_task t h) Hq) as [-> ->].
  unfold destroy_task. rewrite Ht. simpl. lia.
Qed.

Lemma bind_insert_nil {A B} (f : A → list B) (l : list A) i y :
  (∀ x, l !! i = Some x → f x = []) → f y = [] → <[i:=y]> l ≫= f ≡ₚ l ≫= f.
Proof.
  intros Hx Hy. destruct (l !! i) as [x|] eqn:Hi.
  - destruct (bind_insert_perm f l i x Hi) as (R & HR & HR').
    by rewrite HR, HR', Hy, (Hx x).
  - rewrite list_insert_ge; [done|]. by apply lookup_ge_None.
Qed.

(* Splits [Forall] over appends and conses, in hypotheses and goal. *)
Ltac forall_split :=
  repeat match goal with
  | H : Forall _ (_ ++ _) |- _ => apply Forall_app in H as [? ?]
  | H : Forall _ (_ :: _) |- _ => apply Forall_cons in H as [? ?]
  | H : Forall _ [] |- _ => clear H
  | |- Forall _ (_ ++ _) => apply Forall_app; split
  | |- Forall _ (_ :: _) => apply Forall_cons; split
  | |- Forall _ [] => apply Forall_nil_2
  end.

Section AliveProofs.
Variable nodes : list os_node_t.
Variable NUM_THREADS : nat.
Local Abbreviation inv := (inv nodes NUM_THREADS).
Local Abbreviation inv_alive := (inv_alive nodes).
Local Abbreviation step := (step nodes NUM_THREADS).

(** [inv_alive] holds in every state a run reaches. *)
Lemma inv_alive_step l s s' :
  inv s → inv_alive s → step l s = Some s' → inv_alive s'.
Proof.
  intros Hinv Ha H. inv_start Hinv H;
    destruct Ha as [ia_count ia_freed ia_tasks ia_drained ia_output]; split; unfold alive in *; simpl in *.
  all: try match goal with
       | Hpc : ?ws !! ?i = Some ?pc |- _ =>
           let R := fresh "R" in let HR := fresh "HR" in let HR' := fresh "HR'" in
           destruct (bind_insert_perm alive_task ws i _ Hpc) as (R & HR & HR');
           simpl in HR; rewrite HR in *; rewrite ?HR'; simpl; clear HR HR'
       end.
  all: try match goal with Hh : head ?p = _ :: _ |- _ => rewrite Hh in * end.
  all: try done.
  all: try (intros [?|?]; done).
  all: try unfold list_add_tail in *.
  all: try (rewrite ?length_app in *; simpl in *; lia).
  all: try (apply Forall_forall; intros x Hx; apply (proj1 (Forall_forall _ _) ia_tasks);
            clear -Hx; set_solver).
  all: try (intros Hm; exfalso;
            assert (Haj : after_join m = true) by (by destruct Hm as [->| ->]);
            specialize (inv_after_join Haj);
            by pose proof (proj1 (Forall_lookup _ _) inv_after_join _ _ Hpc)).
  all: try (intros Hm; exfalso;
            assert (Haj : after_join m = true) by (by rewrite Hm);
            specialize (inv_after_join Haj);
            by pose proof (proj1 (Forall_lookup _ _) inv_after_join _ _ Hpc)).
  - rewrite bind_insert_nil; [done| |done].
    intros pc Hpc. destruct (inv_create _ eq_refl) as [_ Hnc]. by apply Hnc in Hpc as [_ ->].
  - rewrite bind_insert_nil; [done| |done].
    intros pc Hpc. destruct (inv_create _ eq_refl) as [_ Hnc]. by apply Hnc in Hpc as [_ ->].
  - apply lookup_lt_Some in Heqo0. forall_split; try done.
    unfold task_idx. simpl. split; [done|lia].
  - forall_split.
    destruct (destroy_tasks_log (head p) lg) as (-> & _ & _).
    destruct (destroy_tasks_count (head p) lg) as (-> & _).
    { eapply Forall_impl; [eassumption|]. by intros ? [? _]. }
    rewrite length_app in ia_count. lia.
  - forall_split.
    destruct (destroy_tasks_count (head p) lg) as (-> & ->).
    { eapply Forall_impl; [eassumption|]. by intros ? [? _]. }
    lia.
  - intros _. apply ia_drained. by left.
  - apply lookup_lt_Some in Heqo3. rewrite inv_visited in Heqo3.
    forall_split; try done.
  - forall_split. simpl in *. destruct_and!. rewrite ?length_app in *. simpl in *.
    destruct (destroy_arg t) as [[]|]; [simpl; lia|congruence].
  - forall_split. simpl in *. destruct_and!.
    destruct (destroy_arg t) as [[]|]; [simpl; lia|congruence].
Qed.

Lemma inv_alive_init : inv_alive (init nodes NUM_THREADS).
Proof.
  assert (Hnil : replicate NUM_THREADS NotCreated ≫= alive_task = []).
  { induction NUM_THREADS; simpl; [done|]. done. }
  split; unfold alive; simpl; rewrite ?Hnil; try done.
Qed.

Lemma inv_alive_run sched s s' :
  inv s → inv_alive s → run nodes NUM_THREADS sched s = Some s' → inv_alive s'.
Proof.
  revert s. induction sched as [|l sched IH]; intros s Hinv Hg H; simpl in H.
  - by simplify_eq.
  - apply bind_Some in H as (s1 & Hs & H).
    eapply IH; [by eapply inv_step|by eapply inv_alive_step|done].
Qed.
End AliveProofs.

(** ** Pending tasks: [inv_pending] *)

(** [pend_ok] does not depend on the order of the tasks. *)
Global Instance pend_ok_proper vis : Proper ((≡ₚ) ==> iff) (pend_ok vis).
Proof.
  intros l1 l2 Hl. unfold pend_ok. rewrite Hl. split; intros [? Hv]; (split; [done|]);
    intros v; [rewrite <- Hl|rewrite Hl]; apply Hv.
Qed.

(** A task leaves the pending tasks when its node becomes DONE, and joins
    them when its node is claimed. *)
Lemma pend_ok_remove vis t l :
  pend_ok vis (t :: l) → pend_ok (<[task_idx t:=DONE]> vis) l.
Proof.
  intros [Hnd Hv]. rewrite fmap_cons in Hnd, Hv. apply NoDup_cons in Hnd as [Hnot Hnd].
  split; [done|]. intros v. destruct (decide (task_idx t = v)) as [<-|Hne].
  - assert (vis !! task_idx t = Some PROCESSING) as Ht by (apply Hv; left).
    rewrite list_lookup_insert_eq by (by eapply lookup_lt_Some). split; [done|congruence].
  - rewrite list_lookup_insert_ne by done. rewrite <- Hv. set_solver.
Qed.

Lemma pend_ok_add vis t l :
  vis !! task_idx t = Some NOT_VISITED →
  pend_ok vis l → pend_ok (<[task_idx t:=PROCESSING]> vis) (t :: l).
Proof.
  intros Ht [Hnd Hv]. unfold pend_ok. rewrite fmap_cons. split.
  - apply NoDup_cons. split; [|done]. intros Hin%Hv. congruence.
  - intros v. destruct (decide (task_idx t = v)) as [<-|Hne].
    + rewrite list_lookup_insert_eq by (by eapply lookup_lt_Some). split; [done|left].
    + rewrite list_lookup_insert_ne by done. rewrite <- Hv. set_solver.
Qed.

Lemma pend_ok_head vis t l : pend_ok vis (t :: l) → vis !! task_idx t = Some PROCESSING.
Proof. intros [_ Hv]. apply Hv. rewrite fmap_cons. left. Qed.

Lemma idle_pend_nil ws :
  Forall (fun pc => idle pc = true) ws → ws ≫= pend_task = [].
Proof.
  induction 1 as [|pc ws Hpc _ IH]; [done|]. rewrite bind_cons, IH.
  by destruct pc as [|[| | | | |?]|? [| | |?|?|? ? [| |]|]|?|].
Qed.

Lemma perm_mid3 {A} (l1 l2 l3 : list A) x : l1 ++ l2 ++ x :: l3 ≡ₚ x :: l1 ++ l2 ++ l3.
Proof.
  induction l1 as [|y l1 IH]; simpl.
  - symmetry. apply Permutation_middle.
  - rewrite IH. apply perm_swap.
Qed.

Lemma perm_snoc3 {A} (l1 l2 l3 : list A) x : (l1 ++ [x]) ++ l2 ++ l3 ≡ₚ x :: l1 ++ l2 ++ l3.
Proof. rewrite <- (assoc_L (++)). simpl. symmetry. apply Permutation_middle. Qed.

Section PendingProofs.
Variable nodes : list os_node_t.
Variable NUM_THREADS : nat.
Hypothesis NUM_THREADS_pos : 0 < NUM_THREADS.
Local Abbreviation inv := (inv nodes NUM_THREADS).
Local Abbreviation step := (step nodes NUM_THREADS).

(** [inv_pending] holds in every state a run reaches, provided there is a
    worker. *)
Lemma ip_live_step l s s' :
  inv s → inv_pending s → step l s = Some s' →
  head (tp (mem s')) ≠ [] → ∃ k pc, workers s' !! k = Some pc ∧ active pc = true.
Proof.
  intros Hinv Hp H. inv_start Hinv H; destruct Hp as [ip_live _]; simpl in *.
  all: try done.
  all: try (intros Hh; specialize (ip_live Hh)).
  all: try (by (exists i; eexists; split; [apply list_lookup_insert_eq; by eapply lookup_lt_Some|])).
  - by destruct (inv_before_seed eq_refl) as (_ & ? & _).
  - intros _. destruct (inv_before_seed eq_refl) as (_ & _ & Hidle).
    destruct (lookup_lt_is_Some_2 ws 0) as [pc Hpc]; [lia|].
    exists 0, pc. split; [done|].
    pose proof (proj1 (Forall_lookup _ _) Hidle _ _ Hpc) as Hi.
    assert (Hc : ∀ i, MainSeed (SeedEnq t EnqAdd) ≠ MainCreate i) by done.
    pose proof (proj1 (Forall_lookup _ _) (inv_created Hc) _ _ Hpc) as Hn.
    by destruct pc as [|[| | | | |?]|? [| | |?|?|? ? [| |]|]|?|].
  - by apply queue_is_empty_true in H.
  - destruct ip_live as (k & pc & Hk & Hact). exists k, pc. split; [|done].
    rewrite list_lookup_insert_ne; [done|]. intros <-. rewrite Hpc in Hk. by simplify_eq.
Qed.

Lemma ip_pending_step l s s' :
  inv s → inv_pending s → step l s = Some s' →
  pend_ok (visited (mem s')) (pending s').
Proof.
  intros Hinv Hp H. inv_start Hinv H; destruct Hp as [ip_live ip_pending];
    unfold pending in *; simpl in *.
  all: try match goal with
       | Hpc : ?ws !! ?i = Some ?pc |- context [<[?i:=_]> ?ws ≫= pend_task] =>
           let R := fresh "R" in let HR := fresh "HR" in let HR' := fresh "HR'" in
           destruct (bind_insert_perm pend_task ws i _ Hpc) as (R & HR & HR');
           simpl in HR; rewrite HR in ip_pending; rewrite ?HR'; simpl; clear HR HR'
       end.
  all: try match goal with Hh : head ?p = _ :: _ |- _ => rewrite Hh in * end.
  all: try unfold list_add_tail.
  all: try done.
  - rewrite bind_insert_nil; [done| |done].
    intros pc Hpc. destruct (inv_create _ eq_refl) as [_ Hnc]. by apply Hnc in Hpc as [_ ->].
  - destruct (inv_before_seed eq_refl) as (_ & Hh & Hidle%idle_pend_nil).
    destruct (inv_before_claim eq_refl) as (Hvis & _).
    rewrite Hh, Hidle in *. simpl in *. subst vis.
    apply lookup_replicate in Heqo0 as [-> ?].
    apply (pend_ok_add _ (create_task execute_fn {| idx := 0 |} (Some free_fn)) []); [|done].
    by apply lookup_replicate.
  - by rewrite <- (assoc_L (++)).
  - destruct (head p) as [|t q] eqn:Hh; [done|]. exfalso.
    destruct ip_live as (k & pc & Hk & Hact); [done|].
    specialize (inv_after_join eq_refl).
    by rewrite (proj1 (Forall_lookup _ _) inv_after_join _ _ Hk) in Hact.
  - rewrite perm_mid3. by rewrite <- app_comm_cons in ip_pending.
  - exfalso. rewrite perm_mid3 in ip_pending. apply pend_ok_head in ip_pending.
    unfold task_idx in *. congruence.
  - rewrite perm_mid3 in ip_pending. by apply pend_ok_remove in ip_pending.
  - destruct Hw as (_ & n & nb & ? & ? & Hnv). simplify_eq.
    rewrite perm_mid3.
    by apply (pend_ok_add _ (create_task execute_fn {| idx := _ |} (Some free_fn))).
  - rewrite perm_snoc3. by rewrite perm_mid3 in ip_pending.
Qed.

Lemma inv_pending_step l s s' :
  inv s → inv_pending s → step l s = Some s' → inv_pending s'.
Proof.
  intros Hinv Hp H. split; [by eapply ip_live_step|by eapply ip_pending_step].
Qed.

Lemma inv_pending_init : inv_pending (init nodes NUM_THREADS).
Proof.
  split; simpl; [done|]. unfold pending. simpl.
  rewrite idle_pend_nil by (by apply Forall_replicate).
  split; simpl; [apply NoDup_nil_2|]. intros v. split; [by intros ?%elem_of_nil|].
  by intros [? _]%lookup_replicate.
Qed.

Lemma inv_pending_run sched s s' :
  inv s → inv_pending s → run nodes NUM_THREADS sched s = Some s' → inv_pending s'.
Proof.
  revert s. induction sched as [|l sched IH]; intros s Hinv Hg H; simpl in H.
  - by simplify_eq.
  - apply bind_Some in H as (s1 & Hs & H).
    eapply IH; [by eapply inv_step|by eapply inv_pending_step|done].
Qed.
End PendingProofs.

(** ** Every statement uses up the budget [measure] *)

(** Sums of costs under the update of one program counter. *)
Lemma sum_list_insert {A} (f : A → nat) (l : list A) i x y :
  l !! i = Some x →
  sum_list (f <$> <[i:=y]> l) + f x = sum_list (f <$> l) + f y.
Proof.
  revert i. induction l as [|z l IH]; intros [|i] Hi; simplify_eq/=; [lia|].
  specialize (IH i Hi). lia.
Qed.

Lemma sum_list_insert_le {A} (f : A → nat) (l : list A) i y :
  sum_list (f <$> <[i:=y]> l) ≤ sum_list (f <$> l) + f y.
Proof.
  destruct (l !! i) as [x|] eqn:Hi.
  - pose proof (sum_list_insert f l i x y Hi). lia.
  - rewrite list_insert_ge by (by apply lookup_ge_None). lia.
Qed.

(** A submitted task makes no worker more expensive. *)
Lemma worker_cost_mono D n pc : worker_cost D (S n) pc ≤ worker_cost D n pc.
Proof.
  destruct pc as [|[| | | | |[?|]]|? [| | |?|?|? ? [| |]|]|?|]; simpl; repeat case_decide; lia.
Qed.

Lemma worker_cost_sum_mono D n ws :
  sum_list (worker_cost D (S n) <$> ws) ≤ sum_list (worker_cost D n <$> ws).
Proof.
  induction ws as [|pc ws IH]; [simpl; lia|]. rewrite !fmap_cons. simpl sum_list.
  pose proof (worker_cost_mono D n pc). lia.
Qed.

(** Claiming a node takes one off the NOT_VISITED nodes; no other status
    update adds to them. *)
Lemma count_unvisited_claim vis i st :
  vis !! i = Some NOT_VISITED → st ≠ NOT_VISITED →
  S (count_unvisited (<[i:=st]> vis)) = count_unvisited vis.
Proof.
  unfold count_unvisited. revert i.
  induction vis as [|x vis IH]; intros [|i] Hi Hst; simplify_eq/=.
  - rewrite !filter_cons. repeat case_decide; simpl; done.
  - specialize (IH i Hi Hst). rewrite !filter_cons. repeat case_decide; simpl; lia.
Qed.

Lemma count_unvisited_le vis i st :
  st ≠ NOT_VISITED → count_unvisited (<[i:=st]> vis) ≤ count_unvisited vis.
Proof.
  unfold count_unvisited. revert i.
  induction vis as [|x vis IH]; intros [|i] Hst; simpl; [lia|lia|..].
  - rewrite !filter_cons. repeat case_decide; simpl; (done || lia).
  - specialize (IH i Hst). rewrite !filter_cons. repeat case_decide; simpl; lia.
Qed.

(** A neighbour index is below the largest degree. *)
Lemma degree_bound nodes v n i nb :
  nodes !! v = Some n → neighbours n !! i = Some nb → i < max_degree nodes.
Proof.
  intros Hn Hi. apply lookup_lt_Some in Hi.
  assert (num_neighbours n ≤ max_degree nodes); [|unfold num_neighbours in *; lia].
  apply max_list_elem_of_le. apply list_elem_of_fmap. exists n. split; [done|].
  by eapply list_elem_of_lookup_2.
Qed.

Section MeasureProofs.
Variable nodes : list os_node_t.
Variable NUM_THREADS : nat.
Local Abbreviation inv := (inv nodes NUM_THREADS).
Local Abbreviation step := (step nodes NUM_THREADS).
Local Abbreviation measure := (measure nodes NUM_THREADS).

(* Evaluates the costs and the record updates, and nothing else. *)
Ltac cost_simpl :=
  cbn [main mem workers output tp visited sum graph_mutex log head tasks_added mutex cond
       set_tp set_visited set_sum set_graph_mutex set_log set_head set_tasks_added
       set_mutex set_cond enqueue_locked list_add_tail destroy_threadpool
       main_cost worker_cost exec_cost enq_cost length] in *.

(** Every statement executed makes [measure] smaller, so a run is no longer
    than the measure of the state it starts from. *)
Lemma measure_step l s s' : inv s → step l s = Some s' → measure s' < measure s.
Proof.
  intros Hinv H. inv_start Hinv H; unfold measure; cost_simpl.
  all: set (D := max_degree nodes).
  all: try match goal with
       | Hpc : ?ws !! ?i = Some ?pc |- context [worker_cost ?D ?ta <$> <[?i:=?pc']> ?ws] =>
           pose proof (sum_list_insert (worker_cost D ta) ws i pc pc' Hpc) as Hs; cost_simpl
       end.
  all: try match goal with
       | |- context [worker_cost ?D (tasks_added ?p) <$> ?ws] =>
           pose proof (worker_cost_sum_mono D (tasks_added p) ws)
       end.
  all: try match goal with Hh : head ?p = _ :: _ |- _ => rewrite Hh in * end.
  all: unfold list_add_tail, task_cost in *; rewrite ?length_app; cost_simpl.
  all: try match goal with
       | Hn : nodes !! _ = Some ?n, Hi : neighbours ?n !! _ = Some _ |- _ =>
           pose proof (degree_bound _ _ _ _ _ Hn Hi)
       end.
  all: try match goal with
       | Hm : dequeue_must_wait _ = true |- _ => apply dequeue_must_wait_true in Hm as [? ?]
       end.
  all: try (repeat case_decide; lia).
  - pose proof (sum_list_insert_le (worker_cost D (tasks_added p)) ws i (LoopDeq DeqLock)).
    cost_simpl. repeat case_decide; lia.
  - destruct (inv_before_claim eq_refl) as (-> & _).
    pose proof (count_unvisited_claim (replicate (length nodes) NOT_VISITED) 0 PROCESSING) as Hc.
    apply lookup_replicate in Heqo0 as [-> ?].
    rewrite <- Hc; [lia|by apply lookup_replicate|done].
  - destruct (decide (tasks_added p = 0)) as [Hta|Hta]; [|lia].
    exfalso. apply H2. by eapply inv_waiting.
  - pose proof (count_unvisited_le vis (idx (argument t)) DONE ltac:(done)) as Hc.
    apply (Nat.mul_le_mono_l _ _ (16 + 5 * D)) in Hc. lia.
  - destruct Hw as (_ & n & nb & ? & ? & Hnv).
    pose proof (count_unvisited_claim vis nb PROCESSING Hnv ltac:(done)) as Hc.
    simplify_eq. rewrite <- Hc. subst D. lia.
Qed.

Lemma measure_run sched s s' :
  inv s → run nodes NUM_THREADS sched s = Some s' → measure s' + length sched ≤ measure s.
Proof.
  revert s. induction sched as [|l sched IH]; intros s Hinv H; simpl in H.
  - simplify_eq. simpl. lia.
  - apply bind_Some in H as (s1 & Hs & H).
    pose proof (measure_step _ _ _ Hinv Hs).
    pose proof (IH s1 (inv_step _ _ _ _ _ Hinv Hs) H). simpl. lia.
Qed.
End MeasureProofs.

(** ** The state after the joins *)

Lemma bind_nil_all {A B} (f : A → list B) (l : list A) :
  Forall (fun x => f x = []) l → l ≫= f = [].
Proof. induction 1 as [|x l Hx _ IH]; [done|]. by rewrite bind_cons, Hx, IH. Qed.

Lemma alive_lookup s i pc t : workers s !! i = Some pc → t ∈ alive_task pc → t ∈ alive s.
Proof.
  intros Hpc Ht. unfold alive. rewrite !elem_of_app. right; right.
  apply list_elem_of_bind. exists pc. split; [done|]. by eapply list_elem_of_lookup_2.
Qed.

Section FinalState.
Variable nodes : list os_node_t.
Variable NUM_THREADS : nat.
Local Abbreviation inv := (inv nodes NUM_THREADS).
Local Abbreviation step := (step nodes NUM_THREADS).
Local Abbreviation run := (run nodes NUM_THREADS).
Local Abbreviation init := (init nodes NUM_THREADS).

(** After the joins the queue is empty, no node is PROCESSING, and the DONE
    nodes are the nodes reachable from node 0. *)
Lemma final_queue_empty s :
  inv s → inv_pending s → after_join (main s) = true → head (tp (mem s)) = [].
Proof.
  intros Hinv Hp Hm. destruct (head (tp (mem s))) as [|t q] eqn:Hh; [done|].
  destruct (ip_live _ Hp) as (k & pc & Hpc & Hact); [by rewrite Hh|].
  pose proof (Forall_lookup_1 _ _ _ _ (inv_after_join _ _ _ Hinv Hm) Hpc) as ->. done.
Qed.

Lemma final_no_processing s v :
  inv s → inv_pending s → after_join (main s) = true →
  visited (mem s) !! v ≠ Some PROCESSING.
Proof.
  intros Hinv Hp Hm Hv.
  destruct (ip_pending _ Hp) as [_ Hpend]. apply Hpend in Hv.
  unfold pending in Hv. rewrite (final_queue_empty _ Hinv Hp Hm) in Hv.
  rewrite (bind_nil_all pend_task (workers s)) in Hv.
  - destruct (main s) as [?|[]|[]| | |]; simpl in *; try done; by apply elem_of_nil in Hv.
  - eapply Forall_impl; [exact (inv_after_join _ _ _ Hinv Hm)|]. by intros ? ->.
Qed.

Lemma final_done s v :
  inv s → inv_graph nodes s → inv_pending s → after_join (main s) = true →
  visited (mem s) !! v = Some DONE ↔ reachable nodes 0 v.
Proof.
  intros Hinv Hg Hp Hm.
  assert (Hat : ∀ u, visited_at (visited (mem s)) u → visited (mem s) !! u = Some DONE).
  { intros u (st & Hu & Hst). pose proof (final_no_processing s u Hinv Hp Hm).
    destruct st; congruence. }
  split.
  - intros Hv. apply (ig_reach _ _ Hg). by exists DONE.
  - revert v. unfold reachable. apply rtc_ind_r; [|intros u w Hr (n & Hn & Hw) IH].
    + apply Hat, (ig_start _ _ Hg). by destruct (main s) as [?|[]|[]| | |].
    + apply list_elem_of_lookup_1 in Hw as [j Hj].
      destruct (ig_closed _ _ Hg u n j w IH Hn Hj) as [?|(k & pc & Hpc & Hin)]; [by apply Hat|].
      pose proof (Forall_lookup_1 _ _ _ _ (inv_after_join _ _ _ Hinv Hm) Hpc) as ->. done.
Qed.

(** After the joins [sum] is the wrapped sum over the reachable nodes. *)
Lemma final_sum s :
  inv s → inv_graph nodes s → inv_pending s → after_join (main s) = true →
  NoDup (added (log (mem s))) ∧
  (∀ v, v ∈ added (log (mem s)) ↔ reachable nodes 0 v) ∧
  sum (mem s) = wrap_int (sum_weights nodes (added (log (mem s)))).
Proof.
  intros Hinv Hg Hp Hm. split; [apply Hg|]. split; [|apply Hg].
  intros v. rewrite (ig_added _ _ Hg). by apply final_done.
Qed.

(** The invariants hold in every state a run from [init] reaches. *)
Lemma reach_inv sched s :
  run sched init = Some s → inv s ∧ inv_graph nodes s ∧ inv_alive nodes s.
Proof.
  intros H. pose proof (inv_init nodes NUM_THREADS) as Hi. split; [|split].
  - by eapply inv_run.
  - eapply inv_graph_run; [exact Hi|apply inv_graph_init|done].
  - eapply inv_alive_run; [exact Hi|apply inv_alive_init|done].
Qed.

Lemma reach_inv_pending sched s :
  0 < NUM_THREADS → run sched init = Some s → inv_pending s.
Proof.
  intros Hn H. eapply inv_pending_run; [done|apply inv_init|by apply inv_pending_init|done].
Qed.
End FinalState.

(** ** Some thread can always run *)

(** In a well-formed graph a neighbour is a node. *)
Lemma graph_wf_lookup nodes v n j nb :
  graph_wf nodes → nodes !! v = Some n → neighbours n !! j = Some nb → nb < length nodes.
Proof.
  intros Hwf Hn Hj.
  exact (Forall_lookup_1 _ _ _ _ (Forall_lookup_1 _ _ _ _ Hwf Hn) Hj).
Qed.

Section Progress.
Variable nodes : list os_node_t.
Variable NUM_THREADS : nat.
Local Abbreviation inv := (inv nodes NUM_THREADS).
Local Abbreviation step := (step nodes NUM_THREADS).
Local Abbreviation run := (run nodes NUM_THREADS).
Local Abbreviation init := (init nodes NUM_THREADS).

(** A worker inside its loop can run its next statement unless it waits for
    a mutex that is held or for the condition variable. *)
Lemma step_worker_enabled i pick sh pc :
  (holds_q pc = false → graph_wf nodes) → length (visited sh) = length nodes →
  worker_ok nodes sh pc →
  Forall (fun t => task_idx t < length nodes) (alive_task pc) →
  pc ≠ NotCreated → pc ≠ LoopExit →
  (wants_q pc = true → mutex (tp sh) = None) →
  (pc = LoopDeq DeqWait → Worker i ∉ cond (tp sh)) →
  (wants_g pc = true → graph_mutex sh = None) →
  is_Some (step_worker nodes i pick sh pc).
Proof.
  intros Hwf Hlen Hok Hidx Hnc Hne Hq Hc Hg.
  destruct pc as [|[| | | | |r]|t x|t|]; simpl in *; try done.
  - by rewrite Hq.
  - by destruct (dequeue_must_wait (tp sh)).
  - rewrite decide_False by auto. by rewrite Hq.
  - unfold dequeue_locked. by destruct (head (tp sh)).
  - apply Forall_cons in Hidx as [Ht _]. unfold task_idx in *.
    destruct (lookup_lt_is_Some_2 nodes _ Ht) as [n Hn].
    destruct (lookup_lt_is_Some_2 (visited sh) (idx (argument t))) as [st Hst]; [lia|].
    destruct (action t). unfold step_execute. rewrite Hn. simpl.
    destruct x as [| | |j|j|j nt [| |]|]; simpl in *; rewrite ?Hst; simpl; try done.
    + by rewrite Hg.
    + destruct (neighbours n !! j) as [nb|] eqn:Hj; [|done].
      destruct (lookup_lt_is_Some_2 (visited sh) nb) as [? ->]; [|done].
      rewrite Hlen. eapply graph_wf_lookup; [by apply Hwf|done..].
    + destruct Hok as (_ & n' & nb & Hn' & Hj & Hnb). unfold task_idx in Hn'.
      simplify_eq. rewrite Hj. simpl. by rewrite Hnb.
    + by rewrite Hq.
Qed.

Lemma worker_enabled s i pc :
  (holds_q pc = false → graph_wf nodes) → inv s → inv_alive nodes s →
  workers s !! i = Some pc → pc ≠ NotCreated → pc ≠ LoopExit →
  (wants_q pc = true → mutex (tp (mem s)) = None) →
  (pc = LoopDeq DeqWait → Worker i ∉ cond (tp (mem s))) →
  (wants_g pc = true → graph_mutex (mem s) = None) →
  is_Some (step {| who := Worker i; pick := 0 |} s).
Proof.
  intros Hwf Hinv Ha Hpc Hnc Hne Hq Hc Hg.
  destruct (step_worker_enabled i 0 (mem s) pc) as [[sh' pc'] Hs]; try done.
  - apply Hinv.
  - exact (Forall_lookup_1 _ _ _ _ (inv_worker_ok _ _ _ Hinv) Hpc).
  - apply Forall_forall. intros t Ht.
    pose proof (alive_lookup s i pc t Hpc Ht) as Hal.
    exact (proj2 (proj1 (Forall_forall _ _) (ia_tasks _ _ Ha) t Hal)).
  - unfold step. simpl. rewrite Hpc. simpl. rewrite Hs. done.
Qed.

(** [main] can run its next statement unless it waits for a held mutex or
    for a worker that has not left its loop. *)
Lemma main_enabled s :
  (holds_q_main (main s) = false → 0 < length nodes) → inv s → main s ≠ MainExit →
  (wants_q_main (main s) = true → mutex (tp (mem s)) = None) →
  (wants_g_main (main s) = true → graph_mutex (mem s) = None) →
  (∀ i, main s = MainWait (WaitJoin i) → i < NUM_THREADS → workers s !! i = Some LoopExit) →
  is_Some (step {| who := Main; pick := 0 |} s).
Proof.
  intros Hn Hinv Hne Hq Hg Hj. unfold step, step_main. simpl.
  destruct (main s) as [i|[| |t [| |]|]|[| | |i]| | |] eqn:Hm; simpl in *; try done.
  - by case_decide.
  - by rewrite Hg.
  - destruct (lookup_lt_is_Some_2 (visited (mem s)) 0) as [? ->]; [|done].
    rewrite (inv_visited _ _ _ Hinv). by apply Hn.
  - by rewrite Hq.
  - by rewrite Hq.
  - case_decide; [|done]. by rewrite (Hj i).
Qed.

(** The thread that holds the queue mutex can always run. *)
Lemma holder_enabled s t :
  inv s → inv_alive nodes s →
  mutex (tp (mem s)) = Some t → is_Some (step {| who := t; pick := 0 |} s).
Proof.
  intros Hinv Ha Hq. apply (inv_q _ _ _ Hinv) in Hq. destruct t as [|i]; simpl in Hq.
  - apply main_enabled; try done;
      destruct (main s) as [?|[| |? [| |]|]|[| | |?]| | |]; simpl in *; done.
  - destruct (workers s !! i) as [pc|] eqn:Hpc; simpl in Hq; [|done].
    eapply worker_enabled; try done;
      destruct pc as [|[| | | | |?]|? [| | |?|?|? ? [| |]|]|?|]; simpl in *; done.
Qed.

(** No deadlock: before [main] returns, some thread can run. *)
Lemma progress s :
  graph_wf nodes → 0 < length nodes → inv s → inv_alive nodes s →
  main s ≠ MainExit → ∃ l, is_Some (step l s).
Proof.
  intros Hwf Hn Hinv Ha Hne.
  destruct (mutex (tp (mem s))) as [t|] eqn:Hq.
  { eexists. by eapply holder_enabled. }
  destruct (graph_mutex (mem s)) as [t|] eqn:Hg.
  { apply (inv_g _ _ _ Hinv) in Hg. destruct t as [|i]; simpl in Hg.
    - exists {| who := Main; pick := 0 |}. apply main_enabled; try done;
        destruct (main s) as [?|[| |? [| |]|]|[| | |?]| | |]; simpl in *; done.
    - destruct (workers s !! i) as [pc|] eqn:Hpc; simpl in Hg; [|done].
      exists {| who := Worker i; pick := 0 |}. eapply worker_enabled; try done;
        destruct pc as [|[| | | | |?]|? [| | |?|?|? ? [| |]|]|?|]; simpl in *; done. }
  assert (Hcase : (∃ i pc, main s = MainWait (WaitJoin i) ∧ workers s !! i = Some pc ∧
                           pc ≠ LoopExit) ∨
                  (∀ i, main s = MainWait (WaitJoin i) → i < NUM_THREADS →
                        workers s !! i = Some LoopExit)).
  { destruct (main s) as [?|?|[| | |i]| | |] eqn:Hm; try (right; intros; discriminate).
    destruct (workers s !! i) as [pc|] eqn:Hpc.
    - assert (pc = LoopExit ∨ pc ≠ LoopExit) as [->|?] by (destruct pc; auto).
      + right. by intros ? [= <-] _.
      + left. eauto 10.
    - right. intros ? [= <-] Hi. apply lookup_ge_None in Hpc.
      rewrite (inv_workers _ _ _ Hinv) in Hpc. lia. }
  destruct Hcase as [(i & pc & Hm & Hpc & Hpcne)|Hj].
  - exists {| who := Worker i; pick := 0 |}. eapply worker_enabled; try done.
    + intros ->. assert (Hcr : ∀ j, main s ≠ MainCreate j) by (intros j; by rewrite Hm).
      by pose proof (Forall_lookup_1 _ _ _ _ (inv_created _ _ _ Hinv Hcr) Hpc).
    + intros _. rewrite (inv_after_broadcast _ _ _ Hinv); [apply not_elem_of_nil|].
      by rewrite Hm.
  - exists {| who := Main; pick := 0 |}. by apply main_enabled.
Qed.
End Progress.

(** ** Runs end, and make one task per node at most *)

(** [n] distinct numbers below [n] at most. *)
Lemma NoDup_bounded_length (l : list nat) (n : nat) :
  NoDup l → Forall (fun x => x < n) l → length l ≤ n.
Proof.
  intros Hnd Hlt. transitivity (length (seq 0 n)); [|by rewrite length_seq].
  apply submseteq_length.
  apply NoDup_submseteq; [done|]. intros x Hx. apply elem_of_seq.
  pose proof (proj1 (Forall_forall _ _) Hlt x Hx) as Hx'. simpl in Hx'. lia.
Qed.

Section Termination.
Variable nodes : list os_node_t.
Variable NUM_THREADS : nat.
Local Abbreviation inv := (inv nodes NUM_THREADS).
Local Abbreviation step := (step nodes NUM_THREADS).
Local Abbreviation run := (run nodes NUM_THREADS).
Local Abbreviation init := (init nodes NUM_THREADS).
Local Abbreviation measure := (measure nodes NUM_THREADS).

(** From every state a run reaches, some run leads to the return of [main]. *)
Lemma run_to_terminal s :
  graph_wf nodes → 0 < length nodes → inv s → inv_alive nodes s →
  ∃ sched s', run sched s = Some s' ∧ terminal s'.
Proof.
  intros Hwf Hn. remember (measure s) as m eqn:Hm. revert s Hm.
  induction (lt_wf m) as [m _ IH]. intros s -> Hinv Ha.
  assert (main s = MainExit ∨ main s ≠ MainExit) as [Ht|Ht] by (destruct (main s); auto).
  - by exists [], s.
  - destruct (progress nodes NUM_THREADS s Hwf Hn Hinv Ha Ht) as (l & s1 & Hs).
    destruct (IH (measure s1) (measure_step _ _ _ _ _ Hinv Hs) s1 eq_refl) as (sched & s' & Hr & ?).
    + by eapply inv_step.
    + by eapply inv_alive_step.
    + exists (l :: sched), s'. simpl. rewrite Hs. done.
Qed.

(** At most one task per node is ever made, and no node is enqueued twice. *)
Lemma created_bound s :
  inv s → inv_graph nodes s → length (created (log (mem s))) ≤ length nodes.
Proof.
  intros Hinv Hg. rewrite <- (length_fmap task_idx).
  apply NoDup_bounded_length; [apply Hg|]. apply Forall_forall. intros v Hv.
  apply (ig_created _ _ Hg) in Hv as (st & Hv & _). apply lookup_lt_Some in Hv.
  by rewrite (inv_visited _ _ _ Hinv) in Hv.
Qed.

Lemma enqueued_nodup s : inv_graph nodes s → NoDup (task_idx <$> enqueued (log (mem s))).
Proof.
  intros Hg. pose proof (ig_created_nodup _ _ Hg) as Hnd.
  rewrite (ig_enqueued _ _ Hg), fmap_app in Hnd. by apply NoDup_app in Hnd as [? _].
Qed.
End Termination.

(** ** What one statement does to the statuses and the locks *)

Section StepProperties.
Variable nodes : list os_node_t.
Variable NUM_THREADS : nat.
Local Abbreviation inv := (inv nodes NUM_THREADS).
Local Abbreviation step := (step nodes NUM_THREADS).
Local Abbreviation run := (run nodes NUM_THREADS).
Local Abbreviation init := (init nodes NUM_THREADS).

(* The running thread holds the graph mutex, by its program counter. *)
Ltac holds_g_now :=
  match goal with
  | Hg : lock_ok ?gm _ |- ?gm = Some ?t =>
      apply (proj2 (Hg t)); simpl;
      try match goal with Hpc : _ !! _ = Some _ |- _ => rewrite Hpc end; reflexivity
  end.

(** What one statement does to the statuses, the tasks made, the weights
    added and [sum]. *)
Lemma visited_step l s s' :
  inv s → step l s = Some s' →
  (visited (mem s') = visited (mem s) ∧ created (log (mem s')) = created (log (mem s)) ∧
   added (log (mem s')) = added (log (mem s)) ∧ sum (mem s') = sum (mem s)) ∨
  (∃ v t, graph_mutex (mem s) = Some (who l) ∧ task_idx t = v ∧
     visited (mem s) !! v = Some NOT_VISITED ∧
     visited (mem s') = <[v := PROCESSING]> (visited (mem s)) ∧
     created (log (mem s')) = created (log (mem s)) ++ [t] ∧
     added (log (mem s')) = added (log (mem s)) ∧ sum (mem s') = sum (mem s)) ∨
  (∃ v, graph_mutex (mem s) = Some (who l) ∧
     visited (mem s) !! v = Some PROCESSING ∧
     visited (mem s') = <[v := DONE]> (visited (mem s)) ∧
     created (log (mem s')) = created (log (mem s)) ∧
     added (log (mem s')) = added (log (mem s)) ++ [v] ∧
     sum (mem s') = wrap_int (sum (mem s) + weight nodes v)).
Proof.
  intros Hinv H. inv_start Hinv H.
  all: try (left; done).
  - right; left. exists 0, (create_task execute_fn {| idx := 0 |} (Some free_fn)).
    destruct (inv_before_claim eq_refl) as (-> & _).
    apply lookup_replicate in Heqo0 as [-> ?].
    repeat split; try done. holds_g_now.
    by apply lookup_replicate.
  - left. destruct (destroy_tasks_log (head p) lg) as (-> & _ & ->). done.
  - right; right. exists (idx (argument t)). unfold weight. rewrite Heqo1. simpl.
    repeat split; try done. holds_g_now.
  - right; left. destruct Hw as (_ & n & nb & ? & ? & Hnv). simplify_eq.
    eexists _, (create_task execute_fn {| idx := _ |} (Some free_fn)).
    repeat split; try done. holds_g_now.
Qed.

(** A thread that holds both mutexes is inside [enqueue_task]. *)
Lemma both_locks s t :
  inv s → graph_mutex (mem s) = Some t → mutex (tp (mem s)) = Some t →
  holder enqueuing_main enqueuing s t = true.
Proof.
  intros Hinv Hg Hq. apply (inv_g _ _ _ Hinv) in Hg. apply (inv_q _ _ _ Hinv) in Hq.
  destruct t as [|i]; simpl in *.
  - by destruct (main s) as [?|[| |? [| |]|]|[| | |?]| | |].
  - destruct (workers s !! i) as [pc|]; simpl in *; [|done].
    by destruct pc as [|[| | | | |?]|? [| | |?|?|? ? [| |]|]|?|].
Qed.

(** Taking the graph mutex, and taking the queue mutex. *)
Lemma graph_lock_step l s s' t :
  inv s → step l s = Some s' →
  graph_mutex (mem s') = Some t → graph_mutex (mem s) ≠ Some t →
  t = who l ∧ graph_mutex (mem s) = None ∧
  mutex (tp (mem s)) ≠ Some t ∧ mutex (tp (mem s')) ≠ Some t.
Proof.
  intros Hinv H. inv_start Hinv H; intros Hg Hng; try done.
  all: simplify_eq; repeat split; try done.
  all: intros Hq; apply (proj1 (inv_q _)) in Hq; simpl in Hq.
  all: try match goal with Hpc : _ !! _ = Some _ |- _ => rewrite Hpc in Hq end; done.
Qed.

Lemma queue_lock_step l s s' t :
  inv s → step l s = Some s' →
  mutex (tp (mem s')) = Some t → mutex (tp (mem s)) ≠ Some t →
  t = who l ∧ mutex (tp (mem s)) = None ∧ graph_mutex (mem s') = graph_mutex (mem s).
Proof.
  intros Hinv H. inv_start Hinv H; intros Hq Hnq; try done.
  all: by simplify_eq.
Qed.
End StepProperties.

(** ** Arithmetic of [int], the queue as a sequence *)

(** [wrap_int] lands in the [int] range, is the identity on it, and differs
    from its argument by a multiple of 2^32. *)
Lemma wrap_int_range z : (- 2 ^ 31 ≤ wrap_int z < 2 ^ 31)%Z.
Proof. unfold wrap_int. pose proof (Z.mod_pos_bound (z + 2 ^ 31) (2 ^ 32)). lia. Qed.

Lemma wrap_int_small z : (- 2 ^ 31 ≤ z < 2 ^ 31)%Z → wrap_int z = z.
Proof. intros Hz. unfold wrap_int. rewrite Z.mod_small; lia. Qed.

Lemma wrap_int_congr z : ((wrap_int z - z) mod 2 ^ 32 = 0)%Z.
Proof.
  unfold wrap_int. pose proof (Z_div_mod_eq_full (z + 2 ^ 31) (2 ^ 32)) as Hd.
  replace ((z + 2 ^ 31) mod 2 ^ 32 - 2 ^ 31 - z)%Z
    with (- ((z + 2 ^ 31) / 2 ^ 32) * 2 ^ 32)%Z by lia.
  apply Z_mod_mult.
Qed.

Lemma wrap_int_overflow z : ¬ (- 2 ^ 31 ≤ z < 2 ^ 31)%Z → wrap_int z ≠ z.
Proof. intros Hz Heq. pose proof (wrap_int_range z). rewrite Heq in *. done. Qed.

(** The sum of weights does not depend on the order of the nodes. *)
Lemma sum_weights_perm nodes l l' : l ≡ₚ l' → sum_weights nodes l = sum_weights nodes l'.
Proof.
  unfold sum_weights. induction 1 as [|x l l' _ IH|x y l|l l' l'' _ IH1 _ IH2]; simpl.
  - done.
  - by rewrite IH.
  - lia.
  - by rewrite IH1.
Qed.

Lemma sum_weights_unique nodes P l l' :
  NoDup l → (∀ v, v ∈ l ↔ P v) → NoDup l' → (∀ v, v ∈ l' ↔ P v) →
  sum_weights nodes l = sum_weights nodes l'.
Proof.
  intros Hl HP Hl' HP'. apply sum_weights_perm, NoDup_Permutation; [done..|].
  intros v. by rewrite HP, HP'.
Qed.

(** Destroying [q] frees every task and calls the destructors present. *)
Lemma destroy_tasks_count_all q h :
  args_destroyed (foldl (fun h t => destroy_task t h) h q)
    = args_destroyed h + length (filter (fun t => is_Some (destroy_arg t)) q) ∧
  tasks_freed (foldl (fun h t => destroy_task t h) h q) = tasks_freed h + length q.
Proof.
  revert h. induction q as [|t q IH]; intros h; simpl; [lia|].
  destruct (IH (destroy_task t h)) as [-> ->]. rewrite filter_cons.
  unfold destroy_task. destruct (destroy_arg t) as [[]|]; simpl; lia.
Qed.

(** The queue as one consumer sees it. *)
Lemma queue_run_prefix pick ops p :
  ∃ rest, head p ++ enqueued_by ops = queue_run pick ops p ++ rest.
Proof.
  revert p. induction ops as [|[t|] ops IH]; intros p; simpl.
  - exists (head p). by rewrite app_nil_r.
  - destruct (IH (enqueue_locked pick t p)) as [rest Hr]. exists rest.
    rewrite <- Hr. unfold enqueued_by. simpl. unfold list_add_tail.
    by rewrite <- app_assoc.
  - unfold queue_is_empty, dequeue_locked. destruct (head p) as [|t q] eqn:Hh; simpl.
    + destruct (IH p) as [rest Hr]. exists rest. by rewrite <- Hr, Hh.
    + destruct (IH (set_head q p)) as [rest Hr]. exists rest. simpl in Hr. by rewrite <- Hr.
Qed.

(** In a list without repetition an element splits the list in one way
    only; so a prefix that contains [b] contains all that precedes [b]. *)
Lemma NoDup_split_inj {A} (l1 l2 k1 k2 : list A) x :
  NoDup (l1 ++ x :: l2) → l1 ++ x :: l2 = k1 ++ x :: k2 → l1 = k1 ∧ l2 = k2.
Proof.
  revert k1. induction l1 as [|y l1 IH]; intros k1 Hnd Heq; simpl in *.
  - destruct k1 as [|z k1]; simplify_eq/=; [done|].
    apply NoDup_cons in Hnd as [Hx _]. destruct Hx. rewrite elem_of_app, elem_of_cons. auto.
  - apply NoDup_cons in Hnd as [Hy Hnd]. destruct k1 as [|z k1]; simplify_eq/=.
    + destruct Hy. rewrite elem_of_app, elem_of_cons. auto.
    + destruct (IH k1 Hnd) as [-> ->]; done.
Qed.

Lemma prefix_order {A} (l rest X Y Z : list A) a b :
  NoDup (l ++ rest) → l ++ rest = X ++ a :: Y ++ b :: Z → b ∈ l →
  ∃ Z', l = X ++ a :: Y ++ b :: Z'.
Proof.
  intros Hnd Heq Hb. apply list_elem_of_split in Hb as (l1 & l2 & ->).
  rewrite <- app_assoc in Heq, Hnd. simpl in Heq, Hnd.
  replace (X ++ a :: Y ++ b :: Z) with ((X ++ a :: Y) ++ b :: Z) in Heq
    by (by rewrite <- app_assoc).
  destruct (NoDup_split_inj _ _ _ _ _ Hnd Heq) as [-> _].
  exists l2. by rewrite <- app_assoc.
Qed.

(** ** The properties of the specification *)

(** Reachability in the example graphs. *)
Lemma edge_at nodes u n j v :
  nodes !! u = Some n → neighbours n !! j = Some v → edge nodes u v.
Proof. intros Hn Hj. exists n. split; [done|]. by eapply list_elem_of_lookup_2. Qed.

Lemma reachable_enum nodes (l : list nat) :
  0 ∈ l →
  (∀ u n v, u ∈ l → nodes !! u = Some n → v ∈ neighbours n → v ∈ l) →
  ∀ v, reachable nodes 0 v → v ∈ l.
Proof.
  intros H0 Hcl. unfold reachable. apply rtc_ind_r; [done|].
  intros u v _ (n & Hn & Hv) Hu. by eapply Hcl.
Qed.

Lemma reachable_star v : v ∈ [0; 1; 2; 3] ↔ reachable star_graph 0 v.
Proof.
  split.
  - intros Hv. repeat (apply elem_of_cons in Hv as [->|Hv]).
    + apply rtc_refl.
    + by eapply rtc_once, (edge_at _ 0 _ 0).
    + by eapply rtc_once, (edge_at _ 0 _ 1).
    + by eapply rtc_once, (edge_at _ 0 _ 2).
    + by apply elem_of_nil in Hv.
  - apply reachable_enum; [set_solver|]. intros u n w Hu Hn Hw.
    repeat (apply elem_of_cons in Hu as [->|Hu]); simplify_eq/=; set_solver.
Qed.

Lemma reachable_two nodes n0 n1 :
  nodes = [n0; n1] → neighbours n0 = [1] → neighbours n1 = [] ∨ neighbours n1 = [0] →
  ∀ v, v ∈ [0; 1] ↔ reachable nodes 0 v.
Proof.
  intros -> H0 H1 v. split.
  - intros Hv. repeat (apply elem_of_cons in Hv as [->|Hv]).
    + apply rtc_refl.
    + eapply rtc_once, (edge_at _ 0 _ 0); [done|]. by rewrite H0.
    + by apply elem_of_nil in Hv.
  - apply reachable_enum; [set_solver|]. intros u n w Hu Hn Hw.
    repeat (apply elem_of_cons in Hu as [->|Hu]); simplify_eq/=.
    + rewrite H0 in Hw. set_solver.
    + destruct H1 as [H1|H1]; rewrite H1 in Hw; set_solver.
    + by apply elem_of_nil in Hu.
Qed.

Lemma reachable_isolated v : v ∈ [0] ↔ reachable isolated_node 0 v.
Proof.
  split.
  - intros ->%list_elem_of_singleton. apply rtc_refl.
  - apply reachable_enum; [set_solver|]. intros u n w Hu Hn Hw.
    apply list_elem_of_singleton in Hu as ->. simplify_eq/=. by apply elem_of_nil in Hw.
Qed.

(** C1 (as amended).  With at least one worker, once [wait_for_completion]
    has returned, [sum] holds the sum of the weights of the nodes reachable
    from node 0, each weight added exactly once, reduced to a 32-bit [int]:
    the nodes whose weight was added are, up to their order, the reachable
    nodes without repetition; the value is the exact sum whenever that sum
    fits an [int]; and it is what [main] prints.  This holds for every
    schedule. *)
Theorem exactly_once_accumulation (nodes : list os_node_t) (NUM_THREADS : nat)
    (sched : list label) (s : state) (l : list nat) :
  0 < NUM_THREADS →
  run nodes NUM_THREADS sched (init nodes NUM_THREADS) = Some s →
  after_join (main s) = true →
  NoDup l → (∀ v, v ∈ l ↔ reachable nodes 0 v) →
  added (log (mem s)) ≡ₚ l ∧
  sum (mem s) = wrap_int (sum_weights nodes l) ∧
  (in_int_range (sum_weights nodes l) → sum (mem s) = sum_weights nodes l) ∧
  (terminal s → output s = Some (sum (mem s))).
Proof.
  intros Hn Hrun Hm Hl Hreach.
  destruct (reach_inv _ _ _ _ Hrun) as (Hinv & Hg & Ha).
  pose proof (reach_inv_pending _ _ _ _ Hn Hrun) as Hp.
  destruct (final_sum _ _ _ Hinv Hg Hp Hm) as (Hnd & Hadd & Hsum).
  assert (Hperm : added (log (mem s)) ≡ₚ l).
  { apply NoDup_Permutation; [done..|]. intros v. by rewrite Hadd, Hreach. }
  rewrite Hsum, (sum_weights_perm _ _ _ Hperm).
  repeat split; [done|apply wrap_int_small|].
  intros Ht. rewrite (ia_output _ _ Ha Ht), Hsum. by rewrite (sum_weights_perm _ _ _ Hperm).
Qed.

(** The star graph of the spec, centre 5 and leaves 1, 2, 3, with four
    workers: [main] prints 11. *)
Lemma exactly_once_accumulation_star :
  ∃ s, run star_graph 4 (sequential_4 66) (init star_graph 4) = Some s ∧
       (added (log (mem s)) ≡ₚ [0; 1; 2; 3] ∧
        sum (mem s) = wrap_int (sum_weights star_graph [0; 1; 2; 3]) ∧
        (in_int_range (sum_weights star_graph [0; 1; 2; 3]) →
         sum (mem s) = sum_weights star_graph [0; 1; 2; 3]) ∧
        (terminal s → output s = Some (sum (mem s)))) ∧
       output s = Some 11%Z.
Proof.
  eexists. split; [vm_compute; reflexivity|]. split; [|reflexivity].
  apply (exactly_once_accumulation star_graph 4 (sequential_4 66)).
  - lia.
  - vm_compute. reflexivity.
  - reflexivity.
  - repeat constructor; set_solver.
  - apply reachable_star.
Defined.

(** C1 (as stated) fails: with weights 2147483647 and 1 the four-worker run
    ends with [sum] at -2147483648 although the reachable weights add up to
    2147483648; and with no worker at all nothing is ever added, so an
    isolated node of weight 7 leaves [sum] at 0. *)
Lemma accumulator_not_sum :
  (∃ s, run overflow_graph 4 (sequential_4 31) (init overflow_graph 4) = Some s ∧
        terminal s ∧ NoDup [0; 1] ∧ (∀ v, v ∈ [0; 1] ↔ reachable overflow_graph 0 v) ∧
        sum (mem s) = (-2147483648)%Z ∧ output s = Some (-2147483648)%Z ∧
        sum_weights overflow_graph [0; 1] = 2147483648%Z ∧
        sum (mem s) ≠ sum_weights overflow_graph [0; 1]) ∧
  (∃ s, run isolated_node 0 main_alone (init isolated_node 0) = Some s ∧
        terminal s ∧ NoDup [0] ∧ (∀ v, v ∈ [0] ↔ reachable isolated_node 0 v) ∧
        sum (mem s) = 0%Z ∧ output s = Some 0%Z ∧
        sum_weights isolated_node [0] = 7%Z ∧
        sum (mem s) ≠ sum_weights isolated_node [0]).
Proof.
  split.
  - eexists. split; [vm_compute; reflexivity|]. split; [reflexivity|].
    split; [repeat constructor; set_solver|].
    split; [apply (reachable_two overflow_graph _ _ eq_refl eq_refl (or_introl eq_refl))|].
    repeat split; try reflexivity. discriminate.
  - eexists. split; [vm_compute; reflexivity|]. split; [reflexivity|].
    split; [repeat constructor; set_solver|]. split; [apply reachable_isolated|].
    repeat split; try reflexivity. discriminate.
Qed.

(** C10.  [sum] is an [int]: the addition [execute] performs leaves the
    32-bit two's-complement value of [sum + node->info], which lies in the
    [int] range and differs from the unbounded sum by a multiple of 2^32;
    what [main] prints is therefore the wrapped sum of the reachable weights,
    and differs from their unbounded sum whenever that sum does not fit an
    [int]. *)
Theorem sum_is_machine_int (nodes : list os_node_t) (NUM_THREADS : nat)
    (sched : list label) (s : state) (l : list nat) :
  0 < NUM_THREADS →
  run nodes NUM_THREADS sched (init nodes NUM_THREADS) = Some s →
  terminal s →
  NoDup l → (∀ v, v ∈ l ↔ reachable nodes 0 v) →
  (∀ me pick arg sh n, nodes !! idx arg = Some n → is_Some (visited sh !! idx arg) →
     ∃ sh', step_execute nodes me pick arg sh ExecAdd = Some (sh', Some (ExecLoop 0)) ∧
            sum sh' = wrap_int (sum sh + info n) ∧
            in_int_range (sum sh') ∧
            ((sum sh' - (sum sh + info n)) mod 2 ^ 32 = 0)%Z) ∧
  output s = Some (wrap_int (sum_weights nodes l)) ∧
  (¬ in_int_range (sum_weights nodes l) → output s ≠ Some (sum_weights nodes l)).
Proof.
  intros Hn Hrun Ht Hl Hreach. split; [|split].
  - intros me pick arg sh n Hnode [st Hst]. eexists. split.
    + unfold step_execute. rewrite Hnode. simpl. rewrite Hst. simpl. reflexivity.
    + simpl. split; [done|]. split; [apply wrap_int_range|apply wrap_int_congr].
  - destruct (reach_inv _ _ _ _ Hrun) as (Hinv & Hg & Ha).
    pose proof (reach_inv_pending _ _ _ _ Hn Hrun) as Hp.
    destruct (final_sum _ _ _ Hinv Hg Hp) as (Hnd & Hadd & Hsum); [by rewrite Ht|].
    rewrite (ia_output _ _ Ha Ht), Hsum. do 2 f_equal.
    eapply sum_weights_unique; [exact Hnd|exact Hadd|exact Hl|exact Hreach].
  - intros Hrange Hout.
    destruct (reach_inv _ _ _ _ Hrun) as (Hinv & Hg & Ha).
    pose proof (reach_inv_pending _ _ _ _ Hn Hrun) as Hp.
    destruct (final_sum _ _ _ Hinv Hg Hp) as (Hnd & Hadd & Hsum); [by rewrite Ht|].
    rewrite (ia_output _ _ Ha Ht), Hsum in Hout.
    rewrite (sum_weights_unique nodes _ _ l Hnd Hadd Hl Hreach) in Hout.
    injection Hout as Hout. by apply (wrap_int_overflow _ Hrange).
Qed.

(** Weights 2147483647 and 1 with four workers: [main] prints -2147483648. *)
Lemma sum_is_machine_int_overflow :
  ∃ s, run overflow_graph 4 (sequential_4 31) (init overflow_graph 4) = Some s ∧
       output s = Some (-2147483648)%Z ∧
       sum_weights overflow_graph [0; 1] = 2147483648%Z ∧
       output s ≠ Some (sum_weights overflow_graph [0; 1]).
Proof.
  eexists. split; [vm_compute; reflexivity|]. split; [reflexivity|]. split; [reflexivity|].
  apply (sum_is_machine_int overflow_graph 4 (sequential_4 31)).
  - lia.
  - vm_compute. reflexivity.
  - reflexivity.
  - repeat constructor; set_solver.
  - by apply (reachable_two overflow_graph _ _ eq_refl eq_refl (or_introl eq_refl)).
  - unfold in_int_range. vm_compute. intros [_ H]. discriminate H.
Defined.

(** C2.  In every run of [main], a statement either leaves the statuses,
    the tasks made, the weights added and [sum] alone; or it takes one node
    from NOT_VISITED to PROCESSING and makes the one task for that node; or
    it takes one node from PROCESSING to DONE and adds that node's weight to
    [sum]; the last two only by the thread that holds the graph mutex.  No
    status ever goes back, and no node is the subject of either change twice:
    the nodes whose weight was added are listed without repetition and are the
    DONE nodes, [sum] is the wrapped sum of their weights, the tasks made name
    distinct nodes, namely those that have left NOT_VISITED, and the tasks
    linked into the queue are among them, so no node is enqueued twice. *)
Theorem visit_once_invariant (nodes : list os_node_t) (NUM_THREADS : nat)
    (sched : list label) (s : state) (l : label) (s' : state) :
  run nodes NUM_THREADS sched (init nodes NUM_THREADS) = Some s →
  step nodes NUM_THREADS l s = Some s' →
  ((visited (mem s') = visited (mem s) ∧ created (log (mem s')) = created (log (mem s)) ∧
    added (log (mem s')) = added (log (mem s)) ∧ sum (mem s') = sum (mem s)) ∨
   (∃ v t, graph_mutex (mem s) = Some (who l) ∧ task_idx t = v ∧
      visited (mem s) !! v = Some NOT_VISITED ∧
      visited (mem s') = <[v := PROCESSING]> (visited (mem s)) ∧
      created (log (mem s')) = created (log (mem s)) ++ [t] ∧
      added (log (mem s')) = added (log (mem s)) ∧ sum (mem s') = sum (mem s)) ∨
   (∃ v, graph_mutex (mem s) = Some (who l) ∧
      visited (mem s) !! v = Some PROCESSING ∧
      visited (mem s') = <[v := DONE]> (visited (mem s)) ∧
      created (log (mem s')) = created (log (mem s)) ∧
      added (log (mem s')) = added (log (mem s)) ++ [v] ∧
      sum (mem s') = wrap_int (sum (mem s) + weight nodes v))) ∧
  NoDup (added (log (mem s'))) ∧
  (∀ v, v ∈ added (log (mem s')) ↔ visited (mem s') !! v = Some DONE) ∧
  sum (mem s') = wrap_int (sum_weights nodes (added (log (mem s')))) ∧
  NoDup (task_idx <$> created (log (mem s'))) ∧
  (∀ v, v ∈ task_idx <$> created (log (mem s')) ↔ visited_at (visited (mem s')) v) ∧
  NoDup (task_idx <$> enqueued (log (mem s'))) ∧
  enqueued (log (mem s')) ⊆+ created (log (mem s')).
Proof.
  intros Hrun Hstep.
  destruct (reach_inv _ _ _ _ Hrun) as (Hinv & Hg & Ha).
  pose proof (inv_graph_step _ _ _ _ _ Hinv Hg Hstep) as Hg'.
  split; [by eapply visited_step|].
  split; [apply Hg'|]. split; [apply Hg'|]. split; [apply Hg'|].
  split; [apply Hg'|]. split; [apply Hg'|]. split; [by eapply enqueued_nodup|].
  rewrite (ig_enqueued _ _ Hg'). by apply submseteq_inserts_r.
Qed.

(** On the two-node cycle, the statement of worker 0 that claims node 1. *)
Lemma visit_once_invariant_claim :
  ∃ s s',
    run cycle_graph 4 (sched_of Main 14 ++ sched_of (Worker 0) 9) (init cycle_graph 4) = Some s ∧
    step cycle_graph 4 {| who := Worker 0; pick := 0 |} s = Some s' ∧
    visited (mem s) = [DONE; NOT_VISITED] ∧ visited (mem s') = [DONE; PROCESSING] ∧
    NoDup (task_idx <$> enqueued (log (mem s'))) ∧
    enqueued (log (mem s')) ⊆+ created (log (mem s')).
Proof.
  eexists _, _. split; [vm_compute; reflexivity|]. split; [vm_compute; reflexivity|].
  split; [reflexivity|]. split; [reflexivity|].
  refine (proj2 (proj2 (proj2 (proj2 (proj2 (proj2 (visit_once_invariant cycle_graph 4
    (sched_of Main 14 ++ sched_of (Worker 0) 9) _ {| who := Worker 0; pick := 0 |} _ _ _))))))).
  - vm_compute. reflexivity.
  - vm_compute. reflexivity.
Defined.

(** C3.  [dequeue_task] goes to [pthread_cond_wait] exactly when, at the
    [while] test, the queue is empty and [tasks_added] is zero, and stays
    there as long as it is among the threads blocked on the condition
    variable.  Past the loop it does not look at [tasks_added] again: with a
    non-empty queue it unlinks the first task and returns it, with an empty
    queue it returns NULL, in both cases after releasing the mutex and with
    no further wait.  In a run of [main], a worker that leaves the wait finds
    [tasks_added] non-zero at the [while] test, so it does not wait again. *)
Theorem dequeue_task_blocking (nodes : list os_node_t) (NUM_THREADS : nat)
    (sched : list label) (s : state) (i pk : nat) (s' : state) :
  run nodes NUM_THREADS sched (init nodes NUM_THREADS) = Some s →
  workers s !! i = Some (LoopDeq DeqWait) →
  step nodes NUM_THREADS {| who := Worker i; pick := pk |} s = Some s' →
  (∀ me sh, head (tp sh) = [] → tasks_added (tp sh) = 0 →
     step_dequeue_task me sh DeqCheck =
       Some (set_tp (set_mutex None (set_cond (cond (tp sh) ++ [me]) (tp sh))) sh,
             inl DeqWait)) ∧
  (∀ me sh, head (tp sh) ≠ [] ∨ tasks_added (tp sh) ≠ 0 →
     step_dequeue_task me sh DeqCheck = Some (sh, inl DeqTake)) ∧
  (∀ me sh, me ∈ cond (tp sh) → step_dequeue_task me sh DeqWait = None) ∧
  (∀ me sh t q, head (tp sh) = t :: q →
     run_dequeue_task 3 me sh DeqTake =
       Some (set_tp (set_mutex None (set_head q (tp sh))) sh, Some t)) ∧
  (∀ me sh, head (tp sh) = [] →
     run_dequeue_task 2 me sh DeqTake = Some (set_tp (set_mutex None (tp sh)) sh, None)) ∧
  tasks_added (tp (mem s')) ≠ 0 ∧
  workers s' !! i = Some (LoopDeq DeqCheck) ∧
  step_dequeue_task (Worker i) (mem s') DeqCheck = Some (mem s', inl DeqTake).
Proof.
  intros Hrun Hpc Hstep.
  assert (Hcheck : ∀ me sh, head (tp sh) ≠ [] ∨ tasks_added (tp sh) ≠ 0 →
            step_dequeue_task me sh DeqCheck = Some (sh, inl DeqTake)).
  { intros me sh Hne. simpl. unfold dequeue_must_wait, queue_is_empty.
    destruct Hne as [Hne|Hne].
    - by destruct (head (tp sh)).
    - by rewrite (bool_decide_eq_false_2 _ Hne), andb_false_r. }
  repeat split; try done.
  - intros me sh Hh Hta. simpl. unfold dequeue_must_wait, queue_is_empty.
    by rewrite Hh, Hta.
  - intros me sh Hin. simpl. by rewrite decide_True.
  - intros me sh t q Hh. simpl. unfold queue_is_empty. rewrite Hh. simpl.
    unfold dequeue_locked. rewrite Hh. reflexivity.
  - intros me sh Hh. simpl. unfold queue_is_empty. by rewrite Hh.
  - destruct (reach_inv _ _ _ _ Hrun) as (Hinv & _ & _).
    unfold step in Hstep. simpl in Hstep. rewrite Hpc in Hstep. simpl in Hstep.
    case_decide as Hin; [done|]. destruct (mutex (tp (mem s))); simplify_eq/=.
    intros Hta. apply Hin. by eapply (inv_waiting _ _ _ Hinv).
  - unfold step in Hstep. simpl in Hstep. rewrite Hpc in Hstep. simpl in Hstep.
    case_decide as Hin; [done|]. destruct (mutex (tp (mem s))); simplify_eq/=.
    apply list_lookup_insert_eq. by eapply lookup_lt_Some.
  - apply Hcheck. right.
    destruct (reach_inv _ _ _ _ Hrun) as (Hinv & _ & _).
    unfold step in Hstep. simpl in Hstep. rewrite Hpc in Hstep. simpl in Hstep.
    case_decide as Hin; [done|]. destruct (mutex (tp (mem s))); simplify_eq/=.
    intros Hta. apply Hin. by eapply (inv_waiting _ _ _ Hinv).
Qed.

(** A worker that waited before the seed task existed and was signalled by
    its [enqueue_task]. *)
Lemma dequeue_task_blocking_woken :
  ∃ s s',
    run isolated_node 1 woken_worker (init isolated_node 1) = Some s ∧
    step isolated_node 1 {| who := Worker 0; pick := 0 |} s = Some s' ∧
    workers s = [LoopDeq DeqWait] ∧
    tasks_added (tp (mem s')) ≠ 0 ∧
    workers s' !! 0 = Some (LoopDeq DeqCheck) ∧
    step_dequeue_task (Worker 0) (mem s') DeqCheck = Some (mem s', inl DeqTake).
Proof.
  eexists _, _. split; [vm_compute; reflexivity|]. split; [vm_compute; reflexivity|].
  split; [reflexivity|].
  refine (proj2 (proj2 (proj2 (proj2 (proj2
    (dequeue_task_blocking isolated_node 1 woken_worker _ 0 0 _ _ _ _)))))).
  - vm_compute. reflexivity.
  - reflexivity.
  - vm_compute. reflexivity.
Defined.

(** C5.  The queue is first in, first out: [enqueue_task] links a task at the
    tail, [dequeue_task] unlinks the head, and when a task A is enqueued
    before a task B with only enqueues in between, and a single consumer's
    dequeues return both, they return A before B.  The tasks are told apart
    as the distinct objects they are in C. *)
Theorem queue_fifo (pick : nat) (p : os_threadpool_t) (pre mid post : list queue_op)
    (A B : os_task_t) :
  Forall is_enqueue mid →
  NoDup (head p ++ enqueued_by (pre ++ Enqueue A :: mid ++ Enqueue B :: post)) →
  A ∈ queue_run pick (pre ++ Enqueue A :: mid ++ Enqueue B :: post) p →
  B ∈ queue_run pick (pre ++ Enqueue A :: mid ++ Enqueue B :: post) p →
  (∃ l1 l2 l3, queue_run pick (pre ++ Enqueue A :: mid ++ Enqueue B :: post) p
               = l1 ++ A :: l2 ++ B :: l3) ∧
  head (enqueue_locked pick A p) = head p ++ [A] ∧
  (∀ t q, head p = t :: q → dequeue_locked p = Some (t, set_head q p)).
Proof.
  intros _ Hnd HA HB. split; [|split].
  - destruct (queue_run_prefix pick (pre ++ Enqueue A :: mid ++ Enqueue B :: post) p)
      as [rest Hr].
    rewrite Hr in Hnd.
    assert (Hsplit : enqueued_by (pre ++ Enqueue A :: mid ++ Enqueue B :: post)
              = enqueued_by pre ++ A :: enqueued_by mid ++ B :: enqueued_by post).
    { unfold enqueued_by. rewrite bind_app, bind_cons, bind_app, bind_cons. done. }
    rewrite Hsplit, app_assoc in Hr.
    destruct (prefix_order _ _ _ _ _ _ _ Hnd (eq_sym Hr) HB) as [Z' HZ].
    by exists (head p ++ enqueued_by pre), (enqueued_by mid), Z'.
  - done.
  - intros t q Hh. unfold dequeue_locked. by rewrite Hh.
Qed.

(** Two tasks enqueued on an empty queue and dequeued twice. *)
Lemma queue_fifo_two_tasks :
  let A := create_task execute_fn {| idx := 0 |} (Some free_fn) in
  let B := create_task execute_fn {| idx := 1 |} (Some free_fn) in
  let p := {| head := []; tasks_added := 0; mutex := None; cond := [] |} in
  queue_run 0 [Enqueue A; Enqueue B; Dequeue; Dequeue] p = [A; B] ∧
  ∃ l1 l2 l3, queue_run 0 ([] ++ Enqueue A :: [] ++ Enqueue B :: [Dequeue; Dequeue]) p
              = l1 ++ A :: l2 ++ B :: l3.
Proof.
  intros A B p. split; [reflexivity|].
  apply (queue_fifo 0 p [] [] [Dequeue; Dequeue] A B).
  - apply Forall_nil_2.
  - vm_compute. repeat constructor; set_solver.
  - vm_compute. set_solver.
  - vm_compute. set_solver.
Defined.

(** C6.  [execute] on a node whose status is not PROCESSING changes nothing:
    the test sends it straight to the unlock, which writes the graph mutex
    only, and the whole call, started with the graph mutex free, returns with
    the memory exactly as it found it: [sum], every status, the queue and the
    history. *)
Theorem execute_stale_frame (nodes : list os_node_t) (me : thread_id) (pick : nat)
    (arg : graph_task_args_t) (sh : shared) (n : os_node_t) (st : visit_status) :
  nodes !! idx arg = Some n →
  visited sh !! idx arg = Some st →
  st ≠ PROCESSING →
  (graph_mutex sh = None →
     step_execute nodes me pick arg sh ExecLock
       = Some (set_graph_mutex (Some me) sh, Some ExecTest)) ∧
  step_execute nodes me pick arg sh ExecTest = Some (sh, Some ExecUnlock) ∧
  step_execute nodes me pick arg sh ExecUnlock = Some (set_graph_mutex None sh, None) ∧
  (graph_mutex sh = None → run_execute nodes 3 me pick arg sh ExecLock = Some sh).
Proof.
  intros Hn Hst Hne.
  assert (Htest : ∀ sh0, visited sh0 = visited sh →
            step_execute nodes me pick arg sh0 ExecTest = Some (sh0, Some ExecUnlock)).
  { intros sh0 Hv. simpl. rewrite Hn. simpl. rewrite Hv, Hst. simpl.
    by rewrite decide_False. }
  split; [|split; [|split]].
  - intros Hg. simpl. by rewrite Hg.
  - by apply Htest.
  - done.
  - intros Hg. simpl. rewrite Hg. simpl.
    pose proof (Htest (set_graph_mutex (Some me) sh) eq_refl) as Ht. simpl in Ht.
    rewrite Ht. simpl. destruct sh. simpl in *. by subst.
Qed.

(** [execute] on a node that is DONE already. *)
Lemma execute_stale_frame_done :
  let sh := {| tp := {| head := []; tasks_added := 1; mutex := None; cond := [] |};
               visited := [DONE]; sum := 7%Z; graph_mutex := None;
               log := {| created := []; enqueued := []; added := [0];
                         args_destroyed := 0; tasks_freed := 0 |} |} in
  run_execute isolated_node 3 (Worker 0) 0 {| idx := 0 |} sh ExecLock = Some sh.
Proof.
  intros sh.
  apply (execute_stale_frame isolated_node (Worker 0) 0 {| idx := 0 |} sh
           {| info := 7; neighbours := [] |} DONE); reflexivity || discriminate.
Defined.

(** C7.  [destroy_threadpool] empties the queue whatever it holds, calling
    [destroy_task] on every task left: each is freed, and its argument
    destructor runs when it has one.  When [main] has returned, every task
    that was ever made has been destroyed exactly once: the destructor calls
    and the frees both number the tasks made. *)
Theorem destroy_threadpool_frees (nodes : list os_node_t) (NUM_THREADS : nat)
    (sched : list label) (s : state) :
  run nodes NUM_THREADS sched (init nodes NUM_THREADS) = Some s →
  terminal s →
  (∀ sh, head (tp (destroy_threadpool sh)) = [] ∧
         tasks_freed (log (destroy_threadpool sh))
           = tasks_freed (log sh) + length (head (tp sh)) ∧
         args_destroyed (log (destroy_threadpool sh))
           = args_destroyed (log sh)
             + length (filter (fun t => is_Some (destroy_arg t)) (head (tp sh)))) ∧
  args_destroyed (log (mem s)) = length (created (log (mem s))) ∧
  tasks_freed (log (mem s)) = length (created (log (mem s))).
Proof.
  intros Hrun Ht. split.
  - intros sh. unfold destroy_threadpool. simpl.
    destruct (destroy_tasks_count_all (head (tp sh)) (log sh)) as [-> ->]. done.
  - destruct (reach_inv _ _ _ _ Hrun) as (Hinv & _ & Ha).
    assert (Hal : alive s = []).
    { unfold alive. rewrite (ia_drained _ _ Ha) by auto. rewrite Ht. simpl.
      apply bind_nil_all. eapply Forall_impl; [apply (inv_after_join _ _ _ Hinv)|].
      - by rewrite Ht.
      - by intros ? ->. }
    pose proof (ia_count _ _ Ha) as Hc. rewrite Hal in Hc. simpl in Hc.
    rewrite (ia_freed _ _ Ha). lia.
Qed.

(** With no worker the seed task is still queued when [destroy_threadpool]
    runs, and is destroyed there. *)
Lemma destroy_threadpool_frees_leftover :
  ∃ s s', run isolated_node 0 (sched_of Main 11) (init isolated_node 0) = Some s ∧
          main s = MainDestroy ∧ length (head (tp (mem s))) = 1 ∧
          run isolated_node 0 (sched_of Main 2) s = Some s' ∧
          args_destroyed (log (mem s')) = length (created (log (mem s'))) ∧
          tasks_freed (log (mem s')) = length (created (log (mem s'))) ∧
          length (created (log (mem s'))) = 1.
Proof.
  eexists _, _. split; [vm_compute; reflexivity|]. split; [reflexivity|].
  split; [reflexivity|]. split; [vm_compute; reflexivity|].
  split; [|split; [|reflexivity]];
    apply (destroy_threadpool_frees isolated_node 0 main_alone);
    (vm_compute; reflexivity) || reflexivity.
Defined.

(** C9 (as amended).  [process_node] claims its node without looking at the
    status: whatever the status of node [i], the call sets it to PROCESSING
    and links a task at the tail of the queue; that task carries [execute],
    the index [i] and [free].  When the node was DONE and its weight had been
    added, a worker that executes the task from the queue passes the
    PROCESSING test and adds the weight of [i] to [sum] a second time: the
    node is then listed twice among the nodes added. *)
Theorem process_node_unconditional (nodes : list os_node_t) (me : thread_id) (w pick : nat)
    (i : nat) (sh : shared) (st : visit_status) (n : os_node_t) :
  visited sh !! i = Some st → nodes !! i = Some n →
  graph_mutex sh = None → mutex (tp sh) = None →
  ∃ sh1 t,
    run_process_node 6 me pick i sh SeedLock = Some sh1 ∧
    visited sh1 = <[i := PROCESSING]> (visited sh) ∧
    head (tp sh1) = head (tp sh) ++ [t] ∧
    created (log sh1) = created (log sh) ++ [t] ∧
    action t = execute_fn ∧ argument t = {| idx := i |} ∧ destroy_arg t = Some free_fn ∧
    sum sh1 = sum sh ∧ added (log sh1) = added (log sh) ∧
    graph_mutex sh1 = None ∧ mutex (tp sh1) = None ∧
    (st = DONE → i ∈ added (log sh) →
     ∃ sh2 sh3 sh4,
       step_worker nodes w pick sh1 (LoopAction t ExecLock)
         = Some (sh2, LoopAction t ExecTest) ∧
       step_worker nodes w pick sh2 (LoopAction t ExecTest)
         = Some (sh3, LoopAction t ExecAdd) ∧
       step_worker nodes w pick sh3 (LoopAction t ExecAdd)
         = Some (sh4, LoopAction t (ExecLoop 0)) ∧
       sum sh4 = wrap_int (sum sh + info n) ∧
       added (log sh4) = added (log sh) ++ [i] ∧
       ¬ NoDup (added (log sh4))).
Proof.
  intros Hst Hn Hg Hq. destruct sh as [[h ta m c] vis sm gm lg]. simpl in *. subst.
  assert (Hp : <[i := PROCESSING]> vis !! i = Some PROCESSING).
  { apply list_lookup_insert_eq. by eapply lookup_lt_Some. }
  eexists _, _. split.
  { simpl. rewrite Hst. simpl. reflexivity. }
  do 10 (split; [reflexivity|]).
  intros _ Hin. eexists _, _, _. unfold step_worker, step_execute. cbn [action argument idx create_task].
  split; [reflexivity|].
  split; [cbn; rewrite Hn; cbn; rewrite Hp; reflexivity|].
  split; [cbn; rewrite Hn; cbn; rewrite Hp; reflexivity|].
  split; [reflexivity|]. split; [reflexivity|].
  cbn. intros [_ [Hno _]]%NoDup_app. apply (Hno i Hin). by apply list_elem_of_singleton.
Qed.

(** Seeding a node that is DONE already, its weight 7 in [sum]: the weight
    is added a second time. *)
Lemma process_node_unconditional_again :
  let sh := {| tp := {| head := []; tasks_added := 1; mutex := None; cond := [] |};
               visited := [DONE]; sum := 7%Z; graph_mutex := None;
               log := {| created := []; enqueued := []; added := [0];
                         args_destroyed := 0; tasks_freed := 0 |} |} in
  ∃ sh1 t sh2 sh3 sh4,
    run_process_node 6 Main 0 0 sh SeedLock = Some sh1 ∧
    visited sh1 = [PROCESSING] ∧ head (tp sh1) = [t] ∧
    step_worker isolated_node 0 0 sh1 (LoopAction t ExecLock)
      = Some (sh2, LoopAction t ExecTest) ∧
    step_worker isolated_node 0 0 sh2 (LoopAction t ExecTest)
      = Some (sh3, LoopAction t ExecAdd) ∧
    step_worker isolated_node 0 0 sh3 (LoopAction t ExecAdd)
      = Some (sh4, LoopAction t (ExecLoop 0)) ∧
    sum sh4 = 14%Z ∧ added (log sh4) = [0; 0].
Proof.
  intros sh.
  destruct (process_node_unconditional isolated_node Main 0 0 0 sh DONE
              {| info := 7; neighbours := [] |} eq_refl eq_refl eq_refl eq_refl)
    as (sh1 & t & Hrun & Hv & Hh & _ & _ & _ & _ & _ & _ & _ & _ & Hagain).
  destruct (Hagain eq_refl) as (sh2 & sh3 & sh4 & H2 & H3 & H4 & Hs & Ha & _).
  { by apply list_elem_of_singleton. }
  exists sh1, t, sh2, sh3, sh4. repeat split; assumption.
Defined.

(** C9 (as stated) fails for a node that is still PROCESSING: seeding node 0
    while its first task is queued links a second task; the first [execute]
    adds the weight 7 and sets the node DONE, the second finds it DONE and
    adds nothing, so the weight is in [sum] once. *)
Lemma reseed_claimed_adds_once :
  let t0 := create_task execute_fn {| idx := 0 |} (Some free_fn) in
  let sh := {| tp := {| head := [t0]; tasks_added := 1; mutex := None; cond := [] |};
               visited := [PROCESSING]; sum := 0%Z; graph_mutex := None;
               log := {| created := [t0]; enqueued := [t0]; added := [];
                         args_destroyed := 0; tasks_freed := 0 |} |} in
  ∃ sh1 sh2 t1 sh3 sh4 t2 sh5,
    run_process_node 6 Main 0 0 sh SeedLock = Some sh1 ∧
    visited sh1 = [PROCESSING] ∧ task_idx <$> head (tp sh1) = [0; 0] ∧
    run_dequeue_task 5 (Worker 0) sh1 DeqLock = Some (sh2, Some t1) ∧
    run_execute isolated_node 5 (Worker 0) 0 (argument t1) sh2 ExecLock = Some sh3 ∧
    sum sh3 = 7%Z ∧ visited sh3 = [DONE] ∧
    run_dequeue_task 5 (Worker 0) sh3 DeqLock = Some (sh4, Some t2) ∧
    run_execute isolated_node 3 (Worker 0) 0 (argument t2) sh4 ExecLock = Some sh5 ∧
    head (tp sh5) = [] ∧ sum sh5 = 7%Z ∧ added (log sh5) = [0] ∧ visited sh5 = [DONE].
Proof.
  intros t0 sh. eexists _, _, _, _, _, _, _.
  split; [vm_compute; reflexivity|]. split; [reflexivity|]. split; [reflexivity|].
  split; [vm_compute; reflexivity|]. split; [vm_compute; reflexivity|].
  split; [reflexivity|]. split; [reflexivity|].
  split; [vm_compute; reflexivity|]. split; [vm_compute; reflexivity|].
  repeat split; reflexivity.
Qed.

(** The budget of the initial state. *)
Lemma measure_init nodes n :
  measure nodes n (init nodes n) = 13 + 8 * n + task_cost (max_degree nodes) * length nodes.
Proof.
  unfold measure. simpl.
  assert (Hw : ∀ D, sum_list (worker_cost D 0 <$> replicate n NotCreated) = 0).
  { intros D. induction n as [|k IH]; [done|]. exact IH. }
  assert (Hc : ∀ k, count_unvisited (replicate k NOT_VISITED) = k).
  { intros k. unfold count_unvisited. induction k as [|k IH]; [done|].
    simpl replicate. rewrite filter_cons, decide_True by done. simpl length. by rewrite IH. }
  rewrite Hw, Hc. lia.
Qed.

(** C4 (as amended).  On every graph that has at least one node and whose
    neighbour indices name nodes, cycles or not, the program terminates under
    every schedule: a run executes at most
    13 + 8 * NUM_THREADS + (16 + 5 * max_degree) * |nodes| statements (a
    [pthread_cond_wait] returning only after a signal or broadcast), makes
    at most one task per node, never reaches a state in which no thread can
    run before [main] has returned, and can always be continued until [main]
    returns; once [wait_for_completion] has returned every worker has left
    its loop.  On the two-node cycle with weights 1 and 2, with at least one
    worker, [main] prints 3 after making two tasks. *)
Theorem traversal_terminates (nodes : list os_node_t) (NUM_THREADS : nat)
    (sched : list label) (s : state) :
  graph_wf nodes → 0 < length nodes →
  run nodes NUM_THREADS sched (init nodes NUM_THREADS) = Some s →
  length sched ≤ 13 + 8 * NUM_THREADS + (16 + 5 * max_degree nodes) * length nodes ∧
  length (created (log (mem s))) ≤ length nodes ∧
  (¬ terminal s → ∃ l s', step nodes NUM_THREADS l s = Some s') ∧
  (∃ sched' s', run nodes NUM_THREADS sched' s = Some s' ∧ terminal s') ∧
  (after_join (main s) = true → Forall (fun pc => pc = LoopExit) (workers s)) ∧
  (nodes = cycle_graph → 0 < NUM_THREADS → terminal s →
   output s = Some 3%Z ∧ length (created (log (mem s))) = 2).
Proof.
  intros Hwf Hn Hrun.
  destruct (reach_inv _ _ _ _ Hrun) as (Hinv & Hg & Ha).
  split; [|split; [|split; [|split; [|split]]]].
  - pose proof (measure_run _ _ _ _ _ (inv_init nodes NUM_THREADS) Hrun) as Hm.
    rewrite measure_init in Hm. unfold task_cost in Hm. lia.
  - by apply created_bound with NUM_THREADS.
  - intros Ht. destruct (progress nodes NUM_THREADS s) as (l & s' & Hs); try done.
    by exists l, s'.
  - by apply run_to_terminal.
  - apply Hinv.
  - intros -> Hpos Ht.
    pose proof (reach_inv_pending _ _ _ _ Hpos Hrun) as Hp.
    destruct (final_sum _ _ _ Hinv Hg Hp) as (Hnd & Hadd & Hsum); [by rewrite Ht|].
    assert (Hperm : added (log (mem s)) ≡ₚ [0; 1]).
    { apply NoDup_Permutation; [done|repeat constructor; set_solver|].
      intros v. rewrite Hadd.
      by rewrite <- (reachable_two cycle_graph _ _ eq_refl eq_refl (or_intror eq_refl)). }
    split.
    + rewrite (ia_output _ _ Ha Ht), Hsum, (sum_weights_perm _ _ _ Hperm). done.
    + rewrite <- (length_fmap task_idx).
      assert (Hc : task_idx <$> created (log (mem s)) ≡ₚ [0; 1]).
      { apply NoDup_Permutation; [apply Hg|repeat constructor; set_solver|].
        intros v. rewrite (ig_created _ _ Hg).
        rewrite (reachable_two cycle_graph _ _ eq_refl eq_refl (or_intror eq_refl)).
        rewrite <- (final_done _ _ s v Hinv Hg Hp) by (by rewrite Ht).
        split.
        - intros (st & Hv & Hst).
          pose proof (final_no_processing _ _ s v Hinv Hp) as Hnp.
          destruct st; try done. destruct Hnp; [by rewrite Ht|done].
        - intros Hv. by exists DONE. }
      by rewrite Hc.
Qed.

(** The two-node cycle with four workers, one thread after the other. *)
Lemma traversal_terminates_cycle :
  ∃ s, run cycle_graph 4 (sequential_4 32) (init cycle_graph 4) = Some s ∧
       terminal s ∧
       length (sequential_4 32) ≤ 13 + 8 * 4 + (16 + 5 * max_degree cycle_graph) * 2 ∧
       output s = Some 3%Z ∧
       workers s = [LoopExit; LoopExit; LoopExit; LoopExit].
Proof.
  eexists. split; [vm_compute; reflexivity|]. split; [reflexivity|].
  pose proof (traversal_terminates cycle_graph 4 (sequential_4 32) _
    ltac:(repeat constructor) ltac:(simpl; lia) ltac:(vm_compute; reflexivity)) as H.
  split; [exact (proj1 H)|]. split; [|reflexivity].
  apply H; [reflexivity|lia|reflexivity].
Defined.

(** C8.  In every run of [main]: a thread that acquires the graph mutex
    holds no queue mutex, before or after; a thread that acquires the queue
    mutex and then holds both already held the graph mutex, and is inside the
    [enqueue_task] called by [execute] or [process_node], as is any thread
    that holds both; and the thread that holds the queue mutex is never
    blocked, so no thread waits for the graph mutex while it keeps others
    waiting for the queue mutex. *)
Theorem lock_ordering (nodes : list os_node_t) (NUM_THREADS : nat)
    (sched : list label) (s : state) (l : label) (s' : state) (t : thread_id) :
  run nodes NUM_THREADS sched (init nodes NUM_THREADS) = Some s →
  step nodes NUM_THREADS l s = Some s' →
  (graph_mutex (mem s') = Some t → graph_mutex (mem s) ≠ Some t →
     t = who l ∧ graph_mutex (mem s) = None ∧
     mutex (tp (mem s)) ≠ Some t ∧ mutex (tp (mem s')) ≠ Some t) ∧
  (mutex (tp (mem s')) = Some t → mutex (tp (mem s)) ≠ Some t →
     t = who l ∧ mutex (tp (mem s)) = None ∧
     (graph_mutex (mem s') = Some t →
        graph_mutex (mem s) = Some t ∧ holder enqueuing_main enqueuing s' t = true)) ∧
  (graph_mutex (mem s) = Some t → mutex (tp (mem s)) = Some t →
     holder enqueuing_main enqueuing s t = true) ∧
  (mutex (tp (mem s)) = Some t →
     holder wants_g_main wants_g s t = false ∧
     is_Some (step nodes NUM_THREADS {| who := t; pick := 0 |} s)).
Proof.
  intros Hrun Hstep.
  destruct (reach_inv _ _ _ _ Hrun) as (Hinv & Hg & Ha).
  pose proof (inv_step _ _ _ _ _ Hinv Hstep) as Hinv'.
  split; [|split; [|split]].
  - exact (graph_lock_step nodes NUM_THREADS l s s' t Hinv Hstep).
  - intros Hq' Hq.
    destruct (queue_lock_step _ _ _ _ _ _ Hinv Hstep Hq' Hq) as (-> & Hnone & Heq).
    repeat split; [done|by rewrite <- Heq|]. by eapply both_locks.
  - by eapply both_locks.
  - intros Hq. split; [|by eapply holder_enabled].
    apply (inv_q _ _ _ Hinv) in Hq. destruct t as [|i]; simpl in *.
    + by destruct (main s) as [?|[| |? [| |]|]|[| | |?]| | |].
    + destruct (workers s !! i) as [pc|]; simpl in *; [|done].
      by destruct pc as [|[| | | | |?]|? [| | |?|?|? ? [| |]|]|?|].
Qed.

(** Worker 0 takes the queue mutex inside [execute], holding the graph
    mutex. *)
Lemma lock_ordering_enqueue :
  ∃ s s',
    run cycle_graph 4 (sched_of Main 14 ++ sched_of (Worker 0) 10) (init cycle_graph 4) = Some s ∧
    step cycle_graph 4 {| who := Worker 0; pick := 0 |} s = Some s' ∧
    graph_mutex (mem s) = Some (Worker 0) ∧ mutex (tp (mem s)) = None ∧
    graph_mutex (mem s') = Some (Worker 0) ∧ mutex (tp (mem s')) = Some (Worker 0) ∧
    holder enqueuing_main enqueuing s' (Worker 0) = true.
Proof.
  eexists _, _. split; [vm_compute; reflexivity|]. split; [vm_compute; reflexivity|].
  do 4 (split; [reflexivity|]).
  match goal with
  | |- holder _ _ ?s1 _ = true =>
      pose proof (lock_ordering cycle_graph 4 (sched_of Main 14 ++ sched_of (Worker 0) 10) _
                    {| who := Worker 0; pick := 0 |} s1 (Worker 0)
                    ltac:(vm_compute; reflexivity) ltac:(vm_compute; reflexivity)) as H
  end.
  apply H; [reflexivity|discriminate|reflexivity].
Defined.

(** ** Further properties of the code

    The queue and its history *)

Section QueueProofs.
Variable nodes : list os_node_t.
Variable NUM_THREADS : nat.
Local Abbreviation inv := (inv nodes NUM_THREADS).
Local Abbreviation step := (step nodes NUM_THREADS).
Local Abbreviation run := (run nodes NUM_THREADS).
Local Abbreviation init := (init nodes NUM_THREADS).

Ltac holds_q_now :=
  match goal with
  | Hq : lock_ok ?m _ |- ?m = Some ?t =>
      apply (proj2 (Hq t)); simpl;
      try match goal with Hpc : _ !! _ = Some _ |- _ => rewrite Hpc end; reflexivity
  end.

(** What one statement does to the queue, its counter and the history of
    enqueues. *)
Lemma queue_step l s s' :
  inv s → step l s = Some s' →
  (head (tp (mem s')) = head (tp (mem s)) ∧
   tasks_added (tp (mem s')) = tasks_added (tp (mem s)) ∧
   enqueued (log (mem s')) = enqueued (log (mem s))) ∨
  (∃ t, mutex (tp (mem s)) = Some (who l) ∧
     head (tp (mem s')) = head (tp (mem s)) ++ [t] ∧
     tasks_added (tp (mem s')) = S (tasks_added (tp (mem s))) ∧
     enqueued (log (mem s')) = enqueued (log (mem s)) ++ [t]) ∨
  (∃ t, mutex (tp (mem s)) = Some (who l) ∧
     head (tp (mem s)) = t :: head (tp (mem s')) ∧
     tasks_added (tp (mem s')) = tasks_added (tp (mem s)) ∧
     enqueued (log (mem s')) = enqueued (log (mem s))) ∨
  (main s = MainDestroy ∧ who l = Main ∧ head (tp (mem s')) = [] ∧
   tasks_added (tp (mem s')) = tasks_added (tp (mem s)) ∧
   enqueued (log (mem s')) = enqueued (log (mem s))).
Proof.
  intros Hinv H. inv_start Hinv H.
  all: try (left; done).
  - right; left. exists t. repeat split; try done. holds_q_now.
  - right; right; right. destruct (destroy_tasks_log (head p) lg) as (_ & -> & _). done.
  - right; right; left. exists o. repeat split; try done. holds_q_now.
  - right; left. exists nt. repeat split; try done. holds_q_now.
Qed.

(** The condition variable is written by the holder of the queue mutex
    only. *)
Lemma cond_step l s s' :
  inv s → step l s = Some s' →
  cond (tp (mem s')) = cond (tp (mem s)) ∨ mutex (tp (mem s)) = Some (who l).
Proof.
  intros Hinv H. inv_start Hinv H.
  all: try (left; done).
  all: right; holds_q_now.
Qed.

(** The counter counts the enqueues, and the queue is what is left of the
    enqueued tasks after a number of them were taken from the front. *)
Lemma queue_history_step l s s' :
  inv s → step l s = Some s' →
  (tasks_added (tp (mem s)) = length (enqueued (log (mem s))) ∧
   ∃ k, k ≤ length (enqueued (log (mem s))) ∧
        head (tp (mem s)) = drop k (enqueued (log (mem s)))) →
  tasks_added (tp (mem s')) = length (enqueued (log (mem s'))) ∧
  ∃ k, k ≤ length (enqueued (log (mem s'))) ∧
       head (tp (mem s')) = drop k (enqueued (log (mem s'))).
Proof.
  intros Hinv H (Hta & k & Hk & Hh).
  destruct (queue_step _ _ _ Hinv H)
    as [(-> & -> & ->)|[(t & _ & -> & -> & ->)|[(t & _ & Ht & -> & ->)|(_ & _ & -> & -> & ->)]]].
  - eauto.
  - rewrite length_app. simpl. split; [lia|]. exists k. split; [lia|].
    rewrite drop_app_le by lia. by rewrite <- Hh.
  - split; [done|]. exists (S k). rewrite Ht in Hh.
    assert (k < length (enqueued (log (mem s)))).
    { destruct (decide (k < length (enqueued (log (mem s))))); [done|].
      rewrite drop_ge in Hh by lia. done. }
    split; [lia|]. replace (S k) with (k + 1) by lia.
    by rewrite <- (drop_drop _ 1 k), <- Hh.
  - split; [done|]. exists (length (enqueued (log (mem s)))). split; [done|].
    by rewrite drop_all.
Qed.

Lemma queue_history_run sched s :
  run sched init = Some s →
  tasks_added (tp (mem s)) = length (enqueued (log (mem s))) ∧
  ∃ k, k ≤ length (enqueued (log (mem s))) ∧
       head (tp (mem s)) = drop k (enqueued (log (mem s))).
Proof.
  assert (Hgen : ∀ s0, inv s0 →
    (tasks_added (tp (mem s0)) = length (enqueued (log (mem s0))) ∧
     ∃ k, k ≤ length (enqueued (log (mem s0))) ∧
          head (tp (mem s0)) = drop k (enqueued (log (mem s0)))) →
    run sched s0 = Some s →
    tasks_added (tp (mem s)) = length (enqueued (log (mem s))) ∧
    ∃ k, k ≤ length (enqueued (log (mem s))) ∧
         head (tp (mem s)) = drop k (enqueued (log (mem s)))).
  { induction sched as [|l sched IH]; intros s0 Hinv H0 H; simpl in H.
    - by simplify_eq.
    - apply bind_Some in H as (s1 & Hs & H).
      eapply IH; [by eapply inv_step|by eapply queue_history_step|done]. }
  apply Hgen; [apply inv_init|]. simpl. split; [done|]. exists 0. done.
Qed.
End QueueProofs.

(** ** The condition variable *)

(** The waiters stay waiters when a thread that is not blocked among them
    moves, and the list loses threads or gains the one that starts to wait. *)
Lemma cond_ok_update (c c' : list thread_id) (ws : list worker_pc) i pc pc' :
  ws !! i = Some pc →
  (pc = LoopDeq DeqWait → Worker i ∉ c) →
  NoDup c ∧ (∀ t, t ∈ c → ∃ j, t = Worker j ∧ ws !! j = Some (LoopDeq DeqWait)) →
  c' `sublist_of` c ∨ (c' = c ++ [Worker i] ∧ pc' = LoopDeq DeqWait ∧ pc ≠ LoopDeq DeqWait) →
  NoDup c' ∧
  (∀ t, t ∈ c' → ∃ j, t = Worker j ∧ <[i:=pc']> ws !! j = Some (LoopDeq DeqWait)).
Proof.
  intros Hpc Hnw [Hnd Hc] Hc'.
  assert (Hold : ∀ t, t ∈ c →
            ∃ j, t = Worker j ∧ <[i:=pc']> ws !! j = Some (LoopDeq DeqWait)).
  { intros t Ht. destruct (Hc t Ht) as (j & -> & Hj). exists j. split; [done|].
    rewrite list_lookup_insert_ne; [done|]. intros <-. simplify_eq. by apply Hnw. }
  destruct Hc' as [Hsub|(-> & -> & Hne)].
  - split; [by eapply sublist_NoDup|]. intros t Ht. apply Hold.
    by eapply elem_of_sublist.
  - split.
    + apply NoDup_app. split; [done|]. split; [|apply NoDup_singleton].
      intros t Ht ->%list_elem_of_singleton. destruct (Hc _ Ht) as (j & [= <-] & Hj).
      by simplify_eq.
    + intros t [Ht| ->%list_elem_of_singleton]%elem_of_app; [by apply Hold|].
      exists i. split; [done|]. apply list_lookup_insert_eq. by eapply lookup_lt_Some.
Qed.

Section CondProofs.
Variable nodes : list os_node_t.
Variable NUM_THREADS : nat.
Local Abbreviation inv := (inv nodes NUM_THREADS).
Local Abbreviation step := (step nodes NUM_THREADS).
Local Abbreviation run := (run nodes NUM_THREADS).
Local Abbreviation init := (init nodes NUM_THREADS).

Lemma cond_ok_step l s s' :
  inv s → step l s = Some s' → cond_ok s → cond_ok s'.
Proof.
  intros Hinv H Hc. unfold cond_ok in *. inv_start Hinv H.
  all: try exact Hc.
  all: try (eapply cond_ok_update;
            [ exact Hpc | by intros | exact Hc
            | first [ left; first [reflexivity | apply sublist_delete] | right; done ] ]).
  - destruct (ws !! i) as [pc|] eqn:Hpc.
    + eapply cond_ok_update; [exact Hpc| |exact Hc|by left].
      intros ->. by destruct (proj2 (inv_create i eq_refl) i _ Hpc) as [_ Hnc]; specialize (Hnc (le_n _)).
    + rewrite list_insert_ge; [done|]. by apply lookup_ge_None.
  - destruct Hc as [Hnd Hc]. unfold cond_signal. split.
    + eapply sublist_NoDup; [exact Hnd|apply sublist_delete].
    + intros t0 Ht. apply Hc. eapply elem_of_sublist; [exact Ht|apply sublist_delete].
  - unfold cond_broadcast. split; [apply NoDup_nil_2|]. by intros t ?%elem_of_nil.
Qed.

Lemma cond_ok_run sched s : run sched init = Some s → cond_ok s.
Proof.
  assert (Hgen : ∀ s0, inv s0 → cond_ok s0 → run sched s0 = Some s → cond_ok s).
  { induction sched as [|l sched IH]; intros s0 Hinv H0 H; simpl in H.
    - by simplify_eq.
    - apply bind_Some in H as (s1 & Hs & H).
      eapply IH; [by eapply inv_step|by eapply cond_ok_step|done]. }
  apply Hgen; [apply inv_init|]. split; simpl; [apply NoDup_nil_2|].
  by intros t ?%elem_of_nil.
Qed.
End CondProofs.

(** ** [create_threadpool] *)

(** Running one schedule after another. *)
Lemma run_app nodes n (a b : list label) s :
  run nodes n (a ++ b) s = run nodes n a s ≫= run nodes n b.
Proof.
  revert s. induction a as [|l a IH]; intros s; simpl; [done|].
  destruct (step nodes n l s) as [s1|]; simpl; [apply IH|done].
Qed.

(** The thread-creation loop of [create_threadpool], run on its own. *)
Lemma create_loop nodes n i :
  i ≤ n →
  run nodes n (sched_of Main i) (init nodes n)
    = Some {| mem := init_shared nodes; main := MainCreate i;
              workers := replicate i (LoopDeq DeqLock) ++ replicate (n - i) NotCreated;
              output := None |}.
Proof.
  induction i as [|i IH]; intros Hi.
  - simpl. by rewrite Nat.sub_0_r.
  - unfold sched_of in *. rewrite replicate_S_end, run_app, IH by lia. simpl.
    unfold step, step_main. simpl. rewrite decide_True by lia. do 2 f_equal.
    replace (n - i) with (S (n - S i)) by lia. simpl.
    rewrite insert_app_r_alt by (rewrite length_replicate; lia).
    rewrite length_replicate, Nat.sub_diag. simpl.
    rewrite cons_middle, app_assoc, <- replicate_S_end. done.
Qed.

(** X1.  [create_threadpool] starts the threads in index order: while its
    loop is at index [i], exactly the slots below [i] hold a running worker,
    and once it has returned all NUM_THREADS workers run.  Run without
    interruption, the loop takes NUM_THREADS + 1 statements and leaves the
    queue empty, the counter at zero and every worker at the start of its
    first [dequeue_task]. *)
Theorem create_threadpool_starts_workers (nodes : list os_node_t) (NUM_THREADS : nat)
    (sched : list label) (s : state) :
  run nodes NUM_THREADS sched (init nodes NUM_THREADS) = Some s →
  length (workers s) = NUM_THREADS ∧
  (∀ i, main s = MainCreate i →
     i ≤ NUM_THREADS ∧ ∀ j pc, workers s !! j = Some pc → (pc = NotCreated ↔ i ≤ j)) ∧
  ((∀ i, main s ≠ MainCreate i) → Forall (fun pc => pc ≠ NotCreated) (workers s)) ∧
  run nodes NUM_THREADS (sched_of Main (S NUM_THREADS)) (init nodes NUM_THREADS)
    = Some {| mem := init_shared nodes; main := MainSeed SeedLock;
              workers := replicate NUM_THREADS (LoopDeq DeqLock); output := None |}.
Proof.
  intros Hrun. destruct (reach_inv _ _ _ _ Hrun) as (Hinv & _ & _).
  split; [apply Hinv|]. split; [apply Hinv|]. split; [apply Hinv|].
  unfold sched_of. rewrite replicate_S_end, run_app.
  pose proof (create_loop nodes NUM_THREADS NUM_THREADS (le_n _)) as Hc.
  unfold sched_of in Hc. rewrite Hc. simpl. unfold step, step_main. simpl.
  rewrite decide_False by lia. rewrite Nat.sub_diag. simpl. by rewrite app_nil_r.
Qed.

(** Two of four threads started. *)
Lemma create_threadpool_starts_workers_two :
  ∃ s, run cycle_graph 4 (sched_of Main 2) (init cycle_graph 4) = Some s ∧
       main s = MainCreate 2 ∧
       workers s = [LoopDeq DeqLock; LoopDeq DeqLock; NotCreated; NotCreated] ∧
       length (workers s) = 4 ∧
       (∀ i, main s = MainCreate i →
          i ≤ 4 ∧ ∀ j pc, workers s !! j = Some pc → (pc = NotCreated ↔ i ≤ j)).
Proof.
  eexists. split; [vm_compute; reflexivity|]. split; [reflexivity|]. split; [reflexivity|].
  pose proof (create_threadpool_starts_workers cycle_graph 4 (sched_of Main 2) _
                ltac:(vm_compute; reflexivity)) as H.
  split; [exact (proj1 H)|exact (proj1 (proj2 H))].
Defined.

(** X2.  Until the first task is linked into the queue, the queue is empty,
    the counter is zero, nothing was enqueued, and every worker is either not
    started or inside its first [dequeue_task], at or before the wait: the
    [while] of [dequeue_task] lets no worker return, and so none leaves its
    loop, before a task exists. *)
Theorem idle_until_first_enqueue (nodes : list os_node_t) (NUM_THREADS : nat)
    (sched : list label) (s : state) :
  run nodes NUM_THREADS sched (init nodes NUM_THREADS) = Some s →
  before_seed (main s) = true →
  tasks_added (tp (mem s)) = 0 ∧ head (tp (mem s)) = [] ∧
  enqueued (log (mem s)) = [] ∧
  Forall (fun pc => idle pc = true) (workers s).
Proof.
  intros Hrun Hm. destruct (reach_inv _ _ _ _ Hrun) as (Hinv & _ & _).
  destruct (inv_before_seed _ _ _ Hinv Hm) as (Hta & Hh & Hidle).
  destruct (queue_history_run _ _ _ _ Hrun) as (Hlen & _).
  repeat split; try done. apply nil_length_inv. by rewrite <- Hlen.
Qed.

(** Four workers started, two of them already at the wait, no task yet. *)
Lemma idle_until_first_enqueue_waiting :
  ∃ s, run cycle_graph 4 (sched_of Main 5 ++ sched_of (Worker 0) 2 ++ sched_of (Worker 1) 2)
         (init cycle_graph 4) = Some s ∧
       workers s = [LoopDeq DeqWait; LoopDeq DeqWait; LoopDeq DeqLock; LoopDeq DeqLock] ∧
       tasks_added (tp (mem s)) = 0 ∧ head (tp (mem s)) = [] ∧
       enqueued (log (mem s)) = [] ∧
       Forall (fun pc => idle pc = true) (workers s).
Proof.
  eexists. split; [vm_compute; reflexivity|]. split; [reflexivity|].
  apply (idle_until_first_enqueue cycle_graph 4
           (sched_of Main 5 ++ sched_of (Worker 0) 2 ++ sched_of (Worker 1) 2)).
  - vm_compute. reflexivity.
  - reflexivity.
Defined.

(** X3.  The queue, its counter and the condition variable are written
    under the queue mutex: a statement that changes one of them is run by the
    thread that holds the mutex, the one exception being the drain of
    [destroy_threadpool], which runs when every worker has left its loop and
    the mutex is free.  No two threads are inside a critical section of the
    queue mutex at once. *)
Theorem queue_written_under_mutex (nodes : list os_node_t) (NUM_THREADS : nat)
    (sched : list label) (s : state) (l : label) (s' : state) :
  run nodes NUM_THREADS sched (init nodes NUM_THREADS) = Some s →
  step nodes NUM_THREADS l s = Some s' →
  (head (tp (mem s')) ≠ head (tp (mem s)) ∨
   tasks_added (tp (mem s')) ≠ tasks_added (tp (mem s)) ∨
   cond (tp (mem s')) ≠ cond (tp (mem s)) →
   mutex (tp (mem s)) = Some (who l) ∨
   (main s = MainDestroy ∧ who l = Main ∧ mutex (tp (mem s)) = None ∧
    Forall (fun pc => pc = LoopExit) (workers s))) ∧
  (∀ t1 t2, holder holds_q_main holds_q s t1 = true →
            holder holds_q_main holds_q s t2 = true → t1 = t2).
Proof.
  intros Hrun Hstep. destruct (reach_inv _ _ _ _ Hrun) as (Hinv & _ & _). split.
  - intros Hch.
    destruct (queue_step _ _ _ _ _ Hinv Hstep)
      as [(Hh & Hta & _)|[(t & Hq & _)|[(t & Hq & _)|(Hm & Hl & _)]]]; [|by left..|].
    + destruct (cond_step _ _ _ _ _ Hinv Hstep) as [Hc|Hq]; [|by left].
      by destruct Hch as [?|[?|?]].
    + right. repeat split; try done.
      * destruct (mutex (tp (mem s))) as [t|] eqn:Hq; [|done].
        apply (inv_q _ _ _ Hinv) in Hq. destruct t as [|i]; simpl in Hq.
        { by rewrite Hm in Hq. }
        destruct (workers s !! i) as [pc|] eqn:Hpc; [|done].
        pose proof (inv_after_join _ _ _ Hinv) as Hex. rewrite Hm in Hex.
        by rewrite (Forall_lookup_1 _ _ _ _ (Hex eq_refl) Hpc) in Hq.
      * apply (inv_after_join _ _ _ Hinv). by rewrite Hm.
  - intros t1 t2. apply (lock_ok_excl _ _ _ _ (inv_q _ _ _ Hinv)).
Qed.

(** Worker 0 unlinks the seed task, holding the queue mutex. *)
Lemma queue_written_under_mutex_pop :
  ∃ s s',
    run cycle_graph 4 (sched_of Main 14 ++ sched_of (Worker 0) 3) (init cycle_graph 4) = Some s ∧
    step cycle_graph 4 {| who := Worker 0; pick := 0 |} s = Some s' ∧
    length (head (tp (mem s))) = 1 ∧ head (tp (mem s')) = [] ∧
    mutex (tp (mem s)) = Some (Worker 0).
Proof.
  eexists _, _. split; [vm_compute; reflexivity|]. split; [vm_compute; reflexivity|].
  split; [reflexivity|]. split; [reflexivity|].
  match goal with
  | |- mutex (tp (mem ?s0)) = _ =>
      pose proof (queue_written_under_mutex cycle_graph 4
                    (sched_of Main 14 ++ sched_of (Worker 0) 3) s0
                    {| who := Worker 0; pick := 0 |} _
                    ltac:(vm_compute; reflexivity) ltac:(vm_compute; reflexivity)) as H
  end.
  destruct (proj1 H) as [Hq|(Hm & _)].
  - left. discriminate.
  - exact Hq.
  - discriminate Hm.
Defined.





(** X6.  With at least one worker, the nodes in PROCESSING are at every
    moment exactly the nodes that have a task waiting for its [execute] test:
    in the queue, being enqueued, or dequeued and not yet tested; and no node
    has two such tasks. *)
Theorem frontier_is_pending_tasks (nodes : list os_node_t) (NUM_THREADS : nat)
    (sched : list label) (s : state) :
  0 < NUM_THREADS →
  run nodes NUM_THREADS sched (init nodes NUM_THREADS) = Some s →
  NoDup (task_idx <$> pending s) ∧
  (∀ v, v ∈ task_idx <$> pending s ↔ visited (mem s) !! v = Some PROCESSING).
Proof.
  intros Hn Hrun. exact (ip_pending _ (reach_inv_pending _ _ _ _ Hn Hrun)).
Qed.

(** The star graph after the centre was executed: the leaves are PROCESSING
    and queued. *)
Lemma frontier_is_pending_tasks_star :
  ∃ s, run star_graph 4 (sched_of Main 14 ++ sched_of (Worker 0) 26) (init star_graph 4)
         = Some s ∧
       visited (mem s) = [DONE; PROCESSING; PROCESSING; PROCESSING] ∧
       task_idx <$> pending s = [1; 2; 3] ∧
       (∀ v, v ∈ task_idx <$> pending s ↔ visited (mem s) !! v = Some PROCESSING).
Proof.
  eexists. split; [vm_compute; reflexivity|]. split; [reflexivity|]. split; [reflexivity|].
  apply (frontier_is_pending_tasks star_graph 4
           (sched_of Main 14 ++ sched_of (Worker 0) 26)); [lia|].
  vm_compute. reflexivity.
Defined.

(** X7.  With at least one worker, queued work is never stranded by workers
    that left early: whenever the queue is not empty, some worker is still
    inside its loop at a point from which it calls [dequeue_task] again; and
    when [wait_for_completion] has returned the queue is empty. *)
Theorem queued_work_has_a_worker (nodes : list os_node_t) (NUM_THREADS : nat)
    (sched : list label) (s : state) :
  0 < NUM_THREADS →
  run nodes NUM_THREADS sched (init nodes NUM_THREADS) = Some s →
  (head (tp (mem s)) ≠ [] → ∃ k pc, workers s !! k = Some pc ∧ active pc = true) ∧
  (after_join (main s) = true → head (tp (mem s)) = []).
Proof.
  intros Hn Hrun. destruct (reach_inv _ _ _ _ Hrun) as (Hinv & _ & _).
  pose proof (reach_inv_pending _ _ _ _ Hn Hrun) as Hp.
  split; [apply Hp|]. by apply final_queue_empty with nodes NUM_THREADS.
Qed.

(** The star graph when workers 1, 2 and 3 have found the queue empty and
    left while worker 0 was executing the centre: the three leaves are queued
    and worker 0 is there to serve them. *)
Lemma queued_work_has_a_worker_star :
  ∃ s, run star_graph 4
         (sched_of Main 14 ++ sched_of (Worker 0) 8 ++ sched_of (Worker 1) 4 ++
          sched_of (Worker 2) 4 ++ sched_of (Worker 3) 4 ++ sched_of (Worker 0) 18)
         (init star_graph 4) = Some s ∧
       workers s = [LoopDeq DeqLock; LoopExit; LoopExit; LoopExit] ∧
       length (head (tp (mem s))) = 3 ∧
       ∃ k pc, workers s !! k = Some pc ∧ active pc = true.
Proof.
  eexists. split; [vm_compute; reflexivity|]. split; [reflexivity|]. split; [reflexivity|].
  apply (queued_work_has_a_worker star_graph 4
           (sched_of Main 14 ++ sched_of (Worker 0) 8 ++ sched_of (Worker 1) 4 ++
            sched_of (Worker 2) 4 ++ sched_of (Worker 3) 4 ++ sched_of (Worker 0) 18)).
  - lia.
  - vm_compute. reflexivity.
  - discriminate.
Defined.

(** X8.  A node that no path from node 0 leads to is never touched: its
    status stays NOT_VISITED, its weight is never added and no task is ever
    made for it, at any moment of any run. *)
Theorem unreachable_untouched (nodes : list os_node_t) (NUM_THREADS : nat)
    (sched : list label) (s : state) (v : nat) :
  run nodes NUM_THREADS sched (init nodes NUM_THREADS) = Some s →
  v < length nodes → ¬ reachable nodes 0 v →
  visited (mem s) !! v = Some NOT_VISITED ∧
  (v ∉ added (log (mem s))) ∧
  v ∉ (task_idx <$> created (log (mem s))).
Proof.
  intros Hrun Hv Hnr. destruct (reach_inv _ _ _ _ Hrun) as (Hinv & Hg & _).
  assert (Hnv : ¬ visited_at (visited (mem s)) v).
  { intros Hat. by apply Hnr, (ig_reach _ _ Hg). }
  assert (Hst : visited (mem s) !! v = Some NOT_VISITED).
  { destruct (lookup_lt_is_Some_2 (visited (mem s)) v) as [st Hst].
    - by rewrite (inv_visited _ _ _ Hinv).
    - destruct (decide (st = NOT_VISITED)) as [->|Hne]; [done|]. destruct Hnv. by exists st. }
  split; [done|]. split.
  - intros Hin. apply (ig_added _ _ Hg) in Hin. congruence.
  - intros Hin. by apply (ig_created _ _ Hg) in Hin.
Qed.

(** A two-node cycle and a third node that points at itself: the run ends
    with the third node untouched and prints 3. *)
Lemma unreachable_untouched_detached :
  ∃ s, run detached_graph 4 (sequential_4 32) (init detached_graph 4) = Some s ∧
       terminal s ∧ output s = Some 3%Z ∧
       visited (mem s) !! 2 = Some NOT_VISITED ∧
       (2 ∉ added (log (mem s))) ∧
       2 ∉ (task_idx <$> created (log (mem s))).
Proof.
  eexists. split; [vm_compute; reflexivity|]. split; [reflexivity|]. split; [reflexivity|].
  apply (unreachable_untouched detached_graph 4 (sequential_4 32)).
  - vm_compute. reflexivity.
  - simpl. lia.
  - intros Hr. apply (reachable_enum detached_graph [0; 1]) in Hr.
    + set_solver.
    + set_solver.
    + intros u n w Hu Hn Hw.
      repeat (apply elem_of_cons in Hu as [->|Hu]); simplify_eq/=; set_solver.
Defined.



Section MoreProofs.
Variable nodes : list os_node_t.
Variable NUM_THREADS : nat.
Local Abbreviation inv := (inv nodes NUM_THREADS).
Local Abbreviation step := (step nodes NUM_THREADS).
Local Abbreviation run := (run nodes NUM_THREADS).
Local Abbreviation init := (init nodes NUM_THREADS).

(** Without a node 0, [main] does not get past the claim of [process_node]. *)
Lemma empty_graph_step l s s' :
  length nodes = 0 → inv s → step l s = Some s' →
  before_claim (main s) = true → before_claim (main s') = true.
Proof.
  intros Hn Hinv H. inv_start Hinv H; intros Hb; try done.
  destruct (inv_before_claim eq_refl) as (-> & _). rewrite Hn in *. done.
Qed.

Lemma empty_graph_run sched s :
  length nodes = 0 → run sched init = Some s → before_claim (main s) = true.
Proof.
  intros Hn.
  assert (Hgen : ∀ s0, inv s0 → before_claim (main s0) = true → run sched s0 = Some s →
                       before_claim (main s) = true).
  { induction sched as [|l sched IH]; intros s0 Hinv H0 H; simpl in H.
    - by simplify_eq.
    - apply bind_Some in H as (s1 & Hs & H).
      eapply IH; [by eapply inv_step|by eapply empty_graph_step|done]. }
  apply Hgen; [apply inv_init|done].
Qed.
End MoreProofs.



(** X11.  With at least one worker, when [wait_for_completion] has returned
    every task that was made has been enqueued, dequeued and executed, once
    each: the tasks made are the tasks enqueued, the queue is empty, and the
    nodes the tasks were made for are the nodes whose weight was added. *)
Theorem every_task_executed_once (nodes : list os_node_t) (NUM_THREADS : nat)
    (sched : list label) (s : state) :
  0 < NUM_THREADS →
  run nodes NUM_THREADS sched (init nodes NUM_THREADS) = Some s →
  after_join (main s) = true →
  created (log (mem s)) ≡ₚ enqueued (log (mem s)) ∧
  head (tp (mem s)) = [] ∧
  task_idx <$> created (log (mem s)) ≡ₚ added (log (mem s)).
Proof.
  intros Hn Hrun Hm. destruct (reach_inv _ _ _ _ Hrun) as (Hinv & Hg & _).
  pose proof (reach_inv_pending _ _ _ _ Hn Hrun) as Hp.
  split; [|split].
  - rewrite (ig_enqueued _ _ Hg). unfold held_new.
    rewrite (bind_nil_all new_task (workers s)).
    + destruct (main s) as [?|[]|[]| | |]; simpl in *; try done; by rewrite app_nil_r.
    + eapply Forall_impl; [exact (inv_after_join _ _ _ Hinv Hm)|]. by intros ? ->.
  - by eapply final_queue_empty.
  - apply NoDup_Permutation; [apply Hg..|]. intros v.
    rewrite (ig_created _ _ Hg), (ig_added _ _ Hg). split.
    + intros (st & Hv & Hst).
      pose proof (final_no_processing _ _ s v Hinv Hp Hm). destruct st; congruence.
    + intros Hv. by exists DONE.
Qed.

(** The star graph, run to the end. *)
Lemma every_task_executed_once_star :
  ∃ s, run star_graph 4 (sequential_4 66) (init star_graph 4) = Some s ∧
       length (created (log (mem s))) = 4 ∧
       created (log (mem s)) ≡ₚ enqueued (log (mem s)) ∧
       head (tp (mem s)) = [] ∧
       task_idx <$> created (log (mem s)) ≡ₚ added (log (mem s)).
Proof.
  eexists. split; [vm_compute; reflexivity|]. split; [reflexivity|].
  apply (every_task_executed_once star_graph 4 (sequential_4 66)).
  - lia.
  - vm_compute. reflexivity.
  - reflexivity.
Defined.

(** X12.  When [wait_for_completion] has returned, and so when
    [destroy_threadpool] destroys the queue mutex and the condition variable
    and [main] destroys the graph mutex, no thread holds either mutex, no
    thread is blocked on the condition variable, and every worker has left
    its loop. *)
Theorem nothing_held_at_teardown (nodes : list os_node_t) (NUM_THREADS : nat)
    (sched : list label) (s : state) :
  run nodes NUM_THREADS sched (init nodes NUM_THREADS) = Some s →
  after_join (main s) = true →
  mutex (tp (mem s)) = None ∧ graph_mutex (mem s) = None ∧
  cond (tp (mem s)) = [] ∧
  Forall (fun pc => pc = LoopExit) (workers s).
Proof.
  intros Hrun Hm. destruct (reach_inv _ _ _ _ Hrun) as (Hinv & _ & _).
  pose proof (inv_after_join _ _ _ Hinv Hm) as Hex.
  assert (Hfree : ∀ (m : option thread_id) fm fw,
            lock_ok m (holder fm fw s) → fm (main s) = false → fw LoopExit = false →
            m = None).
  { intros m fm fw Hok Hfm Hfw. destruct m as [t|]; [|done].
    pose proof (proj1 (Hok t) eq_refl) as Ht. destruct t as [|i]; simpl in Ht; [congruence|].
    destruct (workers s !! i) as [pc|] eqn:Hpc; [|done].
    rewrite (Forall_lookup_1 _ _ _ _ Hex Hpc) in Ht. simpl in Ht. congruence. }
  split; [|split; [|split]]; [| | |done].
  - apply (Hfree _ _ _ (inv_q _ _ _ Hinv)); [|done].
    by destruct (main s) as [?|[]|[]| | |].
  - apply (Hfree _ _ _ (inv_g _ _ _ Hinv)); [|done].
    by destruct (main s) as [?|[]|[]| | |].
  - apply (inv_after_broadcast _ _ _ Hinv). by apply after_join_broadcast.
Qed.

(** The two-node cycle when [main] is about to call [destroy_threadpool]. *)
Lemma nothing_held_at_teardown_cycle :
  ∃ s, run cycle_graph 4
         (sched_of Main 14 ++ sched_of (Worker 0) 32 ++ sched_of (Worker 1) 4 ++
          sched_of (Worker 2) 4 ++ sched_of (Worker 3) 4 ++ sched_of Main 5)
         (init cycle_graph 4) = Some s ∧
       main s = MainDestroy ∧
       mutex (tp (mem s)) = None ∧ graph_mutex (mem s) = None ∧
       cond (tp (mem s)) = [] ∧
       Forall (fun pc => pc = LoopExit) (workers s).
Proof.
  eexists. split; [vm_compute; reflexivity|]. split; [reflexivity|].
  apply (nothing_held_at_teardown cycle_graph 4
           (sched_of Main 14 ++ sched_of (Worker 0) 32 ++ sched_of (Worker 1) 4 ++
            sched_of (Worker 2) 4 ++ sched_of (Worker 3) 4 ++ sched_of Main 5)).
  - vm_compute. reflexivity.
  - reflexivity.
Defined.

(** X13.  The condition variable holds no lost or stale waiter: the threads
    blocked on it are workers inside the [pthread_cond_wait] of
    [dequeue_task], each listed once; while [tasks_added] is zero every worker
    inside the wait is on it; and from the broadcast of [wait_for_completion]
    on it is empty and [tasks_added] is positive, so that a worker still
    inside the wait leaves it as soon as the queue mutex is free. *)
Theorem waiters_are_waiting_workers (nodes : list os_node_t) (NUM_THREADS : nat)
    (sched : list label) (s : state) :
  run nodes NUM_THREADS sched (init nodes NUM_THREADS) = Some s →
  NoDup (cond (tp (mem s))) ∧
  (∀ t, t ∈ cond (tp (mem s)) →
        ∃ i, t = Worker i ∧ workers s !! i = Some (LoopDeq DeqWait)) ∧
  (tasks_added (tp (mem s)) = 0 →
   ∀ i, workers s !! i = Some (LoopDeq DeqWait) → Worker i ∈ cond (tp (mem s))) ∧
  (after_broadcast (main s) = true →
   cond (tp (mem s)) = [] ∧ 0 < tasks_added (tp (mem s)) ∧
   ∀ i, workers s !! i = Some (LoopDeq DeqWait) → mutex (tp (mem s)) = None →
        is_Some (step nodes NUM_THREADS {| who := Worker i; pick := 0 |} s)).
Proof.
  intros Hrun. destruct (reach_inv _ _ _ _ Hrun) as (Hinv & _ & _).
  destruct (cond_ok_run _ _ _ _ Hrun) as [Hnd Hc].
  split; [done|]. split; [done|]. split; [apply Hinv|].
  intros Hm. pose proof (inv_after_broadcast _ _ _ Hinv Hm) as Hnil.
  split; [done|]. split.
  - apply (inv_seeded _ _ _ Hinv). by apply after_broadcast_seeded.
  - intros i Hpc Hq. unfold step. simpl. rewrite Hpc. simpl.
    rewrite decide_False by (rewrite Hnil; apply not_elem_of_nil). by rewrite Hq.
Qed.

(** Two workers at the wait before any task exists. *)
Lemma waiters_are_waiting_workers_two :
  ∃ s, run cycle_graph 4 (sched_of Main 5 ++ sched_of (Worker 0) 2 ++ sched_of (Worker 1) 2)
         (init cycle_graph 4) = Some s ∧
       cond (tp (mem s)) = [Worker 0; Worker 1] ∧
       NoDup (cond (tp (mem s))) ∧
       (∀ t, t ∈ cond (tp (mem s)) →
             ∃ i, t = Worker i ∧ workers s !! i = Some (LoopDeq DeqWait)).
Proof.
  eexists. split; [vm_compute; reflexivity|]. split; [reflexivity|].
  pose proof (waiters_are_waiting_workers cycle_graph 4
                (sched_of Main 5 ++ sched_of (Worker 0) 2 ++ sched_of (Worker 1) 2) _
                ltac:(vm_compute; reflexivity)) as H.
  split; [exact (proj1 H)|exact (proj1 (proj2 H))].
Defined.

(** C4 (as stated) fails on the graph with no node: [process_node(0)] writes
    [visited[0]], which that graph does not have.  With the four workers of
    [main], [main] gets to the write after six statements and has no next
    statement there, and no run at all reaches the return of [main]. *)
Lemma empty_graph_no_run_returns :
  graph_wf [] ∧
  (∃ s, run [] 4 (sched_of Main 6) (init [] 4) = Some s ∧
        main s = MainSeed SeedClaim ∧
        step [] 4 {| who := Main; pick := 0 |} s = None) ∧
  ¬ ∃ sched s, run [] 4 sched (init [] 4) = Some s ∧ terminal s.
Proof.
  split; [apply Forall_nil_2|]. split.
  - eexists. split; [vm_compute; reflexivity|]. split; reflexivity.
  - intros (sched & s & Hrun & Ht).
    pose proof (empty_graph_run [] 4 sched s eq_refl Hrun) as Hb.
    rewrite Ht in Hb. discriminate.
Qed.

(** X15.  With at least one worker the outcome does not depend on the
    schedule: two runs that both return print the same value and leave every
    node with the same status. *)
Theorem result_is_schedule_independent (nodes : list os_node_t) (NUM_THREADS : nat)
    (sched1 sched2 : list label) (s1 s2 : state) :
  0 < NUM_THREADS →
  run nodes NUM_THREADS sched1 (init nodes NUM_THREADS) = Some s1 →
  run nodes NUM_THREADS sched2 (init nodes NUM_THREADS) = Some s2 →
  terminal s1 → terminal s2 →
  output s1 = output s2 ∧ visited (mem s1) = visited (mem s2) ∧
  added (log (mem s1)) ≡ₚ added (log (mem s2)).
Proof.
  intros Hn Hr1 Hr2 Ht1 Ht2.
  destruct (reach_inv _ _ _ _ Hr1) as (Hi1 & Hg1 & Ha1).
  destruct (reach_inv _ _ _ _ Hr2) as (Hi2 & Hg2 & Ha2).
  pose proof (reach_inv_pending _ _ _ _ Hn Hr1) as Hp1.
  pose proof (reach_inv_pending _ _ _ _ Hn Hr2) as Hp2.
  assert (Hm1 : after_join (main s1) = true) by (by rewrite Ht1).
  assert (Hm2 : after_join (main s2) = true) by (by rewrite Ht2).
  destruct (final_sum _ _ _ Hi1 Hg1 Hp1 Hm1) as (Hnd1 & Hadd1 & Hsum1).
  destruct (final_sum _ _ _ Hi2 Hg2 Hp2 Hm2) as (Hnd2 & Hadd2 & Hsum2).
  assert (Hperm : added (log (mem s1)) ≡ₚ added (log (mem s2))).
  { apply NoDup_Permutation; [done..|]. intros v. by rewrite Hadd1, Hadd2. }
  split; [|split; [|done]].
  - rewrite (ia_output _ _ Ha1 Ht1), (ia_output _ _ Ha2 Ht2), Hsum1, Hsum2.
    by rewrite (sum_weights_perm _ _ _ Hperm).
  - apply list_eq. intros v.
    destruct (visited (mem s1) !! v) as [st1|] eqn:H1.
    + destruct (lookup_lt_is_Some_2 (visited (mem s2)) v) as [st2 H2].
      { rewrite (inv_visited _ _ _ Hi2), <- (inv_visited _ _ _ Hi1).
        by eapply lookup_lt_Some. }
      rewrite H2. f_equal.
      pose proof (final_no_processing _ _ s1 v Hi1 Hp1 Hm1) as Hn1.
      pose proof (final_no_processing _ _ s2 v Hi2 Hp2 Hm2) as Hn2.
      pose proof (final_done _ _ s1 v Hi1 Hg1 Hp1 Hm1) as Hd1.
      pose proof (final_done _ _ s2 v Hi2 Hg2 Hp2 Hm2) as Hd2.
      destruct st1, st2; try done; try congruence.
      * apply Hd2, Hd1 in H2. congruence.
      * apply Hd1, Hd2 in H1. congruence.
    + symmetry. apply lookup_ge_None. apply lookup_ge_None in H1.
      by rewrite (inv_visited _ _ _ Hi2), <- (inv_visited _ _ _ Hi1).
Qed.

(** The star graph under two schedules: worker 0 alone, and workers 1 to 3
    leaving while worker 0 is at work. *)
Lemma result_is_schedule_independent_star :
  ∃ s1 s2,
    run star_graph 4 (sequential_4 66) (init star_graph 4) = Some s1 ∧
    run star_graph 4
      (sched_of Main 14 ++ sched_of (Worker 0) 8 ++ sched_of (Worker 1) 4 ++
       sched_of (Worker 2) 4 ++ sched_of (Worker 3) 4 ++ sched_of (Worker 0) 58 ++
       sched_of Main 7)
      (init star_graph 4) = Some s2 ∧
    output s1 = output s2 ∧ visited (mem s1) = visited (mem s2) ∧
    added (log (mem s1)) ≡ₚ added (log (mem s2)).
Proof.
  eexists _, _. split; [vm_compute; reflexivity|]. split; [vm_compute; reflexivity|].
  apply (result_is_schedule_independent star_graph 4 (sequential_4 66)
           (sched_of Main 14 ++ sched_of (Worker 0) 8 ++ sched_of (Worker 1) 4 ++
            sched_of (Worker 2) 4 ++ sched_of (Worker 3) 4 ++ sched_of (Worker 0) 58 ++
            sched_of Main 7)).
  - lia.
  - vm_compute. reflexivity.
  - vm_compute. reflexivity.
  - reflexivity.
  - reflexivity.
Defined.

(** ** Calls run without interruption *)

(** X16.  A task put into the queue comes out again: on a pool whose mutex
    is free, [enqueue_task] links the task at the tail, counts it and
    releases the mutex, and a [dequeue_task] that follows returns without
    waiting, whoever is blocked on the condition variable, with the first
    task of the extended queue; on an empty queue it returns the very task
    and leaves the queue empty.  Neither call touches the graph. *)
Theorem enqueue_then_dequeue (me me' : thread_id) (pick : nat) (t : os_task_t)
    (sh : shared) :
  mutex (tp sh) = None →
  ∃ sh1 sh2 t0,
    run_enqueue_task 3 me pick t sh EnqLock = Some sh1 ∧
    head (tp sh1) = head (tp sh) ++ [t] ∧
    tasks_added (tp sh1) = S (tasks_added (tp sh)) ∧ mutex (tp sh1) = None ∧
    run_dequeue_task 5 me' sh1 DeqLock = Some (sh2, Some t0) ∧
    t0 :: head (tp sh2) = head (tp sh) ++ [t] ∧
    tasks_added (tp sh2) = S (tasks_added (tp sh)) ∧ mutex (tp sh2) = None ∧
    visited sh2 = visited sh ∧ sum sh2 = sum sh ∧ graph_mutex sh2 = graph_mutex sh ∧
    (head (tp sh) = [] → t0 = t ∧ head (tp sh2) = []).
Proof.
  intros Hq. destruct sh as [[h ta m c] vis sm gm lg]. simpl in *. subst.
  destruct h as [|t1 h]; eexists _, _, _; simpl; repeat split; try reflexivity;
    discriminate.
Qed.

(** A task enqueued on an empty queue and dequeued by another thread. *)
Lemma enqueue_then_dequeue_empty :
  let sh := {| tp := {| head := []; tasks_added := 0; mutex := None; cond := [Worker 1] |};
               visited := [PROCESSING]; sum := 0%Z; graph_mutex := Some Main;
               log := {| created := [task_for 0]; enqueued := []; added := [];
                         args_destroyed := 0; tasks_freed := 0 |} |} in
  ∃ sh1 sh2,
    run_enqueue_task 3 Main 0 (task_for 0) sh EnqLock = Some sh1 ∧
    run_dequeue_task 5 (Worker 0) sh1 DeqLock = Some (sh2, Some (task_for 0)) ∧
    head (tp sh2) = [].
Proof.
  intros sh.
  destruct (enqueue_then_dequeue Main (Worker 0) 0 (task_for 0) sh eq_refl)
    as (sh1 & sh2 & t0 & H1 & _ & _ & _ & H2 & _ & _ & _ & _ & _ & _ & H3).
  destruct (H3 eq_refl) as [-> Hh]. by exists sh1, sh2.
Defined.

(** The neighbours the loop claims: those that are NOT_VISITED when the loop
    starts, each once even when listed twice; they end up PROCESSING and no
    other status changes. *)
Lemma claim_neighbours_spec nbs vis :
  Forall (fun nb => nb < length vis) nbs →
  NoDup (claim_neighbours nbs vis).1 ∧
  (∀ v, v ∈ (claim_neighbours nbs vis).1 ↔ v ∈ nbs ∧ vis !! v = Some NOT_VISITED) ∧
  (∀ v, (claim_neighbours nbs vis).2 !! v
        = if decide (v ∈ (claim_neighbours nbs vis).1) then Some PROCESSING else vis !! v) ∧
  length (claim_neighbours nbs vis).2 = length vis.
Proof.
  revert vis. induction nbs as [|nb rest IH]; intros vis Hin; simpl.
  - split; [apply NoDup_nil_2|]. split; [|split; [|done]].
    + intros v. rewrite elem_of_nil. naive_solver.
    + intros v. destruct (decide (v ∈ [])) as [Hv|_]; [by apply elem_of_nil in Hv|done].
  - apply Forall_cons in Hin as [Hnb Hin]. case_decide as Hst.
    + specialize (IH (<[nb:=PROCESSING]> vis)).
      destruct (claim_neighbours rest (<[nb:=PROCESSING]> vis)) as [c vis'] eqn:Hc.
      simpl in *. destruct IH as (Hnd & Hmem & Hvis & Hlen).
      { by rewrite length_insert. }
      assert (Hnbc : nb ∉ c).
      { intros [_ Hx]%Hmem. rewrite list_lookup_insert_eq in Hx by done. done. }
      split; [by apply NoDup_cons|]. split; [|split].
      * intros v. rewrite !elem_of_cons, Hmem. split.
        -- intros [->|[Hv Hx]]; [auto|]. split; [auto|].
           destruct (decide (v = nb)) as [->|Hne]; [done|].
           by rewrite list_lookup_insert_ne in Hx.
        -- intros [[->|Hv] Hx]; [auto|].
           destruct (decide (v = nb)) as [->|Hne]; [auto|]. right. split; [done|].
           by rewrite list_lookup_insert_ne.
      * intros v. rewrite Hvis. destruct (decide (v = nb)) as [->|Hne].
        -- rewrite decide_False by done. rewrite decide_True by (by left).
           by apply list_lookup_insert_eq.
        -- repeat case_decide; try done.
           ++ exfalso. set_solver.
           ++ exfalso. set_solver.
           ++ by rewrite list_lookup_insert_ne.
      * by rewrite Hlen, length_insert.
    + destruct (IH vis Hin) as (Hnd & Hmem & Hvis & Hlen).
      split; [done|]. split; [|done].
      intros v. rewrite Hmem, elem_of_cons. split; [naive_solver|].
      intros [[->|Hv] Hx]; [done|auto].
Qed.

(** One more statement of a call of [execute]. *)
Lemma run_execute_S nodes f me pick arg sh x sh1 x1 :
  step_execute nodes me pick arg sh x = Some (sh1, Some x1) →
  run_execute nodes (S f) me pick arg sh x = run_execute nodes f me pick arg sh1 x1.
Proof. intros H. cbn [run_execute]. by rewrite H. Qed.

(** The loop of [execute] from iteration [i] to the return, run without
    interruption by a thread that holds the graph mutex. *)
Lemma execute_loop nodes me pick arg n :
  nodes !! idx arg = Some n →
  ∀ rest i sh,
    drop i (neighbours n) = rest →
    Forall (fun nb => nb < length (visited sh)) rest →
    mutex (tp sh) = None →
    ∃ fuel sh',
      fuel ≤ 2 + 5 * length rest ∧
      run_execute nodes fuel me pick arg sh (ExecLoop i) = Some sh' ∧
      visited sh' = (claim_neighbours rest (visited sh)).2 ∧
      head (tp sh') = head (tp sh) ++ (task_for <$> (claim_neighbours rest (visited sh)).1) ∧
      tasks_added (tp sh')
        = tasks_added (tp sh) + length (claim_neighbours rest (visited sh)).1 ∧
      created (log sh')
        = created (log sh) ++ (task_for <$> (claim_neighbours rest (visited sh)).1) ∧
      enqueued (log sh')
        = enqueued (log sh) ++ (task_for <$> (claim_neighbours rest (visited sh)).1) ∧
      added (log sh') = added (log sh) ∧
      sum sh' = sum sh ∧ graph_mutex sh' = None ∧ mutex (tp sh') = None.
Proof.
  intros Hn rest. induction rest as [|nb rest IH]; intros i sh Hd Hin Hq.
  - apply drop_nil_inv, lookup_ge_None in Hd.
    exists 2. eexists. split; [simpl; lia|]. split.
    { simpl. rewrite Hn. simpl. rewrite Hd. simpl. reflexivity. }
    simpl. rewrite !app_nil_r. repeat split; done || lia.
  - assert (Hi : neighbours n !! i = Some nb).
    { pose proof (lookup_drop (neighbours n) i 0) as Hl. rewrite Hd in Hl. simpl in Hl.
      by rewrite Nat.add_0_r in Hl. }
    assert (Hd' : drop (S i) (neighbours n) = rest).
    { rewrite (drop_S _ _ _ Hi) in Hd. by simplify_eq. }
    apply Forall_cons in Hin as [Hnb Hin].
    destruct (lookup_lt_is_Some_2 (visited sh) nb Hnb) as [st Hst].
    simpl claim_neighbours. case_decide as Hnv.
    + destruct (IH (S i)
                  (set_tp (set_mutex None (enqueue_locked pick (task_for nb)
                             (set_mutex (Some me) (tp sh))))
                     (set_log (log_enqueued (task_for nb)
                                 (log_created (task_for nb) (log sh)))
                        (set_visited (<[nb := PROCESSING]> (visited sh)) sh))) Hd')
        as (f & sh' & Hf & Hrun & Hv & Hh & Hta & Hcr & Hen & Had & Hsm & Hg & Hm).
      { simpl. by rewrite length_insert. }
      { done. }
      simpl in Hv, Hh, Hta, Hcr, Hen, Had, Hsm.
      destruct (claim_neighbours rest (<[nb:=PROCESSING]> (visited sh))) as [c vis'] eqn:Hc.
      simpl in *. exists (S (S (S (S (S f))))), sh'. split; [lia|]. split.
      { etrans; [apply run_execute_S; simpl; rewrite Hn; simpl; rewrite Hi; simpl;
                 rewrite Hst; simpl; rewrite decide_True by congruence; reflexivity|].
        etrans; [apply run_execute_S; simpl; rewrite Hn; simpl; rewrite Hi; simpl;
                 rewrite Hst; simpl; reflexivity|].
        etrans; [apply run_execute_S; simpl; rewrite Hq; reflexivity|].
        etrans; [apply run_execute_S; reflexivity|].
        etrans; [apply run_execute_S; reflexivity|].
        exact Hrun. }
      rewrite Hv, Hh, Hta, Hcr, Hen, Had, Hsm, Hg, Hm. unfold list_add_tail.
      rewrite <- !app_assoc. simpl. repeat split; done || lia.
    + destruct (IH (S i) sh Hd' Hin Hq) as (f & sh' & Hf & Hrun & Hrest).
      exists (S f), sh'. split; [simpl; lia|]. split; [|exact Hrest].
      simpl. rewrite Hn. simpl. rewrite Hi. simpl.
      rewrite Hst. simpl. rewrite decide_False by congruence. exact Hrun.
Qed.

(** X17.  [execute] on a PROCESSING node, run without interruption from a
    state in which both mutexes are free: it returns, after at most
    5 + 5 * num_neighbours statements, with both mutexes free again; the
    node's weight is added to [sum] in 32-bit arithmetic and the node is DONE;
    the neighbours that were NOT_VISITED, and only they, are PROCESSING, each
    has one task linked at the tail of the queue, in the order of the
    neighbour array and once even when the array names it twice; no neighbour
    is left NOT_VISITED. *)
Theorem execute_claims_neighbours (nodes : list os_node_t) (me : thread_id) (pick : nat)
    (arg : graph_task_args_t) (sh : shared) (n : os_node_t) :
  nodes !! idx arg = Some n →
  visited sh !! idx arg = Some PROCESSING →
  Forall (fun nb => nb < length (visited sh)) (neighbours n) →
  graph_mutex sh = None → mutex (tp sh) = None →
  ∃ fuel sh' claimed,
    fuel ≤ 5 + 5 * length (neighbours n) ∧
    run_execute nodes fuel me pick arg sh ExecLock = Some sh' ∧
    claimed = (claim_neighbours (neighbours n) (<[idx arg := DONE]> (visited sh))).1 ∧
    visited sh' = (claim_neighbours (neighbours n) (<[idx arg := DONE]> (visited sh))).2 ∧
    sum sh' = wrap_int (sum sh + info n) ∧
    added (log sh') = added (log sh) ++ [idx arg] ∧
    head (tp sh') = head (tp sh) ++ (task_for <$> claimed) ∧
    tasks_added (tp sh') = tasks_added (tp sh) + length claimed ∧
    graph_mutex sh' = None ∧ mutex (tp sh') = None ∧
    NoDup claimed ∧
    (∀ v, v ∈ claimed ↔ v ∈ neighbours n ∧ visited sh !! v = Some NOT_VISITED) ∧
    visited sh' !! idx arg = Some DONE ∧
    (∀ v, v ∈ claimed → visited sh' !! v = Some PROCESSING) ∧
    (∀ v, v ∉ claimed → v ≠ idx arg → visited sh' !! v = visited sh !! v) ∧
    (∀ v, v ∈ neighbours n → visited sh' !! v ≠ Some NOT_VISITED).
Proof.
  intros Hn Hst Hin Hg Hq.
  set (vis1 := <[idx arg := DONE]> (visited sh)).
  set (sh3 := set_log (log_added (idx arg) (log sh))
                (set_visited vis1
                   (set_sum (wrap_int (sum sh + info n)) (set_graph_mutex (Some me) sh)))).
  destruct (execute_loop nodes me pick arg n Hn (neighbours n) 0 sh3 eq_refl)
    as (f & sh' & Hf & Hrun & Hv & Hh & Hta & _ & _ & Had & Hsm & Hg' & Hm').
  { subst sh3 vis1. simpl. by rewrite length_insert. }
  { done. }
  destruct (claim_neighbours_spec (neighbours n) vis1) as (Hnd & Hmem & Hvis & Hlen).
  { subst vis1. by rewrite length_insert. }
  assert (Hidx : idx arg < length (visited sh)) by (by eapply lookup_lt_Some).
  assert (Hmem' : ∀ v, v ∈ (claim_neighbours (neighbours n) vis1).1 ↔
                       v ∈ neighbours n ∧ visited sh !! v = Some NOT_VISITED).
  { intros v. rewrite Hmem. subst vis1. destruct (decide (v = idx arg)) as [->|Hne].
    - rewrite list_lookup_insert_eq by done. rewrite Hst. naive_solver.
    - by rewrite list_lookup_insert_ne. }
  assert (Hnot : idx arg ∉ (claim_neighbours (neighbours n) vis1).1).
  { intros [_ Hx]%Hmem'. congruence. }
  subst sh3. simpl in Hv, Hh, Hta, Had, Hsm.
  exists (S (S (S f))), sh', (claim_neighbours (neighbours n) vis1).1.
  split; [lia|]. split.
  { etrans; [apply run_execute_S; simpl; rewrite Hg; reflexivity|].
    etrans; [apply run_execute_S; simpl; rewrite Hn; simpl; rewrite Hst; simpl; reflexivity|].
    etrans; [apply run_execute_S; simpl; rewrite Hn; simpl; rewrite Hst; simpl; reflexivity|].
    exact Hrun. }
  repeat split; try done.
  - by apply Hmem'.
  - by apply Hmem'.
  - intros [? ?]. by apply Hmem'.
  - rewrite Hv, Hvis, decide_False by done. subst vis1. by apply list_lookup_insert_eq.
  - intros v Hv'. by rewrite Hv, Hvis, decide_True.
  - intros v Hv' Hne. rewrite Hv, Hvis, decide_False by done. subst vis1.
    by rewrite list_lookup_insert_ne.
  - intros v Hv' Hx. rewrite Hv, Hvis in Hx. case_decide as Hc; [done|].
    apply Hc, Hmem. done.
Qed.

(** A node that names neighbour 1 twice, itself, and a neighbour that is
    DONE: one task is made, for neighbour 1. *)
Lemma execute_claims_neighbours_twice :
  let nodes := [ {| info := 5; neighbours := [1; 1; 0; 2] |};
                 {| info := 1; neighbours := [] |}; {| info := 2; neighbours := [] |} ] in
  let sh := {| tp := {| head := []; tasks_added := 1; mutex := None; cond := [] |};
               visited := [PROCESSING; NOT_VISITED; DONE]; sum := 2%Z;
               graph_mutex := None;
               log := {| created := []; enqueued := []; added := [2];
                         args_destroyed := 0; tasks_freed := 0 |} |} in
  ∃ fuel sh',
    run_execute nodes fuel (Worker 0) 0 {| idx := 0 |} sh ExecLock = Some sh' ∧
    visited sh' = [DONE; PROCESSING; DONE] ∧ sum sh' = 7%Z ∧
    head (tp sh') = [task_for 1].
Proof.
  intros nodes sh.
  destruct (execute_claims_neighbours nodes (Worker 0) 0 {| idx := 0 |} sh
              {| info := 5; neighbours := [1; 1; 0; 2] |})
    as (fuel & sh' & claimed & _ & Hrun & -> & Hv & Hs & _ & Hh & _).
  - reflexivity.
  - reflexivity.
  - repeat constructor.
  - reflexivity.
  - reflexivity.
  - exists fuel, sh'. split; [exact Hrun|]. split; [exact Hv|]. split; [exact Hs|exact Hh].
Defined.

(** One more statement of a call of [wait_for_completion]. *)
Lemma run_wait_S f n me ws sh w sh1 w1 :
  step_wait_for_completion n me ws sh w = Some (sh1, Some w1) →
  run_wait_for_completion (S f) n me ws sh w = run_wait_for_completion f n me ws sh1 w1.
Proof. intros H. cbn [run_wait_for_completion]. by rewrite H. Qed.

(** The joins of [wait_for_completion] from index [i] on, when every worker
    has left its loop. *)
Lemma join_loop n me ws sh :
  Forall (fun pc => pc = LoopExit) ws → length ws = n →
  ∀ k i, i + k = n → run_wait_for_completion (S k) n me ws sh (WaitJoin i) = Some sh.
Proof.
  intros Hex Hlen k. induction k as [|k IH]; intros i Hi.
  - simpl. by rewrite decide_False by lia.
  - cbn [run_wait_for_completion]. simpl step_wait_for_completion.
    rewrite decide_True by lia.
    destruct (lookup_lt_is_Some_2 ws i) as [pc Hpc]; [lia|].
    rewrite Hpc, (Forall_lookup_1 _ _ _ _ Hex Hpc). simpl. apply IH. lia.
Qed.

(** [wait_for_completion] does not return while a worker is inside its loop. *)
Lemma join_blocks n me ws j pc :
  j < n → ws !! j = Some pc → pc ≠ LoopExit →
  ∀ fuel sh w,
    (∀ i, w = WaitJoin i → i ≤ j) →
    run_wait_for_completion fuel n me ws sh w = None.
Proof.
  intros Hj Hpc Hne fuel. induction fuel as [|fuel IH]; intros sh w Hw; [done|].
  cbn [run_wait_for_completion]. destruct w as [| | |i]; simpl.
  - destruct (mutex (tp sh)); [done|]. simpl. apply IH. by intros i [=].
  - apply IH. by intros i [=].
  - apply IH. intros i [= <-]. lia.
  - specialize (Hw i eq_refl). rewrite decide_True by lia.
    destruct (decide (i = j)) as [->|Hij].
    + rewrite Hpc. by destruct pc.
    + destruct (ws !! i) as [[]|]; try done. simpl. apply IH. intros ? [= <-]. lia.
Qed.

(** X18.  [wait_for_completion], run without interruption on a pool whose
    mutex is free, returns exactly when every worker has left its loop: then
    it takes 4 + num_threads statements and leaves the memory as it was but
    for the condition variable, which has no waiter left; while some worker is
    still inside its loop it never returns, however long it runs. *)
Theorem wait_for_completion_joins_all (n : nat) (me : thread_id) (ws : list worker_pc)
    (sh : shared) :
  mutex (tp sh) = None → length ws = n →
  (Forall (fun pc => pc = LoopExit) ws →
   run_wait_for_completion (4 + n) n me ws sh WaitLock
     = Some (set_tp (set_cond [] (tp sh)) sh)) ∧
  (∀ j pc, ws !! j = Some pc → pc ≠ LoopExit →
   ∀ fuel, run_wait_for_completion fuel n me ws sh WaitLock = None).
Proof.
  intros Hq Hlen. split.
  - intros Hex. change (4 + n) with (S (S (S (S n)))).
    etrans; [apply run_wait_S; simpl; rewrite Hq; reflexivity|].
    etrans; [apply run_wait_S; reflexivity|].
    etrans; [apply run_wait_S; reflexivity|].
    rewrite (join_loop n me ws _ Hex Hlen n 0) by lia.
    destruct sh as [[h ta m c] vis sm gm lg]. simpl in *. by subst.
  - intros j pc Hpc Hne fuel. eapply join_blocks; [|exact Hpc|exact Hne|by intros i [=]].
    rewrite <- Hlen. by eapply lookup_lt_Some.
Qed.

(** Two workers, both gone: the call returns; one of them still waiting for
    the queue mutex: it does not. *)
Lemma wait_for_completion_joins_all_two :
  let sh := {| tp := {| head := []; tasks_added := 1; mutex := None; cond := [] |};
               visited := [DONE]; sum := 7%Z; graph_mutex := None;
               log := {| created := [task_for 0]; enqueued := [task_for 0]; added := [0];
                         args_destroyed := 1; tasks_freed := 1 |} |} in
  run_wait_for_completion 6 2 Main [LoopExit; LoopExit] sh WaitLock = Some sh ∧
  ∀ fuel, run_wait_for_completion fuel 2 Main [LoopExit; LoopDeq DeqLock] sh WaitLock = None.
Proof.
  intros sh. split.
  - apply (wait_for_completion_joins_all 2 Main [LoopExit; LoopExit] sh eq_refl eq_refl).
    repeat constructor.
  - apply (proj2 (wait_for_completion_joins_all 2 Main [LoopExit; LoopDeq DeqLock] sh
                    eq_refl eq_refl) 1 (LoopDeq DeqLock)); [reflexivity|discriminate].
Defined.
